(** * TJSON: a sample-guided streaming JSON parser (src/index.ts)

    A shallow embedding of the [TJSON] namespace.  The cursor class [Lex] is a
    record threaded through a state-and-exception monad; every [async]
    method is a function of that monad, every [throw] an exceptional
    outcome.  JavaScript strings are lists of UTF-16 code units; the
    characters the cursor hands out are code points (the source spreads each
    decoded chunk with [[...value]]), the empty string standing for the end
    of the stream is [None].

    - The registry [types] is a value passed along: [addType] returns the
      registry it leaves behind.
    - Loops over the cursor and nested calls through the registry are bounded
      by the number of characters still pending; a run that outlasts its
      bound is [Diverge].
    - An async generator is the list of values it yields together with its
      completion.
    - A number is the exact decimal its text denotes; the host rounds it to
      a double, which the small integers of the statements are not affected
      by.
    - The host's [Date] is a parameter of the date handler.
    - An object value lists its own properties in enumeration order; one
      whose prototype was replaced through [__proto__] carries the new
      prototype. *)

From Stdlib Require Import String Ascii NArith ZArith Bool Lia List.
From Stdlib Require Import DecimalString Sorting.Sorted Sorting.Permutation.
Import ListNotations.
Open Scope N_scope.
Set Warnings "-register-all".

(** ** JavaScript strings *)

Definition jsstring := list N.

Definition str (s : string) : jsstring :=
  map N_of_ascii (list_ascii_of_string s).

(** UTF-16 code units of one code point: what [s + ch] appends. *)
Definition utf16 (cp : N) : jsstring :=
  if cp <? 65536 then [cp]
  else [55296 + (cp - 65536) / 1024; 56320 + (cp - 65536) mod 1024].

(** [String(n)] for a non-negative integer. *)
Definition decimal (n : N) : jsstring :=
  str (NilZero.string_of_uint (N.to_uint n)).

Definition jsstring_eqb (a b : jsstring) : bool :=
  if list_eq_dec N.eq_dec a b then true else false.

(** A character as [peek] returns it: [None] is the empty string. *)
Definition char := option N.

Definition chr (a : ascii) : char := Some (N_of_ascii a).

Definition char_eqb (c : char) (a : ascii) : bool :=
  match c with
  | Some n => n =? N_of_ascii a
  | None => false
  end.

(** The text of a character inside a message: [ch] itself, or EOF for the
    empty string. *)
Definition char_text (c : char) : jsstring :=
  match c with
  | Some n => utf16 n
  | None => []
  end.

Definition char_or_EOF (c : char) : jsstring :=
  match c with
  | Some n => utf16 n
  | None => str "EOF"
  end.

(** ** Errors and outcomes *)

Inductive JsError :=
| SyntaxError (message : jsstring)
| TypeError (message : jsstring)
| EngineSyntaxError   (* raised by the host's JSON.parse; message is the host's *)
| EngineTypeError.    (* raised by the host's operators; message is the host's *)

(** A chunk delivered by the decoder: never empty (TextDecoderStream
    enqueues nothing for an empty output). *)
Definition chunk := (N * list N)%type.

Definition chunk_chars (c : chunk) : list N := fst c :: snd c.

Module Lex.

Record t := mk {
  reader : list chunk;
  chars : list N;
  index : nat;
  eof : bool;
  lineNo : N;
  charNo : N
}.

(** constructor: fields initialised as the class declares them *)
Definition new (stream : list chunk) : t :=
  {| reader := stream; chars := []; index := 0%nat; eof := false;
     lineNo := 1; charNo := 1 |}.

End Lex.

Inductive Outcome (A : Type) :=
| Return (a : A) (lex : Lex.t)
| Throw (e : JsError)
| Diverge.   (* the recursion bound was exhausted *)

Arguments Return {A} a lex.
Arguments Throw {A} e.
Arguments Diverge {A}.

Definition M (A : Type) := Lex.t -> Outcome A.

Definition ret {A} (a : A) : M A := fun lex => Return a lex.

Definition bind {A B} (m : M A) (f : A -> M B) : M B :=
  fun lex =>
    match m lex with
    | Return a lex' => f a lex'
    | Throw e => Throw e
    | Diverge => Diverge
    end.

Definition throw {A} (e : JsError) : M A := fun _ => Throw e.

Declare Scope lex_scope.
Delimit Scope lex_scope with lex.
Notation "x <- m ;; k" := (bind m (fun x => k))
  (at level 61, m at next level, right associativity) : lex_scope.
Notation "m ;;; k" := (bind m (fun _ => k))
  (at level 61, right associativity) : lex_scope.
Open Scope lex_scope.

(** ** The character cursor *)

(** [lex.error(msg)] *)
Definition error_at (lex : Lex.t) (msg : jsstring) : JsError :=
  SyntaxError (str "(Line:" ++ decimal (Lex.lineNo lex) ++ str ", character:"
               ++ decimal (Lex.charNo lex) ++ str "): " ++ msg).

Definition error {A} (msg : jsstring) : M A :=
  fun lex => Throw (error_at lex msg).

Definition peek : M char := fun lex =>
  if Lex.eof lex then Return None lex
  else if (length (Lex.chars lex) <=? Lex.index lex)%nat then
    match Lex.reader lex with
    | [] =>
        Return None
          {| Lex.reader := []; Lex.chars := []; Lex.index := 0%nat;
             Lex.eof := true;
             Lex.lineNo := Lex.lineNo lex; Lex.charNo := Lex.charNo lex |}
    | value :: rest =>
        Return (Some (fst value))
          {| Lex.reader := rest; Lex.chars := chunk_chars value;
             Lex.index := 0%nat; Lex.eof := false;
             Lex.lineNo := Lex.lineNo lex; Lex.charNo := Lex.charNo lex |}
    end
  else Return (nth_error (Lex.chars lex) (Lex.index lex)) lex.

Definition advance (c : N) : M unit := fun lex =>
  Return tt
    {| Lex.reader := Lex.reader lex; Lex.chars := Lex.chars lex;
       Lex.index := S (Lex.index lex); Lex.eof := Lex.eof lex;
       Lex.lineNo := if c =? 10 then Lex.lineNo lex + 1 else Lex.lineNo lex;
       Lex.charNo := if c =? 10 then 1 else Lex.charNo lex + 1 |}.

Definition nextChar : M char :=
  result <- peek ;;
  match result with
  | None => ret None
  | Some c => advance c ;;; ret (Some c)
  end.

Definition mustChar : M N :=
  result <- nextChar ;;
  match result with
  | None => error (str "Expected a character but got EOF.")
  | Some c => ret c
  end.

Definition isWhite (ch : char) : bool :=
  char_eqb ch " " || char_eqb ch "010" || char_eqb ch "009" || char_eqb ch "013".

Definition isDigit (ch : char) : bool :=
  match ch with
  | Some c => let code := hd 0 (utf16 c) in (48 <=? code) && (code <=? 57)
  | None => false
  end.

(** Characters not yet handed out; bounds every loop over the cursor. *)
Definition pending (lex : Lex.t) : list N :=
  if Lex.eof lex then []
  else skipn (Lex.index lex) (Lex.chars lex)
       ++ concat (map chunk_chars (Lex.reader lex)).

Fixpoint skip_loop (fuel : nat) : M unit :=
  match fuel with
  | O => fun _ => Diverge
  | S fuel' =>
      ch <- peek ;;
      if isWhite ch then nextChar ;;; skip_loop fuel' else ret tt
  end.

Definition skip : M unit :=
  fun lex => skip_loop (S (length (pending lex))) lex.

Fixpoint expect_loop (s : jsstring) (expected : list N) : M unit :=
  match expected with
  | [] => ret tt
  | e :: more =>
      ch <- nextChar ;;
      if match ch with Some c => c =? e | None => false end
      then expect_loop s more
      else error (str "Expected " ++ s ++ str ", got: " ++ char_or_EOF ch)
  end.

(** [expect(s)]; the literals the source passes are ASCII, one code point
    per code unit. *)
Definition expect (s : jsstring) : M unit :=
  skip ;;; expect_loop s s.

Definition skipAndPeek : M char :=
  skip ;;; peek.

Definition skipAndExpect (delim : ascii) : M unit :=
  skip ;;;
  ch <- nextChar ;;
  if char_eqb ch delim then ret tt
  else error (str "Expected " ++ [N_of_ascii delim] ++ str " but got: "
              ++ char_or_EOF ch ++ str ".").

(** ** The host's JSON.parse, on the two texts the cursor hands to it *)

(** A JSON number denotes a decimal; the value kept here is that decimal,
    exact, in lowest terms of ten (the host rounds it to a double). *)
Record number := mkNumber {
  negative : bool;
  coefficient : N;
  exponent : Z
}.

Definition number_eqb (a b : number) : bool :=
  Bool.eqb (negative a) (negative b) && (coefficient a =? coefficient b)
  && (exponent a =? exponent b)%Z.

Definition digit_unit (u : N) : bool := (48 <=? u) && (u <=? 57).

Fixpoint span_digits (s : jsstring) : jsstring * jsstring :=
  match s with
  | u :: rest =>
      if digit_unit u
      then let (d, r) := span_digits rest in (u :: d, r)
      else ([], s)
  | [] => ([], [])
  end.

Definition digits_value (d : jsstring) : N :=
  fold_left (fun acc u => 10 * acc + (u - 48)) d 0.

Fixpoint strip_tens (fuel : nat) (c : N) (e : Z) : N * Z :=
  match fuel with
  | O => (c, e)
  | S fuel' =>
      if c =? 0 then (0, 0%Z)
      else if c mod 10 =? 0 then strip_tens fuel' (c / 10) (e + 1)%Z
      else (c, e)
  end.

Definition leading_zero (d : jsstring) : bool :=
  match d with
  | 48 :: _ :: _ => true
  | _ => false
  end.

(** [JSON.parse(buf)] for a number text: [None] is the host's SyntaxError. *)
Definition JSON_parse_number (buf : jsstring) : option number :=
  let (neg, s1) := match buf with
                   | 45 :: r => (true, r)
                   | _ => (false, buf)
                   end in
  let (int, s2) := span_digits s1 in
  if match int with [] => true | _ => leading_zero int end then None else
  let fs := match s2 with
            | 46 :: r => let (f, r') := span_digits r in
                         match f with [] => None | _ => Some (f, r') end
            | _ => Some ([], s2)
            end in
  match fs with
  | None => None
  | Some (frac, s3) =>
      let es := match s3 with
                | (101 | 69) :: r =>
                    let (sgn, r1) := match r with
                                     | 43 :: r' => (false, r')
                                     | 45 :: r' => (true, r')
                                     | _ => (false, r)
                                     end in
                    let (d, r2) := span_digits r1 in
                    match d with
                    | [] => None
                    | _ => let v := Z.of_N (digits_value d) in
                           Some ((if sgn then - v else v)%Z, r2)
                    end
                | _ => Some (0%Z, s3)
                end in
      match es with
      | Some (e, []) =>
          let (c, e') := strip_tens (length (int ++ frac))
                           (digits_value (int ++ frac))
                           (e - Z.of_nat (length frac))%Z in
          Some (mkNumber neg c e')
      | _ => None
      end
  end.

Definition hex_value (cp : N) : option N :=
  if (48 <=? cp) && (cp <=? 57) then Some (cp - 48)
  else if (65 <=? cp) && (cp <=? 70) then Some (cp - 55)
  else if (97 <=? cp) && (cp <=? 102) then Some (cp - 87)
  else None.

(** JSON.parse of a quoted backslash-u escape followed by [hex], four characters: a
    one-unit string when all four are hexadecimal digits, else the host's
    SyntaxError. *)
Definition JSON_parse_unicode (a b c d : N) : option jsstring :=
  match hex_value a, hex_value b, hex_value c, hex_value d with
  | Some x, Some y, Some z, Some w => Some [((x * 16 + y) * 16 + z) * 16 + w]
  | _, _, _, _ => None
  end.

(** ** Token consumers *)

Definition unescape : M jsstring :=
  ch <- mustChar ;;
  if ch =? 34 then ret [34]          (* quotation mark *)
  else if ch =? 92 then ret [92]     (* reverse solidus *)
  else if ch =? 98 then ret [8]      (* b *)
  else if ch =? 102 then ret [12]    (* f *)
  else if ch =? 110 then ret [10]    (* n *)
  else if ch =? 114 then ret [13]    (* r *)
  else if ch =? 116 then ret [9]     (* t *)
  else if ch =? 117 then             (* u *)
    a <- mustChar ;; b <- mustChar ;; c <- mustChar ;; d <- mustChar ;;
    match JSON_parse_unicode a b c d with
    | Some s => ret s
    | None => throw EngineSyntaxError
    end
  else error (str "Invalid escaped character.").

Definition booleanLiteral : M bool :=
  ch <- skipAndPeek ;;
  if char_eqb ch "t" then expect (str "true") ;;; ret true
  else if char_eqb ch "f" then expect (str "false") ;;; ret false
  else error (str "Expected true or false, got: " ++ char_text ch).

Fixpoint readDigits_loop (fuel : nat) (buf : jsstring) : M jsstring :=
  match fuel with
  | O => fun _ => Diverge
  | S fuel' =>
      ch <- peek ;;
      if isDigit ch
      then c <- nextChar ;; readDigits_loop fuel' (buf ++ char_text c)
      else ret buf
  end.

Definition readDigits : M jsstring :=
  fun lex => readDigits_loop (S (length (pending lex))) [] lex.

Definition numberLiteral : M number :=
  skip ;;;
  first <- peek ;;
  if negb (char_eqb first "-") && negb (isDigit first)
  then error (str "Expected number, got: " ++ char_text first)
  else
  buf <- (if char_eqb first "-"
          then c <- nextChar ;; ret (char_text c) else ret []) ;;
  digits <- readDigits ;;
  match digits with
  | [] => error (str "Expected number.")
  | _ =>
  if leading_zero digits
  then error (str "Invalid number (leading zeroes.)")
  else
  let buf := buf ++ digits in
  dot <- peek ;;
  buf <- (if char_eqb dot "."
          then c <- nextChar ;;
               digits <- readDigits ;;
               match digits with
               | [] => error (str "Invalid number (empty fraction.)")
               | _ => ret (buf ++ char_text c ++ digits)
               end
          else ret buf) ;;
  e <- peek ;;
  buf <- (if char_eqb e "e" || char_eqb e "E"
          then c <- nextChar ;;
               let buf := buf ++ char_text c in
               sign <- peek ;;
               buf <- (if char_eqb sign "+" || char_eqb sign "-"
                       then s <- nextChar ;; ret (buf ++ char_text s)
                       else ret buf) ;;
               digits <- readDigits ;;
               match digits with
               | [] => error (str "Invalid number (empty exponent.)")
               | _ => ret (buf ++ digits)
               end
          else ret buf) ;;
  match JSON_parse_number buf with
  | Some n => ret n
  | None => throw EngineSyntaxError
  end
  end.

Definition get_eof : M bool := fun lex => Return (Lex.eof lex) lex.

Fixpoint stringLiteral_loop (fuel : nat) (result : jsstring) : M jsstring :=
  match fuel with
  | O => fun _ => Diverge
  | S fuel' =>
      ch <- nextChar ;;
      if char_eqb ch "034" then ret result
      else
        eof <- get_eof ;;
        if eof then error (str "Expected " ++ [34] ++ str " but got EOF.")
        else
          ch <- (if char_eqb ch "092" then unescape else ret (char_text ch)) ;;
          stringLiteral_loop fuel' (result ++ ch)
  end.

Definition stringLiteral : M jsstring :=
  skipAndExpect "034" ;;;
  fun lex => stringLiteral_loop (S (length (pending lex))) [] lex.

(** ** Samples and decoded values *)

(** [VObject] is a plain object, its own properties in enumeration order,
    that inherits from Object.prototype.  [VObjectProto] is one whose
    prototype was replaced through the inherited [__proto__] setter, by an
    object, an array or a date, or by null ([VNull]). *)
Inductive Value :=
| VUndefined
| VNull
| VBoolean (b : bool)
| VNumber (n : number)
| VString (s : jsstring)
| VDate (time : Z)
| VArray (elements : list Value)
| VObject (properties : list (jsstring * Value))
| VObjectProto (properties : list (jsstring * Value)) (prototype : Value).

(** A sample is looked at for its runtime kind only.  An object sample
    lists its own enumerable string-keyed properties in enumeration order
    and the two symbol-keyed hooks: [beforeParse] by the template it
    returns, [afterParse] by the function it is. *)
Inductive Sample :=
| SUndefined
| SNull
| SBoolean
| SNumber
| SString
| SDate
| SFunction
| SArray (elements : list Sample)
| SObject (o : ObjectSample)
| SObjectPrototype
with ObjectSample :=
| mkObject (properties : list (jsstring * Sample))
           (beforeParse : option ObjectSample)
           (afterParse : option (Value -> Value)).

Definition properties (o : ObjectSample) : list (jsstring * Sample) :=
  match o with mkObject p _ _ => p end.

Definition beforeParse (o : ObjectSample) : option ObjectSample :=
  match o with mkObject _ b _ => b end.

Definition afterParse (o : ObjectSample) : option (Value -> Value) :=
  match o with mkObject _ _ a => a end.

Fixpoint assoc {A} (key : jsstring) (l : list (jsstring * A)) : option A :=
  match l with
  | [] => None
  | (k, v) :: rest => if jsstring_eqb k key then Some v else assoc key rest
  end.

(** Names every object inherits from Object.prototype. *)
Definition Object_prototype_methods : list jsstring :=
  map str ["constructor"; "__defineGetter__"; "__defineSetter__";
           "hasOwnProperty"; "__lookupGetter__"; "__lookupSetter__";
           "isPrototypeOf"; "propertyIsEnumerable"; "toString"; "valueOf";
           "toLocaleString"]%string.

Definition inherited (key : jsstring) : option Sample :=
  if existsb (jsstring_eqb key) Object_prototype_methods then Some SFunction
  else if jsstring_eqb key (str "__proto__") then Some SObjectPrototype
  else None.

(** [key in template] and [template[key]] at once: [None] when the key is
    absent. *)
Definition lookup (template : ObjectSample) (key : jsstring) : option Sample :=
  match assoc key (properties template) with
  | Some s => Some s
  | None => inherited key
  end.

Definition own_property (k : jsstring) (props : list (jsstring * Value)) : bool :=
  match assoc k props with Some _ => true | None => false end.

(** [k in parsed]: [None] is the TypeError of [in] on a non-object.  The
    search goes through the own properties and then up the prototype
    chain, to Object.prototype or to null.  Of an array or a date the own
    names and those of Object.prototype are listed; the methods of
    Array.prototype and Date.prototype vary with the host and are left
    out. *)
Fixpoint has_property (parsed : Value) (k : jsstring) : option bool :=
  let proto := existsb (jsstring_eqb k)
                 (str "__proto__" :: Object_prototype_methods) in
  match parsed with
  | VObject props =>
      Some (match assoc k props with Some _ => true | None => proto end)
  | VObjectProto props prototype =>
      Some (match assoc k props with
            | Some _ => true
            | None =>
                match prototype with
                | VNull => false
                | _ => match has_property prototype k with
                       | Some b => b
                       | None => false
                       end
                end
            end)
  | VArray l =>
      Some (existsb (jsstring_eqb k)
              (str "length" :: map (fun i => decimal (N.of_nat i))
                                   (seq 0 (length l)))
            || proto)
  | VDate _ => Some proto
  | _ => None
  end.

(** The array index a property name is, if it is one: the canonical
    decimal of an integer below 2^32 - 1. *)
Definition array_index (k : jsstring) : option N :=
  match k with
  | [] => None
  | _ :: _ =>
      if forallb digit_unit k then
        let n := digits_value k in
        if jsstring_eqb (decimal n) k && (n <? 4294967295) then Some n
        else None
      else None
  end.

(** A new own property takes its place in the enumeration order: array
    indices first, ascending, then the other names as they were created. *)
Fixpoint insert_index (n : N) (key : jsstring) (v : Value)
  (props : list (jsstring * Value)) : list (jsstring * Value) :=
  match props with
  | [] => [(key, v)]
  | (k, w) :: rest =>
      match array_index k with
      | Some m =>
          if m <? n then (k, w) :: insert_index n key v rest
          else (key, v) :: props
      | None => (key, v) :: props
      end
  end.

Fixpoint replace_value (props : list (jsstring * Value)) (key : jsstring)
  (v : Value) : list (jsstring * Value) :=
  match props with
  | [] => []
  | (k, w) :: rest =>
      if jsstring_eqb k key then (k, v) :: rest
      else (k, w) :: replace_value rest key v
  end.

(** The own data property [key] set to [v]: replaced in place, or
    created. *)
Definition assign (props : list (jsstring * Value)) (key : jsstring) (v : Value)
  : list (jsstring * Value) :=
  if own_property key props then replace_value props key v
  else match array_index key with
       | Some n => insert_index n key v props
       | None => props ++ [(key, v)]
       end.

(** Whether an assignment to [__proto__] on an object whose lookup
    starts at [v] ends in the setter of Object.prototype: it does unless an
    own data property of that name, or a null prototype, comes first. *)
Fixpoint proto_setter (v : Value) : bool :=
  match v with
  | VObject props => negb (own_property (str "__proto__") props)
  | VObjectProto props prototype =>
      negb (own_property (str "__proto__") props)
      && match prototype with
         | VNull => false
         | _ => proto_setter prototype
         end
  | VArray _ | VDate _ => true
  | _ => false
  end.

(** The values the setter takes for a prototype: objects, and null. *)
Definition prototype_value (v : Value) : bool :=
  match v with
  | VNull | VObject _ | VObjectProto _ _ | VArray _ | VDate _ => true
  | _ => false
  end.

Definition own_properties (target : Value) : list (jsstring * Value) :=
  match target with
  | VObject props | VObjectProto props _ => props
  | _ => []
  end.

Definition with_properties (target : Value) (props : list (jsstring * Value))
  : Value :=
  match target with
  | VObjectProto _ prototype => VObjectProto props prototype
  | _ => VObject props
  end.

(** [target[key] = value] on the object [target] the parser builds.  The
    name [__proto__] goes to the inherited setter, which replaces the
    prototype by an object or null and ignores any other value; every
    other assignment sets an own data property. *)
Definition set_property (target : Value) (key : jsstring) (v : Value) : Value :=
  if jsstring_eqb key (str "__proto__") && proto_setter target then
    if prototype_value v then VObjectProto (own_properties target) v
    else target
  else with_properties target (assign (own_properties target) key v).

(** ** Async generators

    A generator run to its end: the values it yields, in order, then its
    completion.  A yield that follows a throw never happens, so the values
    yielded before a failure are kept beside it. *)
Definition G (A : Type) := Lex.t -> list Value * Outcome A.

Definition gret {A} (a : A) : G A := fun lex => ([], Return a lex).

Definition gbind {A B} (m : G A) (f : A -> G B) : G B :=
  fun lex =>
    match m lex with
    | (ys, Return a lex') => let (zs, o) := f a lex' in (ys ++ zs, o)
    | (ys, Throw e) => (ys, Throw e)
    | (ys, Diverge) => (ys, Diverge)
    end.

Definition lift {A} (m : M A) : G A := fun lex => ([], m lex).

(** [yield p] for a promise [p]: the promise is awaited, its value yielded. *)
Definition yield (p : M Value) : G unit :=
  fun lex =>
    match p lex with
    | Return x lex' => ([x], Return tt lex')
    | Throw e => ([], Throw e)
    | Diverge => ([], Diverge)
    end.

(** [for await (const x of g) result.push(x)] followed by [return result] *)
Definition collect (g : G unit) : M (list Value) :=
  fun lex =>
    match g lex with
    | (result, Return _ lex') => Return result lex'
    | (_, Throw e) => Throw e
    | (_, Diverge) => Diverge
    end.

(** ** The type registry *)

(** What a handler's [parse] may call on the cursor besides the token
    consumers: the two methods that go back through the registry. *)
Record Api := mkApi {
  api_object : ObjectSample -> M Value;
  api_elements : Sample -> G unit
}.

Record Type_ := mkType {
  priority : Z;
  isValid : Sample -> bool;
  parse_ : Api -> Sample -> M Value
}.

(** [typeof(sample) === 'object'] *)
Definition typeof_object (sample : Sample) : bool :=
  match sample with
  | SNull | SDate | SArray _ | SObject _ | SObjectPrototype => true
  | _ => false
  end.

(** The own properties [Object.prototype] shows to [in]. *)
Definition Object_prototype_sample : ObjectSample :=
  mkObject (map (fun k => (k, SFunction)) Object_prototype_methods
            ++ [(str "__proto__", SNull)]) None None.

Section Host.

(** [new Date(string).getTime()], [None] for NaN: the host's. *)
Variable Date_parse : jsstring -> option Z.

Definition boolean_type : Type_ :=
  mkType 1000000
    (fun sample => match sample with SBoolean => true | _ => false end)
    (fun _ _ => b <- booleanLiteral ;; ret (VBoolean b)).

Definition number_type : Type_ :=
  mkType 2000000
    (fun sample => match sample with SNumber => true | _ => false end)
    (fun _ _ => n <- numberLiteral ;; ret (VNumber n)).

Definition date_type : Type_ :=
  mkType 10000000
    (fun sample => match sample with SDate => true | _ => false end)
    (fun _ _ =>
       string <- stringLiteral ;;
       match Date_parse string with
       | None => error (str "Expected date, got " ++ string ++ str ".")
       | Some t => ret (VDate t)
       end).

Definition string_type : Type_ :=
  mkType 11000000
    (fun value => match value with SString => true | _ => false end)
    (fun _ _ => s <- stringLiteral ;; ret (VString s)).

Definition array_type : Type_ :=
  mkType 12000000
    (fun value => match value with SArray _ => true | _ => false end)
    (fun lex sample =>
       match sample with
       | SArray [] => error (str "No sample element in sample array.")
       | SArray (sampleElement :: _) =>
           result <- collect (api_elements lex sampleElement) ;;
           ret (VArray result)
       | _ => throw EngineTypeError   (* [.length] of a non-array *)
       end).

(** The object handler hands [sample] to [lex.object] whatever it is.  The
    constructor's [beforeParse in template] throws on [null]; arrays and
    dates never get here (their handlers come first in every registry) and
    are read as objects without sample properties. *)
Definition object_type : Type_ :=
  mkType 13000000
    typeof_object
    (fun lex sample =>
       match sample with
       | SObject o => api_object lex o
       | SObjectPrototype => api_object lex Object_prototype_sample
       | SNull => throw EngineTypeError
       | _ => api_object lex (mkObject [] None None)
       end).

Definition other_type : Type_ :=
  mkType (2 ^ 53 - 1)
    (fun _ => true)
    (fun _ _ => throw (TypeError (str "Unsupported type"))).

Definition types : list Type_ :=
  [boolean_type; number_type; date_type; string_type; array_type;
   object_type; other_type].

End Host.

(** [types.sort((a, b) => a.priority - b.priority)]: the sort is stable, so
    a handler goes behind those of equal priority that precede it. *)
Fixpoint insert_type (x : Type_) (sorted : list Type_) : list Type_ :=
  match sorted with
  | [] => [x]
  | y :: rest =>
      if (priority x <? priority y)%Z then x :: sorted
      else y :: insert_type x rest
  end.

Definition sort_types (l : list Type_) : list Type_ :=
  fold_left (fun sorted x => insert_type x sorted) l [].

(** [addType(type)], on the registry passed along in place of the global. *)
Definition addType (type : Type_) (registry : list Type_) : list Type_ :=
  sort_types (registry ++ [type]).

(** [types.find(x => x.isValid(sample))!] followed by [type.parse(lex, sample)]:
    with no handler found the call is on [undefined]. *)
Definition type_parse (registry : list Type_) (lex : Api) (sample : Sample)
  : M Value :=
  match find (fun x => isValid x sample) registry with
  | Some type => parse_ type lex sample
  | None => throw EngineTypeError
  end.

(** ** The default completeness checker *)

(** [typeof(sample[k] !== "function")] is the string "boolean", which is
    truthy: the test left is [!(k in parsed)]. *)
Fixpoint check_loop (keys : list jsstring) (parsed : Value) : M unit :=
  match keys with
  | [] => ret tt
  | k :: more =>
      match has_property parsed k with
      | None => throw EngineTypeError
      | Some true => check_loop more parsed
      | Some false => error (str "Missing required property: " ++ k)
      end
  end.

Definition check (sample : ObjectSample) (parsed : Value) : M unit :=
  check_loop (map fst (properties sample)) parsed.

(** ** ObjectParser and Lex.elements *)

Section Parsers.

(** The registry lookup and handler call the two parsers go back to. *)
Variable dispatch : Sample -> M Value.

Definition addProperty (template : ObjectSample)
  (target : Value) (key : jsstring) : M Value :=
  match lookup template key with
  | None => error (str "No such property: " ++ key)
  | Some sample =>
      skip ;;;
      v <- dispatch sample ;;
      ret (set_property target key v)
  end.

Fixpoint ObjectParser_loop (fuel : nat) (template : ObjectSample)
  (target : Value) (ch : char) : M Value :=
  match fuel with
  | O => fun _ => Diverge
  | S fuel' =>
      if char_eqb ch "034" then
        key <- stringLiteral ;;
        skipAndExpect ":" ;;;
        target <- addProperty template target key ;;
        ch <- skipAndPeek ;;
        if char_eqb ch "," then
          nextChar ;;;
          ch <- skipAndPeek ;;
          ObjectParser_loop fuel' template target ch
        else if negb (char_eqb ch "}") then
          error (str "Expected , or } but got: " ++ char_or_EOF ch)
        else ObjectParser_loop fuel' template target ch
      else ret target
  end.

(** [new ObjectParser(lex, original).parse()].  The call [this.lex.skip()]
    after the closing brace is not awaited: it touches the cursor no sooner
    than the next microtask, so the hook and the checker see the cursor
    right behind the brace.  Here it is taken to be over when the caller
    next reads the cursor.  That is what the program does when the call
    has nothing to take: the character behind the brace is in the buffer
    and is no white space, or the brace ends the stream.  With white space
    or the end of a chunk behind the brace the call and the caller read the
    cursor in turns, which this sequential embedding does not follow;
    statements about what is parsed behind a closing brace are made for
    the sources where it cannot happen. *)
Definition ObjectParser_parse (original : ObjectSample) : M Value :=
  let template := match beforeParse original with
                  | Some t => t
                  | None => original
                  end in
  skipAndExpect "{" ;;;
  ch <- skipAndPeek ;;
  target <- (fun lex =>
    ObjectParser_loop (S (length (pending lex))) template (VObject []) ch lex) ;;
  skipAndExpect "}" ;;;
  let result := match afterParse original with
                | Some f => f target
                | None => target
                end in
  check original result ;;;
  skip ;;;
  ret result.

Fixpoint elements_loop (fuel : nat) (sample : Sample) : G unit :=
  match fuel with
  | O => fun _ => ([], Diverge)
  | S fuel' =>
      gbind (lift skipAndPeek) (fun ch =>
      if char_eqb ch "]" then gret tt
      else
        gbind (yield (dispatch sample)) (fun _ =>
        gbind (lift skipAndPeek) (fun delim =>
        if char_eqb delim "," then
          gbind (lift nextChar) (fun _ => elements_loop fuel' sample)
        else if negb (char_eqb delim "]") then
          lift (error (str "Expected , or ] but got: " ++ char_or_EOF delim))
        else elements_loop fuel' sample)))
  end.

Definition Lex_elements (sample : Sample) : G unit :=
  gbind (lift (skipAndExpect "[")) (fun _ =>
  gbind (fun lex => elements_loop (S (length (pending lex))) sample lex)
    (fun _ => lift (expect (str "]")))).

End Parsers.

(** The cursor's [object] and [elements] with [fuel] nested calls through
    the registry left. *)
Fixpoint Lex_api (fuel : nat) (registry : list Type_) : Api :=
  match fuel with
  | O => mkApi (fun _ _ => Diverge) (fun _ _ => ([], Diverge))
  | S fuel' =>
      let dispatch := type_parse registry (Lex_api fuel' registry) in
      mkApi (ObjectParser_parse dispatch) (Lex_elements dispatch)
  end.

(** ** Entry points *)

(** The code points [TextEncoder] and the UTF-8 decoder carry over from a
    string: a surrogate pair is one character, a lone surrogate U+FFFD. *)
Fixpoint code_points (s : jsstring) : list N :=
  match s with
  | [] => []
  | u :: rest =>
      if (55296 <=? u) && (u <=? 56319) then
        match rest with
        | lo :: rest' =>
            if (56320 <=? lo) && (lo <=? 57343)
            then (65536 + (u - 55296) * 1024 + (lo - 56320)) :: code_points rest'
            else 65533 :: code_points rest
        | [] => [65533]
        end
      else if (56320 <=? u) && (u <=? 57343) then 65533 :: code_points rest
      else u :: code_points rest
  end.

Inductive Stream :=
| OfString (s : jsstring)
| OfReadable (decoded : list chunk).  (* the chunks the decoder will deliver *)

(** [toStream] and the decoder the [Lex] constructor pipes it through: a
    string is one chunk of bytes, decoded as UTF-8 with the byte order mark
    dropped. *)
Definition toStream (stream : Stream) : list chunk :=
  match stream with
  | OfReadable s => s
  | OfString s =>
      match code_points s with
      | 65279 :: c :: rest => [(c, rest)]
      | [65279] => []
      | c :: rest => [(c, rest)]
      | [] => []
      end
  end.

(** A settled promise (or one that never settles). *)
Inductive Promise (A : Type) :=
| Fulfilled (a : A)
| Rejected (e : JsError)
| Unsettled.

Arguments Fulfilled {A} a.
Arguments Rejected {A} e.
Arguments Unsettled {A}.

Definition settle {A} (o : Outcome A) : Promise A :=
  match o with
  | Return a _ => Fulfilled a
  | Throw e => Rejected e
  | Diverge => Unsettled
  end.

(** Nested calls through the registry each take a bracket or a brace off
    the input first, so its length bounds them. *)
Definition depth (lex : Lex.t) : nat := S (length (pending lex)).

Definition parse_on (registry : list Type_) (sample : Sample) : M Value :=
  fun lex =>
   (result <- type_parse registry (Lex_api (depth lex) registry) sample ;;
    skip ;;;
    ch <- peek ;;
    match ch with
    | Some _ => error (str "Expected one JSON element, got extra data.")
    | None => ret result
    end) lex.

Definition parse (registry : list Type_) (sample : Sample)
  (streamParam : Stream) : Promise Value :=
  settle (parse_on registry sample (Lex.new (toStream streamParam))).

(** An async generator object, drained: what [for await] sees, then the
    value it returns. *)
Record AsyncGenerator (R : Type) := mkGenerator {
  yielded : list Value;
  returned : Promise R
}.

Arguments mkGenerator {R} yielded returned.
Arguments yielded {R} a.
Arguments returned {R} a.

Definition drain {A} (g : G A) (lex : Lex.t) : AsyncGenerator A :=
  mkGenerator (fst (g lex)) (settle (snd (g lex))).

(** The exported [elements]: an async generator whose body is the single
    statement [return lex.elements(elementSample)].  The operand of [return]
    is awaited; a generator object is no thenable, so it is the return
    value as it stands, and nothing is yielded. *)
Definition elements (registry : list Type_) (elementSample : Sample)
  (streamParam : Stream) : AsyncGenerator (AsyncGenerator unit) :=
  let lex := Lex.new (toStream streamParam) in
  mkGenerator []
    (Fulfilled (drain (api_elements (Lex_api (depth lex) registry) elementSample) lex)).

(** ** Values used in the statements *)

Definition no_dates : jsstring -> option Z := fun _ => None.

(** The number a non-negative integer literal denotes. *)
Definition num (n : N) : Value :=
  let (c, e) := strip_tens (N.to_nat (N.size n)) n 0 in
  VNumber (mkNumber false c e).

Definition quoted (s : string) : jsstring := [34] ++ str s ++ [34].

(** ** Notions the statements use *)

(** Ascending order of the registry. *)
Definition by_priority (a b : Type_) : Prop := (priority a <= priority b)%Z.

(** A custom handler in the manner of the test suite's: priority 500, a
    number token wrapped in an object; it accepts boolean samples too. *)
Definition usdType : Type_ :=
  mkType 500
    (fun sample => match sample with SBoolean | SObject _ => true | _ => false end)
    (fun _ _ => n <- numberLiteral ;; ret (VObject [(str "cents", VNumber n)])).

(** The sample [{s:""}] of the test suite. *)
Definition sample_s : Sample :=
  SObject (mkObject [(str "s", SString)] None None).

(** *** The document grammar, lexically

    What the statements about whole inputs need of the grammar: white
    space, the structural characters, bare words (the text of numbers and
    booleans), string tokens, and the nesting of arrays and objects. *)

Definition white (c : N) : bool := isWhite (Some c).

Definition structural (c : N) : bool :=
  existsb (N.eqb c) [34; 44; 58; 91; 93; 123; 125].

Definition bare (c : N) : bool := negb (white c) && negb (structural c).

Fixpoint skip_ws (l : list N) : list N :=
  match l with
  | c :: r => if white c then skip_ws r else l
  | [] => []
  end.

Definition ws (l : list N) : Prop := Forall (fun c => white c = true) l.

(** The text between the quotes of a string token. *)
Inductive string_body : list N -> Prop :=
| body_end : string_body []
| body_plain c s :
    c <> 34 -> c <> 92 -> string_body s -> string_body (c :: s)
| body_escape c s :
    string_body s -> string_body (92 :: c :: s).

Definition string_token (body : list N) : list N := 34 :: body ++ [34].

Definition digit (c : N) : bool := isDigit (Some c).

Fixpoint leading_digits (l : list N) : list N :=
  match l with
  | c :: r => if digit c then c :: leading_digits r else []
  | [] => []
  end.

Fixpoint after_digits (l : list N) : list N :=
  match l with
  | c :: r => if digit c then after_digits r else l
  | [] => []
  end.

(** What may follow a bare word: nothing, white space or a structural
    character. *)
Definition boundary (r : list N) : Prop :=
  match r with
  | [] => True
  | c :: _ => bare c = false
  end.

(** The same, white space excluded: where a token starts that is no word. *)
Definition hard (r : list N) : Prop :=
  match r with
  | [] => True
  | c :: _ => structural c = true
  end.

Definition all_bare (w : list N) : Prop := Forall (fun c => bare c = true) w.

(** [Doc a b]: [a] is a document (a word, a string token, an array or an
    object of documents) and [b] is [a] with a comma put in before the
    closing bracket or brace of any number of its non-empty arrays and
    objects, at any depth.  [Items] and [Members] are the texts between
    the brackets and between the braces, from the first item on. *)
Inductive Doc : list N -> list N -> Prop :=
| Doc_word w :
    w <> [] -> all_bare w -> Doc w w
| Doc_string body :
    string_body body -> Doc (string_token body) (string_token body)
| Doc_array_empty w0 :
    ws w0 -> Doc (91 :: w0 ++ [93]) (91 :: w0 ++ [93])
| Doc_array w0 a b :
    ws w0 -> Items a b -> Doc (91 :: w0 ++ a ++ [93]) (91 :: w0 ++ b ++ [93])
| Doc_object_empty w0 :
    ws w0 -> Doc (123 :: w0 ++ [125]) (123 :: w0 ++ [125])
| Doc_object w0 a b :
    ws w0 -> Members a b ->
    Doc (123 :: w0 ++ a ++ [125]) (123 :: w0 ++ b ++ [125])
with Items : list N -> list N -> Prop :=
| Items_last a b w1 :
    Doc a b -> ws w1 -> Items (a ++ w1) (b ++ w1)
| Items_trailing a b w1 w2 :
    Doc a b -> ws w1 -> ws w2 ->
    Items (a ++ w1 ++ w2) (b ++ w1 ++ 44 :: w2)
| Items_more a b w1 w2 ra rb :
    Doc a b -> ws w1 -> ws w2 -> Items ra rb ->
    Items (a ++ w1 ++ 44 :: w2 ++ ra) (b ++ w1 ++ 44 :: w2 ++ rb)
with Members : list N -> list N -> Prop :=
| Members_last k w1 w2 a b w3 :
    string_body k -> ws w1 -> ws w2 -> Doc a b -> ws w3 ->
    Members (string_token k ++ w1 ++ 58 :: w2 ++ a ++ w3)
            (string_token k ++ w1 ++ 58 :: w2 ++ b ++ w3)
| Members_trailing k w1 w2 a b w3 w4 :
    string_body k -> ws w1 -> ws w2 -> Doc a b -> ws w3 -> ws w4 ->
    Members (string_token k ++ w1 ++ 58 :: w2 ++ a ++ w3 ++ w4)
            (string_token k ++ w1 ++ 58 :: w2 ++ b ++ w3 ++ 44 :: w4)
| Members_more k w1 w2 a b w3 w4 ra rb :
    string_body k -> ws w1 -> ws w2 -> Doc a b -> ws w3 -> ws w4 ->
    Members ra rb ->
    Members (string_token k ++ w1 ++ 58 :: w2 ++ a ++ w3 ++ 44 :: w4 ++ ra)
            (string_token k ++ w1 ++ 58 :: w2 ++ b ++ w3 ++ 44 :: w4 ++ rb).

Scheme Doc_mut := Minimality for Doc Sort Prop
  with Items_mut := Minimality for Items Sort Prop
  with Members_mut := Minimality for Members Sort Prop.

Combined Scheme Doc_Items_Members_ind from Doc_mut, Items_mut, Members_mut.

(** A cursor left inside a word. *)
Definition stuck (l : list N) : Prop :=
  match l with
  | c :: _ => bare c = true
  | [] => False
  end.

(** The first character of the token a sample's handler reads. *)
Definition starts (sample : Sample) (c : N) : Prop :=
  match sample with
  | SBoolean | SNumber => bare c = true
  | SDate | SString => c = 34
  | SArray _ => c = 91
  | SObject _ | SObjectPrototype => c = 123
  | _ => False
  end.

(** The end of one turn of each loop, from the value just read to the next
    turn, named for the lemmas that follow the loops turn by turn. *)
Definition elements_delim (dispatch : Sample -> M Value) (fuel : nat)
  (sample : Sample) : G unit :=
  gbind (lift skipAndPeek) (fun delim =>
  if char_eqb delim "," then
    gbind (lift nextChar) (fun _ => elements_loop dispatch fuel sample)
  else if negb (char_eqb delim "]") then
    lift (error (str "Expected , or ] but got: " ++ char_or_EOF delim))
  else elements_loop dispatch fuel sample).

Definition object_delim (dispatch : Sample -> M Value) (fuel : nat)
  (template : ObjectSample) (target : Value) : M Value :=
  ch <- skipAndPeek ;;
  if char_eqb ch "," then
    nextChar ;;;
    ch <- skipAndPeek ;;
    ObjectParser_loop dispatch fuel template target ch
  else if negb (char_eqb ch "}") then
    error (str "Expected , or } but got: " ++ char_or_EOF ch)
  else ObjectParser_loop dispatch fuel template target ch.

(** The characters a source delivers to the cursor, chunk after chunk. *)
Definition text_of (source : Stream) : list N :=
  concat (map chunk_chars (toStream source)).

(** *** Sources on which the call left without [await] has nothing to do

    [ObjectParser.parse] calls [this.lex.skip()] behind the closing brace
    and does not wait for it.  When the character behind the brace is in
    the same chunk and is no white space, that call reads it and ends;
    when the brace ends the last chunk, it finds the end of the stream, as
    the caller will.  In both cases it changes nothing the caller sees.
    On any other source it takes characters, or a chunk, while the caller
    reads on, and the outcome is not what the steps taken one after the
    other give. *)
Fixpoint quiet_chars (chars : list N) (last : bool) : bool :=
  match chars with
  | [] => true
  | c :: rest =>
      (if c =? 125 then
         match rest with
         | [] => last
         | d :: _ => negb (white d)
         end
       else true)
      && quiet_chars rest last
  end.

Fixpoint quiet_chunks (stream : list chunk) : bool :=
  match stream with
  | [] => true
  | value :: rest =>
      quiet_chars (chunk_chars value) (match rest with [] => true | _ => false end)
      && quiet_chunks rest
  end.

(** No closing brace of [source] is followed by white space or by the end
    of a chunk that is not the last. *)
Definition quiet (source : Stream) : bool := quiet_chunks (toStream source).

(** *** Two runs side by side

    The notions in which the statement about trailing commas is carried
    through the parser. *)

(** A test on the character ahead that only a bare character passes comes
    out the same whatever follows the word. *)
Definition bare_test (p : char -> bool) : Prop :=
  p None = false /\ forall c, p (Some c) = true -> bare c = true.

(** Two cursors whose pending texts share the bare word [w] and go on with
    [rA] and [rB]. *)
Definition aligned (rA rB w : list N) (A B : Lex.t) : Prop :=
  pending A = w ++ rA /\ pending B = w ++ rB /\ all_bare w.

(** From cursors aligned on [w], whenever [P] returns so does [Q], with the
    same value, the cursors aligned on a word that satisfies [post]. *)
Definition sim {X} (rA rB w : list N) (post : list N -> Prop) (P Q : M X)
  : Prop :=
  forall A B v A',
    aligned rA rB w A B -> P A = Return v A' ->
    exists w' B', Q B = Return v B' /\ aligned rA rB w' A' B' /\ post w'.

Definition at_most (n : nat) (w : list N) : Prop := (length w <= n)%nat.

(** The same from cursors with white space still ahead of the word. *)
Definition simws {X} (rA rB w : list N) (post : list N -> Prop) (P Q : M X)
  : Prop :=
  forall w0 A B v A',
    ws w0 -> all_bare w ->
    pending A = w0 ++ w ++ rA -> pending B = w0 ++ w ++ rB ->
    P A = Return v A' ->
    exists w' B', Q B = Return v B' /\ aligned rA rB w' A' B' /\ post w'.

(** The registry lookup and handler call of the built-in registry with
    [fuel] nested calls left. *)
Definition dispatch (D : jsstring -> option Z) (fuel : nat)
  : Sample -> M Value :=
  type_parse (types D) (Lex_api fuel (types D)).

(** What a run of a handler over the document [a] carries over to [b]. *)
Definition doc_sim (D : jsstring -> option Z) (a b : list N) : Prop :=
  forall fuelA fuelB sample w0 lexA lexB rA rB v lexA',
    (fuelA <= fuelB)%nat -> ws w0 -> boundary rA -> boundary rB ->
    pending lexA = w0 ++ a ++ rA -> pending lexB = w0 ++ b ++ rB ->
    dispatch D fuelA sample lexA = Return v lexA' ->
    exists lexB',
      dispatch D fuelB sample lexB = Return v lexB'
      /\ (stuck (pending lexA')
          \/ (skip_ws (pending lexA') = skip_ws rA
              /\ skip_ws (pending lexB') = skip_ws rB)).

Definition items_sim (D : jsstring -> option Z) (a b : list N) : Prop :=
  forall fuelA fuelB nA nB sample w0 lexA lexB rA rB ys lexA',
    (fuelA <= fuelB)%nat -> (length b < nB)%nat -> ws w0 ->
    pending lexA = w0 ++ a ++ 93 :: rA -> pending lexB = w0 ++ b ++ 93 :: rB ->
    elements_loop (dispatch D fuelA) nA sample lexA = (ys, Return tt lexA') ->
    exists lexB',
      elements_loop (dispatch D fuelB) nB sample lexB = (ys, Return tt lexB')
      /\ pending lexA' = 93 :: rA /\ pending lexB' = 93 :: rB.

Definition members_sim (D : jsstring -> option Z) (a b : list N) : Prop :=
  forall fuelA fuelB nA nB template target lexA lexB rA rB t lexA',
    (fuelA <= fuelB)%nat -> (length b < nB)%nat ->
    pending lexA = a ++ 125 :: rA -> pending lexB = b ++ 125 :: rB ->
    ObjectParser_loop (dispatch D fuelA) nA template target (Some 34) lexA
    = Return t lexA' ->
    exists lexB',
      ObjectParser_loop (dispatch D fuelB) nB template target (Some 34) lexB
      = Return t lexB'
      /\ pending lexA' = 125 :: rA /\ pending lexB' = 125 :: rB.

(** ** Notions for the further properties

    Positions, registries after a run of registrations, writers of tokens
    and the two invariants carried through the parser: independence of
    the chunking and termination. *)


(** *** Positions *)

(** [(lineNo, charNo)] of a cursor. *)
Definition position (lex : Lex.t) : N * N := (Lex.lineNo lex, Lex.charNo lex).

(** The position behind one more character, and behind a text. *)
Definition advance_char (p : N * N) (c : N) : N * N :=
  if c =? 10 then (fst p + 1, 1) else (fst p, snd p + 1).

Definition advance_pos (p : N * N) (text : list N) : N * N :=
  fold_left advance_char text p.

(** The white space a text starts with. *)
Fixpoint white_prefix (l : list N) : list N :=
  match l with
  | c :: r => if white c then c :: white_prefix r else []
  | [] => []
  end.

(** The error [lex.error(msg)] builds at a position. *)
Definition error_pos (p : N * N) (msg : jsstring) : JsError :=
  SyntaxError (str "(Line:" ++ decimal (fst p) ++ str ", character:"
               ++ decimal (snd p) ++ str "): " ++ msg).

(** The registry after a run of [addType] calls on the built-in one. *)
Definition registered (D : jsstring -> option Z) (added : list Type_)
  : list Type_ :=
  fold_left (fun registry type => addType type registry) added (types D).

(** A failure raised through [lex.error]: a SyntaxError whose message
    starts with the line and character of the cursor. *)
Definition positioned {A} (o : Outcome A) : Prop :=
  exists p msg, o = Throw (error_pos p msg).

(** The shape of the text [numberLiteral] hands to JSON.parse. *)
Definition digits1 (d : list N) : Prop :=
  d <> [] /\ Forall (fun c => digit c = true) d.

Definition fraction_text (fr : list N) : Prop :=
  fr = [] \/ exists d, fr = 46 :: d /\ digits1 d.

Definition exponent_text (ex : list N) : Prop :=
  ex = []
  \/ exists e s d, ex = e :: s ++ d /\ (e = 101 \/ e = 69)
                   /\ (s = [] \/ s = [43] \/ s = [45]) /\ digits1 d.

(** A writer of string tokens that escapes the quotation mark and the
    backslash and nothing else, and the UTF-16 text of a run of
    characters. *)
Definition escape_char (c : N) : list N :=
  if c =? 34 then [92; 34] else if c =? 92 then [92; 92] else [c].

Definition write_string (s : list N) : list N :=
  34 :: flat_map escape_char s ++ [34].

Definition units (s : list N) : jsstring := flat_map utf16 s.

(** Samples the built-in registry reads without [lex.object]. *)
Fixpoint object_free (sample : Sample) : bool :=
  match sample with
  | SObject _ | SObjectPrototype => false
  | SArray (element :: _) => object_free element
  | _ => true
  end.

(** Two cursors that differ in how their input was cut into chunks only. *)
Definition same (l1 l2 : Lex.t) : Prop :=
  Lex.eof l1 = Lex.eof l2 /\ pending l1 = pending l2
  /\ position l1 = position l2.

Definition same_outcome {A} (o1 o2 : Outcome A) : Prop :=
  match o1, o2 with
  | Return a l1, Return b l2 => a = b /\ same l1 l2
  | Throw e1, Throw e2 => e1 = e2
  | Diverge, Diverge => True
  | _, _ => False
  end.

Definition respects {A} (m : M A) : Prop :=
  forall l1 l2, same l1 l2 -> same_outcome (m l1) (m l2).

Definition respectsG {A} (g : G A) : Prop :=
  forall l1 l2, same l1 l2 ->
    fst (g l1) = fst (g l2) /\ same_outcome (snd (g l1)) (snd (g l2)).

(** The names [in] finds on every plain object. *)
Definition inherited_names : list jsstring :=
  str "__proto__" :: Object_prototype_methods.

(** Item texts with a comma between them. *)
Fixpoint join_items (items : list (list N)) : list N :=
  match items with
  | [] => []
  | a :: rest =>
      match rest with
      | [] => a
      | _ :: _ => a ++ 44 :: join_items rest
      end
  end.

Definition write_array (items : list (list N)) : list N :=
  91 :: join_items items ++ [93].

(** An outcome that is no exhausted recursion bound and leaves at most [b]
    characters unread; an operation that, run on [lex], ends and does not
    move the cursor backwards. *)
Definition bounded {A} (o : Outcome A) (b : nat) : Prop :=
  match o with
  | Return _ lex' => (length (pending lex') <= b)%nat
  | Throw _ => True
  | Diverge => False
  end.

Definition within {A} (m : M A) (lex : Lex.t) : Prop :=
  bounded (m lex) (length (pending lex)).

Definition settles {A} (m : M A) : Prop := forall lex, within m lex.

(** * Properties *)

(** ** Strings *)

Lemma jsstring_eqb_eq a b : jsstring_eqb a b = true <-> a = b.
Proof.
  unfold jsstring_eqb. destruct (list_eq_dec N.eq_dec a b); split; congruence.
Qed.

Lemma jsstring_eqb_refl a : jsstring_eqb a a = true.
Proof. now apply jsstring_eqb_eq. Qed.


(** ** The registry *)


Lemma insert_type_In x l h :
  In h (insert_type x l) <-> h = x \/ In h l.
Proof.
  induction l as [|y l IH]; simpl.
  - intuition.
  - destruct (priority x <? priority y)%Z; simpl; rewrite ?IH; intuition.
Qed.

Lemma insert_type_sorted x l :
  StronglySorted by_priority l -> StronglySorted by_priority (insert_type x l).
Proof.
  induction 1 as [|y l Hs IH Hall]; simpl.
  - repeat constructor.
  - destruct (priority x <? priority y)%Z eqn:E.
    + apply Z.ltb_lt in E. constructor.
      * now constructor.
      * constructor; [unfold by_priority; lia|].
        eapply Forall_impl; [|exact Hall]. unfold by_priority. intros; lia.
    + apply Z.ltb_ge in E. constructor; [exact IH|].
      apply Forall_forall. intros h Hh. apply insert_type_In in Hh.
      destruct Hh as [->|Hh]; [exact E|].
      rewrite Forall_forall in Hall. now apply Hall.
Qed.

Lemma fold_insert_sorted l : forall acc,
  StronglySorted by_priority acc ->
  StronglySorted by_priority (fold_left (fun s x => insert_type x s) l acc).
Proof.
  induction l as [|x l IH]; simpl; intros acc H; [exact H|].
  apply IH. now apply insert_type_sorted.
Qed.

Lemma fold_insert_In l : forall acc h,
  In h (fold_left (fun s x => insert_type x s) l acc) <-> In h acc \/ In h l.
Proof.
  induction l as [|x l IH]; simpl; intros acc h; [intuition|].
  rewrite IH, insert_type_In. intuition.
Qed.

Lemma sort_types_sorted l : StronglySorted by_priority (sort_types l).
Proof. apply fold_insert_sorted. constructor. Qed.

Lemma addType_In type registry h :
  In h (addType type registry) <-> h = type \/ In h registry.
Proof.
  unfold addType, sort_types. rewrite fold_insert_In, in_app_iff. simpl.
  intuition.
Qed.

Lemma find_sorted_lowest (p : Type_ -> bool) l :
  StronglySorted by_priority l ->
  forall h, find p l = Some h ->
  p h = true /\ forall h', In h' l -> p h' = true -> (priority h <= priority h')%Z.
Proof.
  induction 1 as [|y l Hs IH Hall]; simpl; intros h Hf; [discriminate|].
  destruct (p y) eqn:E.
  - injection Hf as <-. split; [exact E|].
    intros h' [<-|Hin] _; [lia|]. rewrite Forall_forall in Hall. now apply Hall.
  - destruct (IH h Hf) as [Hp Hmin]. split; [exact Hp|].
    intros h' [<-|Hin] Hp'; [congruence|]. now apply Hmin.
Qed.

Lemma types_sorted D : StronglySorted by_priority (types D).
Proof.
  unfold types. repeat constructor; unfold by_priority; simpl; lia.
Qed.

Lemma find_sorted_finds (p : Type_ -> bool) l h' :
  In h' l -> p h' = true -> exists h, find p l = Some h.
Proof.
  intros Hin Hp. destruct (find p l) as [h|] eqn:E; [eauto|].
  pose proof (find_none _ _ E h' Hin). congruence.
Qed.

(** C3: the lookup selects a handler of lowest priority among those whose
    predicate accepts the sample.  In the built-in registry it always finds
    one, a built-in handler of lowest priority among the accepting ones.
    After [addType] has added [custom] to a registry, whenever [custom] or
    a handler of that registry accepts the sample the lookup finds one of
    them, and none of them that accepts the sample has a lower priority;
    so no handler is lost and none is passed over.  A custom handler whose
    priority is below that of every other handler accepting the sample,
    in particular one below the boolean handler's added to the built-in
    registry, is the one found, and the one whose [parse] runs. *)
Theorem lookup_lowest_priority (D : jsstring -> option Z)
  (registry : list Type_) (custom : Type_) (sample : Sample) :
  let accepts := fun x => isValid x sample in
  let lowest := fun (member : Type_ -> Prop) h =>
    member h /\ accepts h = true /\
    forall h', member h' -> accepts h' = true ->
      (priority h <= priority h')%Z in
  (exists h, find accepts (types D) = Some h
             /\ lowest (fun x => In x (types D)) h)
  /\ ((exists h', (h' = custom \/ In h' registry) /\ accepts h' = true) ->
      exists h, find accepts (addType custom registry) = Some h
                /\ lowest (fun x => x = custom \/ In x registry) h)
  /\ (exists h, find accepts (addType custom (types D)) = Some h
                /\ lowest (fun x => x = custom \/ In x (types D)) h)
  /\ (accepts custom = true ->
      (forall b, In b registry -> accepts b = true ->
         (priority custom < priority b)%Z) ->
      find accepts (addType custom registry) = Some custom
      /\ forall lex, type_parse (addType custom registry) lex sample
                     = parse_ custom lex sample)
  /\ (accepts custom = true ->
      (priority custom < priority boolean_type)%Z ->
      forall lex, type_parse (addType custom (types D)) lex sample
                  = parse_ custom lex sample).
Proof.
  intros accepts lowest.
  assert (Hwin : forall reg,
    accepts custom = true ->
    (forall b, In b reg -> accepts b = true ->
       (priority custom < priority b)%Z) ->
    find accepts (addType custom reg) = Some custom).
  { intros reg Hc Hlow.
    destruct (find accepts (addType custom reg)) as [h|] eqn:E.
    - destruct (find_sorted_lowest accepts _ (sort_types_sorted _) h E)
        as [Hp Hmin].
      assert (Hin : In h (addType custom reg))
        by (apply find_some in E; tauto).
      apply addType_In in Hin. destruct Hin as [->|Hin]; [reflexivity|].
      specialize (Hlow h Hin Hp).
      specialize (Hmin custom (proj2 (addType_In _ _ _) (or_introl eq_refl)) Hc).
      lia.
    - pose proof (find_none _ _ E custom
                    (proj2 (addType_In _ _ _) (or_introl eq_refl))) as Hn.
      unfold accepts in *. congruence. }
  assert (Hadd : forall reg,
    (exists h', (h' = custom \/ In h' reg) /\ accepts h' = true) ->
    exists h, find accepts (addType custom reg) = Some h
              /\ lowest (fun x => x = custom \/ In x reg) h).
  { intros reg (h' & Hin' & Hp').
    destruct (find_sorted_finds accepts (addType custom reg) h') as (h & E);
      [now apply addType_In|exact Hp'|].
    exists h. split; [exact E|].
    destruct (find_sorted_lowest accepts _ (sort_types_sorted _) h E)
      as [Hp Hmin].
    split; [apply addType_In; apply find_some in E; tauto|].
    split; [exact Hp|].
    intros x Hx. apply Hmin. now apply addType_In. }
  split; [|split; [|split; [|split]]].
  - destruct (find_sorted_finds accepts (types D) (other_type)) as (h & E);
      [simpl; tauto|reflexivity|].
    exists h. split; [exact E|].
    destruct (find_sorted_lowest accepts _ (types_sorted D) h E) as [Hp Hmin].
    split; [apply find_some in E; tauto|]. split; assumption.
  - apply Hadd.
  - apply Hadd. exists other_type. split; [right; simpl; tauto|reflexivity].
  - intros Hc Hlow. split; [now apply Hwin|].
    intros lex. unfold type_parse. fold accepts. now rewrite Hwin.
  - intros Hc Hlow lex. unfold type_parse. fold accepts.
    rewrite Hwin; auto.
    intros b Hin _. simpl in Hin, Hlow.
    repeat (destruct Hin as [<-|Hin]; [simpl; lia|]). contradiction.
Qed.

Lemma lookup_lowest_priority_witness :
  find (fun x => isValid x SBoolean) (addType usdType (types no_dates)) = Some usdType
  /\ parse (addType usdType (types no_dates)) SBoolean (OfString (str "1000"))
     = Fulfilled (VObject [(str "cents", num 1000)]).
Proof.
  split.
  - apply (lookup_lowest_priority no_dates (types no_dates) usdType SBoolean).
    + reflexivity.
    + intros b Hin _. simpl in Hin.
      repeat (destruct Hin as [<-|Hin]; [simpl; lia|]). contradiction.
  - vm_compute. reflexivity.
Defined.

(** ** The cursor seen through its pending characters *)

Lemma nth_error_skipn {A} (l : list A) : forall i,
  nth_error l i = hd_error (skipn i l).
Proof.
  induction l as [|x l IH]; intros [|i]; simpl; auto.
Qed.

Lemma skipn_S_tl {A} (l : list A) : forall i,
  skipn (S i) l = tl (skipn i l).
Proof.
  induction l as [|x l IH]; intros [|i]; try reflexivity.
  change (skipn (S i) l = tl (skipn i l)). apply IH.
Qed.

Lemma peek_spec lex :
  exists lex',
    peek lex = Return (hd_error (pending lex)) lex'
    /\ pending lex' = pending lex
    /\ (Lex.eof lex' = true <-> pending lex = []).
Proof.
  destruct lex as [rd cs ix e ln cn]. unfold peek, pending; simpl.
  destruct e; simpl.
  - eexists; split; [reflexivity|]. simpl. intuition.
  - destruct (length cs <=? ix)%nat eqn:E.
    + apply Nat.leb_le in E. rewrite (skipn_all2 cs E). simpl.
      destruct rd as [|[c r] rest]; simpl.
      * eexists; split; [reflexivity|]. simpl. intuition.
      * eexists; split; [reflexivity|]. simpl. intuition discriminate.
    + apply Nat.leb_gt in E. exists (Lex.mk rd cs ix false ln cn). simpl.
      rewrite nth_error_skipn.
      destruct (skipn ix cs) eqn:S.
      { apply (f_equal (@length _)) in S. rewrite length_skipn in S.
        simpl in S. lia. }
      simpl. intuition discriminate.
Qed.

Lemma nextChar_cons lex c r :
  pending lex = c :: r ->
  exists lex',
    nextChar lex = Return (Some c) lex'
    /\ pending lex' = r /\ Lex.eof lex' = false.
Proof.
  intros H. unfold nextChar, bind.
  destruct lex as [rd cs ix e ln cn]. unfold peek, pending in *; simpl in *.
  destruct e; [discriminate|].
  destruct (length cs <=? ix)%nat eqn:E.
  - apply Nat.leb_le in E. rewrite (skipn_all2 cs E) in H. simpl in H.
    destruct rd as [|[c' r'] rest]; simpl in H; [discriminate|].
    injection H as -> <-. simpl. eexists; split; [reflexivity|].
    simpl. auto.
  - rewrite nth_error_skipn.
    destruct (skipn ix cs) as [|c' t] eqn:Hs; simpl in H.
    + apply Nat.leb_gt in E.
      apply (f_equal (@length _)) in Hs. rewrite length_skipn in Hs.
      simpl in Hs. lia.
    + injection H as -> <-. simpl. eexists; split; [reflexivity|].
      simpl. split; [|reflexivity].
      change (skipn (S ix) cs ++ concat (map chunk_chars rd)
              = t ++ concat (map chunk_chars rd)).
      rewrite skipn_S_tl, Hs. reflexivity.
Qed.

Lemma nextChar_nil lex :
  pending lex = [] ->
  exists lex',
    nextChar lex = Return None lex'
    /\ pending lex' = [] /\ Lex.eof lex' = true.
Proof.
  intros H. unfold nextChar, bind.
  destruct (peek_spec lex) as (lex' & Hp & Hq & He).
  rewrite Hp, H. simpl. exists lex'. unfold ret. repeat split.
  - congruence.
  - now apply He.
Qed.

Lemma bind_Return {A B} (m : M A) (f : A -> M B) lex a lex' :
  m lex = Return a lex' -> bind m f lex = f a lex'.
Proof. unfold bind. now intros ->. Qed.

Lemma bind_inv {A B} (m : M A) (f : A -> M B) lex b lex2 :
  bind m f lex = Return b lex2 ->
  exists a lex1, m lex = Return a lex1 /\ f a lex1 = Return b lex2.
Proof.
  unfold bind. destruct (m lex) as [a lex1| |]; try discriminate. eauto.
Qed.

Lemma skip_ws_white c r : white c = true -> skip_ws (c :: r) = skip_ws r.
Proof. simpl. now intros ->. Qed.

Lemma skip_ws_stop c r : white c = false -> skip_ws (c :: r) = c :: r.
Proof. simpl. now intros ->. Qed.

Lemma skip_ws_app w r : ws w -> skip_ws (w ++ r) = skip_ws r.
Proof.
  induction 1 as [|c w Hc _ IH]; simpl; [reflexivity|]. now rewrite Hc.
Qed.

Lemma skip_ws_idem l : skip_ws (skip_ws l) = skip_ws l.
Proof.
  induction l as [|c r IH]; simpl; [reflexivity|].
  destruct (white c) eqn:E; [exact IH|]. simpl. now rewrite E.
Qed.

Lemma skip_loop_spec : forall n lex,
  (length (pending lex) < n)%nat ->
  exists lex',
    skip_loop n lex = Return tt lex' /\ pending lex' = skip_ws (pending lex).
Proof.
  induction n as [|n IH]; intros lex Hn; [lia|]. simpl.
  destruct (peek_spec lex) as (lex1 & Hp & Hq & _).
  rewrite (bind_Return _ _ _ _ _ Hp).
  destruct (pending lex) as [|c r] eqn:E; simpl.
  - exists lex1. split; [reflexivity|]. congruence.
  - fold (white c). destruct (white c) eqn:W.
    + destruct (nextChar_cons lex1 c r Hq) as (lex2 & Hn2 & Hr & _).
      rewrite (bind_Return _ _ _ _ _ Hn2).
      destruct (IH lex2) as (lex3 & H3 & H4).
      { rewrite Hr. simpl in Hn. lia. }
      exists lex3. split; [exact H3|]. now rewrite H4, Hr.
    + exists lex1. split; [reflexivity|]. congruence.
Qed.

Lemma skip_spec lex :
  exists lex', skip lex = Return tt lex' /\ pending lex' = skip_ws (pending lex).
Proof. apply skip_loop_spec. lia. Qed.

Lemma skipAndPeek_spec lex :
  exists lex',
    skipAndPeek lex = Return (hd_error (skip_ws (pending lex))) lex'
    /\ pending lex' = skip_ws (pending lex).
Proof.
  unfold skipAndPeek.
  destruct (skip_spec lex) as (lex1 & H1 & P1).
  rewrite (bind_Return _ _ _ _ _ H1).
  destruct (peek_spec lex1) as (lex2 & H2 & P2 & _).
  exists lex2. rewrite H2, P1. split; [reflexivity|]. congruence.
Qed.

(** [skipAndExpect] succeeds exactly on its delimiter, which it takes. *)
Lemma skipAndExpect_inv delim lex lex' :
  skipAndExpect delim lex = Return tt lex' ->
  exists r, skip_ws (pending lex) = N_of_ascii delim :: r /\ pending lex' = r.
Proof.
  unfold skipAndExpect. intros H.
  destruct (skip_spec lex) as (lex1 & H1 & P1).
  rewrite (bind_Return _ _ _ _ _ H1) in H.
  destruct (skip_ws (pending lex)) as [|c r] eqn:E.
  - destruct (nextChar_nil lex1 P1) as (lex2 & H2 & _).
    rewrite (bind_Return _ _ _ _ _ H2) in H. simpl in H. discriminate.
  - destruct (nextChar_cons lex1 c r P1) as (lex2 & H2 & P2 & _).
    rewrite (bind_Return _ _ _ _ _ H2) in H. simpl in H.
    destruct (c =? N_of_ascii delim) eqn:C; [|discriminate].
    apply N.eqb_eq in C. subst c. injection H as <-. eauto.
Qed.

Lemma skipAndExpect_take delim lex r :
  skip_ws (pending lex) = N_of_ascii delim :: r ->
  exists lex', skipAndExpect delim lex = Return tt lex' /\ pending lex' = r.
Proof.
  unfold skipAndExpect. intros E.
  destruct (skip_spec lex) as (lex1 & H1 & P1).
  rewrite (bind_Return _ _ _ _ _ H1). rewrite E in P1.
  destruct (nextChar_cons lex1 _ r P1) as (lex2 & H2 & P2 & _).
  rewrite (bind_Return _ _ _ _ _ H2). simpl. rewrite N.eqb_refl.
  exists lex2. split; [reflexivity|exact P2].
Qed.

(** ** Number and boolean tokens *)

Lemma digit_utf16 c : digit c = true -> utf16 c = [c].
Proof.
  unfold digit, isDigit, utf16. destruct (c <? 65536) eqn:E; [reflexivity|].
  cbn [hd]. intros H. apply andb_prop in H. destruct H as [_ H].
  apply N.leb_le in H.
  generalize dependent ((c - 65536) / 1024). intros q Hq. lia.
Qed.

Lemma digit_bare c : digit c = true -> bare c = true.
Proof.
  unfold digit, isDigit, utf16. destruct (c <? 65536) eqn:E; cbn [hd].
  - intros H. apply andb_prop in H. destruct H as [H1 H2].
    apply N.leb_le in H1. apply N.leb_le in H2.
    unfold bare, white, isWhite, structural, char_eqb; simpl.
    repeat match goal with
    | |- context [c =? ?k] =>
        replace (c =? k) with false by (symmetry; apply N.eqb_neq; lia)
    end. reflexivity.
  - intros H. apply andb_prop in H. destruct H as [_ H].
    apply N.leb_le in H.
    generalize dependent ((c - 65536) / 1024). intros q Hq. lia.
Qed.

Lemma readDigits_loop_spec : forall n buf lex,
  (length (pending lex) < n)%nat ->
  exists lex',
    readDigits_loop n buf lex
    = Return (buf ++ leading_digits (pending lex)) lex'
    /\ pending lex' = after_digits (pending lex).
Proof.
  induction n as [|n IH]; intros buf lex Hn; [lia|]. cbn [readDigits_loop].
  destruct (peek_spec lex) as (lex1 & Hp & Hq & _).
  rewrite (bind_Return _ _ _ _ _ Hp).
  destruct (pending lex) as [|c r] eqn:E; cbn [hd_error leading_digits after_digits].
  - exists lex1. rewrite app_nil_r. split; [reflexivity|congruence].
  - fold (digit c). destruct (digit c) eqn:W.
    + destruct (nextChar_cons lex1 c r Hq) as (lex2 & Hn2 & Hr & _).
      rewrite (bind_Return _ _ _ _ _ Hn2).
      destruct (IH (buf ++ char_text (Some c)) lex2) as (lex3 & H3 & H4).
      { rewrite Hr. simpl in Hn. lia. }
      exists lex3. rewrite H3, H4, Hr. simpl. rewrite (digit_utf16 c W).
      rewrite <- app_assoc. split; reflexivity.
    + exists lex1. rewrite app_nil_r. split; [reflexivity|congruence].
Qed.

Lemma readDigits_spec lex :
  exists lex',
    readDigits lex = Return (leading_digits (pending lex)) lex'
    /\ pending lex' = after_digits (pending lex).
Proof. apply (readDigits_loop_spec _ []). lia. Qed.

Lemma leading_digits_app w r :
  boundary r -> leading_digits (w ++ r) = leading_digits w.
Proof.
  intros Hr. induction w as [|c w IH]; simpl.
  - destruct r as [|c r]; [reflexivity|]. simpl in *.
    destruct (digit c) eqn:E; [|reflexivity].
    apply digit_bare in E. congruence.
  - destruct (digit c); [now rewrite IH|reflexivity].
Qed.

Lemma after_digits_app w r :
  boundary r -> after_digits (w ++ r) = after_digits w ++ r.
Proof.
  intros Hr. induction w as [|c w IH]; simpl.
  - destruct r as [|c r]; [reflexivity|]. simpl in *.
    destruct (digit c) eqn:E; [|reflexivity].
    apply digit_bare in E. congruence.
  - destruct (digit c); [exact IH|reflexivity].
Qed.

Lemma after_digits_length w : (length (after_digits w) <= length w)%nat.
Proof.
  induction w as [|c w IH]; simpl; [lia|]. destruct (digit c); simpl; lia.
Qed.

Lemma after_digits_bare w :
  Forall (fun c => bare c = true) w ->
  Forall (fun c => bare c = true) (after_digits w).
Proof.
  induction 1 as [|c w Hc Hw IH]; simpl; [constructor|].
  destruct (digit c); [exact IH|now constructor].
Qed.

Lemma leading_digits_nonempty w :
  leading_digits w <> [] -> (length (after_digits w) < length w)%nat.
Proof.
  destruct w as [|c w]; simpl; [congruence|].
  destruct (digit c); [|congruence]. intros _.
  pose proof (after_digits_length w). lia.
Qed.


Lemma bare_not_white c : bare c = true -> white c = false.
Proof.
  unfold bare. intros H. apply andb_prop in H. destruct H as [H _].
  now apply negb_true_iff in H.
Qed.

Lemma structural_not_white c : structural c = true -> white c = false.
Proof.
  unfold structural, white, isWhite, char_eqb. simpl.
  intros H. repeat (apply orb_prop in H; destruct H as [H|H]);
    try discriminate; apply N.eqb_eq in H; subst; reflexivity.
Qed.

Lemma structural_not_bare c : structural c = true -> bare c = false.
Proof. unfold bare. intros ->. apply andb_false_r. Qed.

Lemma skip_ws_word w r :
  all_bare w -> (w = [] -> hard r) -> skip_ws (w ++ r) = w ++ r.
Proof.
  intros Hw Hr. destruct Hw as [|c w Hc _]; simpl.
  - specialize (Hr eq_refl). destruct r as [|c r]; [reflexivity|].
    simpl in *. now rewrite (structural_not_white c Hr).
  - now rewrite (bare_not_white c Hc).
Qed.


Lemma bare_test_boundary p r :
  bare_test p -> boundary r -> p (hd_error r) = false.
Proof.
  intros [Hn Hc] Hr. destruct r as [|c r]; simpl in *; [exact Hn|].
  destruct (p (Some c)) eqn:E; [|reflexivity].
  apply Hc in E. congruence.
Qed.

Lemma bare_test_agree p w rA rB :
  bare_test p -> boundary rA -> boundary rB ->
  p (hd_error (w ++ rB)) = p (hd_error (w ++ rA)).
Proof.
  intros Hp HA HB. destruct w as [|c w]; simpl; [|reflexivity].
  now rewrite !bare_test_boundary.
Qed.

Lemma bare_test_true p w r :
  bare_test p -> boundary r -> p (hd_error (w ++ r)) = true ->
  exists c w', w = c :: w'.
Proof.
  intros Hp Hr H. destruct w as [|c w]; [|eauto].
  simpl in H. rewrite bare_test_boundary in H; congruence.
Qed.

Lemma char_eqb_bare_test (a : ascii) :
  bare (N_of_ascii a) = true -> bare_test (fun ch => char_eqb ch a).
Proof.
  intros Ha. split; [reflexivity|]. simpl. intros c H.
  apply N.eqb_eq in H. now subst.
Qed.

Lemma isDigit_bare_test : bare_test isDigit.
Proof. split; [reflexivity|]. exact digit_bare. Qed.

Lemma orb_bare_test p q :
  bare_test p -> bare_test q -> bare_test (fun ch => p ch || q ch).
Proof.
  intros [Hp1 Hp2] [Hq1 Hq2]. split.
  - now rewrite Hp1, Hq1.
  - intros c H. apply orb_prop in H. destruct H; auto.
Qed.

Create HintDb bare.
#[local] Hint Resolve isDigit_bare_test orb_bare_test : bare.
#[local] Hint Extern 1 (bare_test (fun ch => char_eqb ch _)) =>
  (apply char_eqb_bare_test; reflexivity) : bare.

(** ** Two runs over a common word

    The programs that read numbers and booleans look one character ahead
    and never take a character they have not tested.  Run on two cursors
    whose pending texts share a bare word [w] and differ behind it, they
    take the same steps as long as both texts go on with a boundary. *)

Section Word.

Variables rA rB : list N.
Hypothesis HrA : boundary rA.
Hypothesis HrB : boundary rB.

Lemma sim_ret {X} w (post : list N -> Prop) (x : X) :
  post w -> sim rA rB w post (ret x) (ret x).
Proof.
  intros Hm A B v A' Hal H. injection H as <- <-. exists w, B.
  split; [reflexivity|]. split; [exact Hal|exact Hm].
Qed.

Lemma sim_fail {X} w post (P Q : M X) :
  (forall A, match P A with Return _ _ => False | _ => True end) ->
  sim rA rB w post P Q.
Proof. intros HP A B v A' _ H. specialize (HP A). now rewrite H in HP. Qed.

Lemma sim_error {X} w post msg (Q : M X) : sim rA rB w post (error msg) Q.
Proof. apply sim_fail. intros A. exact I. Qed.

Lemma sim_throw {X} w post e (Q : M X) : sim rA rB w post (throw e) Q.
Proof. apply sim_fail. intros A. exact I. Qed.

Lemma sim_bind {X Y} w post1 post (P Q : M X) (f g : X -> M Y) :
  sim rA rB w post1 P Q ->
  (forall v w', post1 w' -> sim rA rB w' post (f v) (g v)) ->
  sim rA rB w post (bind P f) (bind Q g).
Proof.
  intros HP Hf A B y A' Hal H.
  apply bind_inv in H. destruct H as (x & A1 & H1 & H2).
  destruct (HP A B x A1 Hal H1) as (w1 & B1 & HQ & Hal1 & L1).
  destruct (Hf x w1 L1 A1 B1 y A' Hal1 H2) as (w2 & B2 & HQ2 & Hal2 & L2).
  exists w2, B2. rewrite (bind_Return _ _ _ _ _ HQ).
  split; [exact HQ2|]. split; [exact Hal2|exact L2].
Qed.

Lemma sim_peek {X} w post (f g : char -> M X) :
  sim rA rB w post (f (hd_error (w ++ rA))) (g (hd_error (w ++ rB))) ->
  sim rA rB w post (bind peek f) (bind peek g).
Proof.
  intros Hf A B v A' (HA & HB & Hw) H.
  destruct (peek_spec A) as (A1 & EA & PA & _).
  destruct (peek_spec B) as (B1 & EB & PB & _).
  rewrite (bind_Return _ _ _ _ _ EA) in H. rewrite (bind_Return _ _ _ _ _ EB).
  rewrite HA in H. rewrite HB. apply (Hf A1 B1 v A'); [|exact H].
  repeat split; congruence.
Qed.

Lemma sim_next {X} c w post (f g : char -> M X) :
  sim rA rB w post (f (Some c)) (g (Some c)) ->
  sim rA rB (c :: w) post (bind nextChar f) (bind nextChar g).
Proof.
  intros Hf A B v A' (HA & HB & Hw) H.
  destruct (nextChar_cons A c (w ++ rA) HA) as (A1 & EA & PA & _).
  destruct (nextChar_cons B c (w ++ rB) HB) as (B1 & EB & PB & _).
  rewrite (bind_Return _ _ _ _ _ EA) in H. rewrite (bind_Return _ _ _ _ _ EB).
  apply (Hf A1 B1 v A'); [|exact H].
  repeat split; auto. now inversion Hw.
Qed.

Lemma sim_digits w (post : list N -> Prop) :
  post (after_digits w) -> sim rA rB w post readDigits readDigits.
Proof.
  intros Hpost A B v A' (HA & HB & Hw) H.
  destruct (readDigits_spec A) as (A1 & EA & PA).
  destruct (readDigits_spec B) as (B1 & EB & PB).
  rewrite HA in EA, PA. rewrite HB in EB, PB.
  rewrite (leading_digits_app _ _ HrA) in EA.
  rewrite (leading_digits_app _ _ HrB) in EB.
  rewrite (after_digits_app _ _ HrA) in PA.
  rewrite (after_digits_app _ _ HrB) in PB.
  rewrite H in EA. injection EA as -> ->.
  exists (after_digits w), B1. split; [exact EB|]. split; [|exact Hpost].
  split; [exact PA|]. split; [exact PB|now apply after_digits_bare].
Qed.

Lemma sim_skip w (post : list N -> Prop) :
  (w = [] -> hard rA /\ hard rB) -> post w -> sim rA rB w post skip skip.
Proof.
  intros Hh Hm A B v A' (HA & HB & Hw) H.
  destruct (skip_spec A) as (A1 & EA & PA).
  destruct (skip_spec B) as (B1 & EB & PB).
  rewrite HA, skip_ws_word in PA by (auto; intros E; now apply Hh).
  rewrite HB, skip_ws_word in PB by (auto; intros E; now apply Hh).
  rewrite H in EA. destruct v. injection EA as <-.
  exists w, B1. split; [exact EB|]. split; [|exact Hm].
  split; [exact PA|]. split; [exact PB|exact Hw].
Qed.

Lemma sim_weaken {X} w (post post' : list N -> Prop) (P Q : M X) :
  (forall w', post w' -> post' w') -> sim rA rB w post P Q -> sim rA rB w post' P Q.
Proof.
  intros Hm HP A B v A' Hal H.
  destruct (HP A B v A' Hal H) as (w' & B' & HQ & Hal' & L).
  exists w', B'. split; [exact HQ|]. split; [exact Hal'|auto].
Qed.

Lemma simws_skip {X} w post (f g : unit -> M X) :
  (w = [] -> hard rA /\ hard rB) ->
  sim rA rB w post (f tt) (g tt) ->
  simws rA rB w post (bind skip f) (bind skip g).
Proof.
  intros Hh Hf w0 A B v A' H0 Hw HA HB H.
  destruct (skip_spec A) as (A1 & EA & PA).
  destruct (skip_spec B) as (B1 & EB & PB).
  rewrite HA, skip_ws_app, skip_ws_word in PA
    by (auto; intros E; now apply Hh).
  rewrite HB, skip_ws_app, skip_ws_word in PB
    by (auto; intros E; now apply Hh).
  rewrite (bind_Return _ _ _ _ _ EA) in H. rewrite (bind_Return _ _ _ _ _ EB).
  apply (Hf A1 B1 v A'); [|exact H]. repeat split; assumption.
Qed.

Lemma simws_assoc {X Y Z} w post (m : M X) (k : X -> M Y) (f : Y -> M Z) :
  simws rA rB w post (bind m (fun x => bind (k x) f))
               (bind m (fun x => bind (k x) f)) ->
  simws rA rB w post (bind (bind m k) f) (bind (bind m k) f).
Proof.
  intros HP w0 A B v A' H0 Hw HA HB H.
  destruct (HP w0 A B v A' H0 Hw HA HB) as (w' & B' & HQ & R).
  - rewrite <- H. unfold bind. destruct (m A); auto.
  - exists w', B'. split; [|exact R].
    rewrite <- HQ. unfold bind. destruct (m B); auto.
Qed.

Lemma boundary_char_eqb r (a : ascii) :
  boundary r -> bare (N_of_ascii a) = true -> char_eqb (hd_error r) a = false.
Proof.
  intros Hr Ha.
  apply (bare_test_boundary (fun ch => char_eqb ch a)); [|exact Hr].
  now apply char_eqb_bare_test.
Qed.

Lemma boundary_isDigit r : boundary r -> isDigit (hd_error r) = false.
Proof. apply bare_test_boundary. exact isDigit_bare_test. Qed.

(** A branch on a test of the character ahead. *)
Lemma sim_if {X} (p : char -> bool) w post (T E : M X) :
  bare_test p ->
  (forall c w1, w = c :: w1 -> p (Some c) = true -> sim rA rB w post T T) ->
  sim rA rB w post E E ->
  sim rA rB w post (if p (hd_error (w ++ rA)) then T else E)
             (if p (hd_error (w ++ rB)) then T else E).
Proof.
  intros Hp HT HE. rewrite (bare_test_agree p w rA rB) by assumption.
  destruct (p (hd_error (w ++ rA))) eqn:T1; [|exact HE].
  destruct (bare_test_true p w rA Hp HrA T1) as (c & w1 & ->).
  now apply (HT c w1).
Qed.

Lemma at_most_after_digits w n :
  (length w <= n)%nat -> at_most n (after_digits w).
Proof. unfold at_most. pose proof (after_digits_length w). lia. Qed.

Lemma numberLiteral_sim w m :
  (w = [] -> hard rA /\ hard rB) ->
  (length w <= S m)%nat ->
  simws rA rB w (at_most m) numberLiteral numberLiteral.
Proof.
  intros Hh L. unfold numberLiteral.
  apply simws_skip; [exact Hh|].
  clear Hh. apply sim_peek.
  destruct w as [|c w]; cbn [app hd_error].
  { rewrite (boundary_char_eqb rA "-"), (boundary_isDigit rA) by auto.
    apply sim_error. }
  simpl in L. apply le_S_n in L.
  destruct (negb (char_eqb (Some c) "-") && negb (isDigit (Some c))) eqn:T0;
    [apply sim_error|].
  lazymatch goal with
  | |- sim rA rB _ _ (bind _ ?k) _ =>
      assert (HK : forall buf w0, sim rA rB w0 (at_most (length (after_digits w0)))
                                    (k buf) (k buf))
  end.
  { intros buf w0. cbv beta.
    apply sim_bind with (post1 := eq (after_digits w0));
      [now apply sim_digits|].
    intros digits w1 <-. set (n := length (after_digits w0)).
    assert (Ln : (length (after_digits w0) <= n)%nat) by apply le_n.
    destruct digits as [|d ds]; [apply sim_error|].
    destruct (leading_zero (d :: ds)); [apply sim_error|].
    apply sim_peek.
    apply sim_bind with (post1 := at_most n).
    { apply (sim_if (fun ch => char_eqb ch ".")); [auto with bare| |].
      - intros c1 w1 E _. rewrite E in *. apply sim_next.
        apply sim_bind with (post1 := at_most n).
        + apply sim_digits, at_most_after_digits. simpl in Ln. lia.
        + intros [|d1 ds1] w2 L2; [apply sim_error|now apply sim_ret].
      - now apply sim_ret. }
    intros buf0 w2 L2. apply sim_peek.
    apply sim_bind with (post1 := at_most n).
    { apply (sim_if (fun e => char_eqb e "e" || char_eqb e "E"));
        [auto with bare| |].
      - intros c1 w3 E _. rewrite E in *. apply sim_next. apply sim_peek.
        unfold at_most in L2. simpl in L2.
        apply sim_bind with (post1 := at_most n).
        + apply (sim_if (fun s => char_eqb s "+" || char_eqb s "-"));
            [auto with bare| |].
          * intros c2 w4 E2 _. rewrite E2 in *. apply sim_next.
            apply sim_ret. unfold at_most. simpl in L2. lia.
          * apply sim_ret. unfold at_most. lia.
        + intros buf1 w4 L4.
          apply sim_bind with (post1 := at_most n).
          * apply sim_digits, at_most_after_digits. exact L4.
          * intros [|d1 ds1] w5 L5; [apply sim_error|now apply sim_ret].
      - now apply sim_ret. }
    intros buf1 w3 L3.
    destruct (JSON_parse_number buf1); [now apply sim_ret|apply sim_throw]. }
  destruct (char_eqb (Some c) "-") eqn:T1.
  - apply sim_bind with (post1 := eq w).
    + apply sim_next. now apply sim_ret.
    + intros buf w' <-. eapply sim_weaken; [|apply HK].
      unfold at_most. intros w'. pose proof (after_digits_length w). lia.
  - apply sim_bind with (post1 := eq (c :: w)); [now apply sim_ret|].
    intros buf w' <-. eapply sim_weaken; [|apply HK].
    rewrite ?T1 in T0. cbn [negb andb] in T0. apply negb_false_iff in T0.
    change (digit c = true) in T0.
    unfold at_most. intros w'. cbn [after_digits]. rewrite T0.
    pose proof (after_digits_length w). lia.
Qed.

Lemma sim_expect_loop s : forall expected w,
  all_bare expected ->
  sim rA rB w (fun w' => (length w' + length expected <= length w)%nat)
    (expect_loop s expected) (expect_loop s expected).
Proof.
  induction expected as [|e more IH]; intros w He; cbn [expect_loop].
  - apply sim_ret. simpl. lia.
  - inversion He as [|? ? Hbe Hmore]; subst.
    destruct w as [|c w].
    + intros A B v A' (HA & _) H. exfalso. simpl in HA.
      destruct rA as [|c r].
      * destruct (nextChar_nil A HA) as (A1 & E1 & _).
        rewrite (bind_Return _ _ _ _ _ E1) in H. discriminate.
      * destruct (nextChar_cons A c r HA) as (A1 & E1 & _).
        rewrite (bind_Return _ _ _ _ _ E1) in H.
        destruct (N.eqb_spec c e) as [->|]; [|discriminate].
        simpl in HrA. congruence.
    + apply sim_next. destruct (c =? e); [|apply sim_error].
      eapply sim_weaken; [|apply IH; assumption].
      intros w'. simpl. lia.
Qed.

Lemma sim_expect s c w :
  all_bare s ->
  sim rA rB (c :: w) (fun w' => (length w' + length s <= S (length w))%nat)
    (expect s) (expect s).
Proof.
  intros Hs. unfold expect.
  apply sim_bind with (post1 := eq (c :: w)).
  - apply sim_skip; [discriminate|reflexivity].
  - intros _ w' <-. now apply sim_expect_loop.
Qed.

Lemma booleanLiteral_sim w m :
  (w = [] -> hard rA /\ hard rB) ->
  (length w <= S m)%nat ->
  simws rA rB w (at_most m) booleanLiteral booleanLiteral.
Proof.
  intros Hh L. unfold booleanLiteral, skipAndPeek.
  apply simws_assoc, simws_skip; [exact Hh|].
  clear Hh. apply sim_peek.
  destruct w as [|c w]; cbn [app hd_error].
  { rewrite (boundary_char_eqb rA "t"), (boundary_char_eqb rA "f") by auto.
    apply sim_error. }
  simpl in L. apply le_S_n in L.
  destruct (char_eqb (Some c) "t").
  - apply sim_bind
      with (post1 := fun w' => (length w' + length (str "true") <= S (length w))%nat).
    + apply sim_expect. repeat constructor.
    + intros _ w' L'. apply sim_ret. unfold at_most. simpl in L'. lia.
  - destruct (char_eqb (Some c) "f"); [|apply sim_error].
    apply sim_bind
      with (post1 := fun w' => (length w' + length (str "false") <= S (length w))%nat).
    + apply sim_expect. repeat constructor.
    + intros _ w' L'. apply sim_ret. unfold at_most. simpl in L'. lia.
Qed.

End Word.

(** ** String tokens *)

Lemma mustChar_cons lex c r :
  pending lex = c :: r ->
  exists lex', mustChar lex = Return c lex' /\ pending lex' = r.
Proof.
  intros H. unfold mustChar.
  destruct (nextChar_cons lex c r H) as (lex' & E & P & _).
  rewrite (bind_Return _ _ _ _ _ E). exists lex'. split; [reflexivity|exact P].
Qed.

Lemma mustChar_inv lex c lex' :
  mustChar lex = Return c lex' -> pending lex = c :: pending lex'.
Proof.
  unfold mustChar. intros H.
  destruct (pending lex) as [|d r] eqn:E.
  - destruct (nextChar_nil lex E) as (lex1 & E1 & _).
    rewrite (bind_Return _ _ _ _ _ E1) in H. discriminate.
  - destruct (nextChar_cons lex d r E) as (lex1 & E1 & P1 & _).
    rewrite (bind_Return _ _ _ _ _ E1) in H. injection H as -> ->.
    now rewrite P1.
Qed.

Lemma hex_value_plain a x : hex_value a = Some x -> a <> 34 /\ a <> 92.
Proof.
  unfold hex_value. intros H. split; intros ->; discriminate H.
Qed.

Lemma body_take_plain s r a rest :
  string_body s -> s ++ 34 :: r = a :: rest -> a <> 34 -> a <> 92 ->
  exists s1, s = a :: s1 /\ string_body s1 /\ rest = s1 ++ 34 :: r.
Proof.
  intros Hs E H34 H92. destruct Hs as [|c s Hc1 Hc2 Hs|c s Hs]; simpl in E.
  - injection E as <- _. congruence.
  - injection E as -> <-. eauto.
  - injection E as <- _. congruence.
Qed.

Ltac escape_simple H s Hs PA c :=
  injection H as <- <-; exists s;
  split; [exact Hs|]; split; [apply le_n|]; split; [exact PA|];
  let lexB := fresh "lexB" in let rB := fresh "rB" in
  let HB := fresh "HB" in let B1 := fresh "B" in
  let EB := fresh "EB" in let PB := fresh "PB" in
  intros lexB rB HB; unfold unescape;
  destruct (mustChar_cons lexB c _ HB) as (B1 & EB & PB);
  rewrite (bind_Return _ _ _ _ _ EB);
  repeat match goal with
  | T : (c =? ?k) = _ |- context [c =? ?k] => rewrite T
  end;
  exists B1; split; [reflexivity|exact PB].

(** An escape inside a string token is read off the token alone. *)
Lemma unescape_frame lexA c s rA v lexA' :
  string_body s ->
  pending lexA = c :: s ++ 34 :: rA ->
  unescape lexA = Return v lexA' ->
  exists s',
    string_body s' /\ (length s' <= length s)%nat
    /\ pending lexA' = s' ++ 34 :: rA
    /\ forall lexB rB,
         pending lexB = c :: s ++ 34 :: rB ->
         exists lexB', unescape lexB = Return v lexB'
                       /\ pending lexB' = s' ++ 34 :: rB.
Proof.
  intros Hs HA H. unfold unescape in H.
  destruct (mustChar_cons lexA c _ HA) as (A1 & EA & PA).
  rewrite (bind_Return _ _ _ _ _ EA) in H. clear EA.
  destruct (c =? 34) eqn:T1; [escape_simple H s Hs PA c|].
  destruct (c =? 92) eqn:T2; [escape_simple H s Hs PA c|].
  destruct (c =? 98) eqn:T3; [escape_simple H s Hs PA c|].
  destruct (c =? 102) eqn:T4; [escape_simple H s Hs PA c|].
  destruct (c =? 110) eqn:T5; [escape_simple H s Hs PA c|].
  destruct (c =? 114) eqn:T6; [escape_simple H s Hs PA c|].
  destruct (c =? 116) eqn:T7; [escape_simple H s Hs PA c|].
  destruct (c =? 117) eqn:T8; [|discriminate].
  apply bind_inv in H. destruct H as (h1 & A2 & E1 & H).
  apply bind_inv in H. destruct H as (h2 & A3 & E2 & H).
  apply bind_inv in H. destruct H as (h3 & A4 & E3 & H).
  apply bind_inv in H. destruct H as (h4 & A5 & E4 & H).
  apply mustChar_inv in E1, E2, E3, E4.
  unfold JSON_parse_unicode in H.
  destruct (hex_value h1) as [x1|] eqn:X1; [|discriminate].
  destruct (hex_value h2) as [x2|] eqn:X2; [|discriminate].
  destruct (hex_value h3) as [x3|] eqn:X3; [|discriminate].
  destruct (hex_value h4) as [x4|] eqn:X4; [|discriminate].
  injection H as <- <-.
  apply hex_value_plain in X1 as P1. apply hex_value_plain in X2 as P2.
  apply hex_value_plain in X3 as P3. apply hex_value_plain in X4 as P4.
  rewrite PA in E1.
  destruct (body_take_plain s rA h1 _ Hs E1) as (s1 & -> & Hs1 & R1); try tauto.
  rewrite R1 in E2.
  destruct (body_take_plain s1 rA h2 _ Hs1 E2) as (s2 & -> & Hs2 & R2); try tauto.
  rewrite R2 in E3.
  destruct (body_take_plain s2 rA h3 _ Hs2 E3) as (s3 & -> & Hs3 & R3); try tauto.
  rewrite R3 in E4.
  destruct (body_take_plain s3 rA h4 _ Hs3 E4) as (s4 & -> & Hs4 & R4); try tauto.
  exists s4. split; [exact Hs4|]. split; [simpl; lia|]. split; [exact R4|].
  intros lexB rB HB. unfold unescape.
  destruct (mustChar_cons lexB c _ HB) as (B1 & EB & PB).
  rewrite (bind_Return _ _ _ _ _ EB), T1, T2, T3, T4, T5, T6, T7, T8.
  simpl in PB.
  destruct (mustChar_cons B1 h1 _ PB) as (B2 & EB2 & PB2).
  rewrite (bind_Return _ _ _ _ _ EB2).
  destruct (mustChar_cons B2 h2 _ PB2) as (B3 & EB3 & PB3).
  rewrite (bind_Return _ _ _ _ _ EB3).
  destruct (mustChar_cons B3 h3 _ PB3) as (B4 & EB4 & PB4).
  rewrite (bind_Return _ _ _ _ _ EB4).
  destruct (mustChar_cons B4 h4 _ PB4) as (B5 & EB5 & PB5).
  rewrite (bind_Return _ _ _ _ _ EB5).
  unfold JSON_parse_unicode. rewrite X1, X2, X3, X4.
  exists B5. split; [reflexivity|exact PB5].
Qed.

Lemma stringLiteral_loop_frame : forall nA result lexA body rA v lexA',
  string_body body ->
  pending lexA = body ++ 34 :: rA ->
  stringLiteral_loop nA result lexA = Return v lexA' ->
  pending lexA' = rA
  /\ forall nB lexB rB,
       (length body < nB)%nat ->
       pending lexB = body ++ 34 :: rB ->
       exists lexB', stringLiteral_loop nB result lexB = Return v lexB'
                     /\ pending lexB' = rB.
Proof.
  induction nA as [|nA IH]; intros result lexA body rA v lexA' Hb HA H;
    [discriminate|].
  cbn [stringLiteral_loop] in H.
  destruct Hb as [|c s Hc1 Hc2 Hs|c s Hs]; simpl in HA.
  - destruct (nextChar_cons lexA _ _ HA) as (A1 & EA & PA & _).
    rewrite (bind_Return _ _ _ _ _ EA) in H. simpl in H.
    injection H as <- <-. split; [exact PA|].
    intros [|nB] lexB rB L HB; [lia|]. simpl in HB.
    destruct (nextChar_cons lexB _ _ HB) as (B1 & EB & PB & _).
    cbn [stringLiteral_loop]. rewrite (bind_Return _ _ _ _ _ EB). simpl.
    exists B1. split; [reflexivity|exact PB].
  - destruct (nextChar_cons lexA _ _ HA) as (A1 & EA & PA & FA).
    rewrite (bind_Return _ _ _ _ _ EA) in H.
    assert (T1 : char_eqb (Some c) "034" = false)
      by (simpl; now apply N.eqb_neq).
    assert (T2 : char_eqb (Some c) "092" = false)
      by (simpl; now apply N.eqb_neq).
    rewrite T1 in H. unfold bind at 1, get_eof in H. rewrite FA, T2 in H.
    unfold bind at 1, ret at 1 in H.
    destruct (IH _ A1 s rA v lexA' Hs PA H) as (HrA & HBs).
    split; [exact HrA|].
    intros [|nB] lexB rB L HB; [lia|]. simpl in HB, L.
    destruct (nextChar_cons lexB _ _ HB) as (B1 & EB & PB & FB).
    cbn [stringLiteral_loop]. rewrite (bind_Return _ _ _ _ _ EB), T1.
    unfold bind at 1, get_eof. rewrite FB, T2.
    unfold bind at 1, ret at 1. apply HBs; [lia|exact PB].
  - destruct (nextChar_cons lexA _ _ HA) as (A1 & EA & PA & FA).
    rewrite (bind_Return _ _ _ _ _ EA) in H.
    change (char_eqb (Some 92) "034") with false in H.
    unfold bind at 1, get_eof in H. rewrite FA in H.
    change (char_eqb (Some 92) "092") with true in H.
    apply bind_inv in H. destruct H as (x & A2 & EU & H).
    destruct (unescape_frame A1 c s rA x A2 Hs PA EU)
      as (s' & Hs' & L' & PA2 & HU).
    destruct (IH _ A2 s' rA v lexA' Hs' PA2 H) as (HrA & HBs).
    split; [exact HrA|].
    intros [|nB] lexB rB L HB; [lia|]. simpl in HB, L.
    destruct (nextChar_cons lexB _ _ HB) as (B1 & EB & PB & FB).
    cbn [stringLiteral_loop]. rewrite (bind_Return _ _ _ _ _ EB).
    change (char_eqb (Some 92) "034") with false.
    unfold bind at 1, get_eof. rewrite FB.
    change (char_eqb (Some 92) "092") with true.
    destruct (HU B1 rB PB) as (B2 & EB2 & PB2).
    rewrite (bind_Return _ _ _ _ _ EB2). apply HBs; [lia|exact PB2].
Qed.

(** A string token is read whole, whatever follows it. *)
Lemma stringLiteral_frame lexA w0 body rA v lexA' :
  ws w0 -> string_body body ->
  pending lexA = w0 ++ string_token body ++ rA ->
  stringLiteral lexA = Return v lexA' ->
  pending lexA' = rA
  /\ forall lexB rB,
       pending lexB = w0 ++ string_token body ++ rB ->
       exists lexB', stringLiteral lexB = Return v lexB'
                     /\ pending lexB' = rB.
Proof.
  intros H0 Hb HA H. unfold stringLiteral in H.
  apply bind_inv in H. destruct H as ([] & A1 & E1 & H).
  apply skipAndExpect_inv in E1. destruct E1 as (r & E1 & PA1).
  unfold string_token in HA. simpl in HA. rewrite <- app_assoc in HA.
  rewrite HA, skip_ws_app in E1 by assumption.
  simpl in E1. injection E1 as <-.
  destruct (stringLiteral_loop_frame _ [] A1 body rA v lexA' Hb PA1 H)
    as (HrA & HBs).
  split; [exact HrA|].
  intros lexB rB HB. unfold stringLiteral.
  unfold string_token in HB. simpl in HB. rewrite <- app_assoc in HB.
  destruct (skipAndExpect_take "034" lexB (body ++ 34 :: rB))
    as (B1 & EB & PB); [now rewrite HB, skip_ws_app|].
  rewrite (bind_Return _ _ _ _ _ EB).
  apply HBs; [|exact PB]. rewrite PB, length_app. simpl. lia.
Qed.

(** ** Generators *)

Lemma gbind_inv {A B} (m : G A) (f : A -> G B) lex ys b lex2 :
  gbind m f lex = (ys, Return b lex2) ->
  exists ys1 a lex1 ys2,
    m lex = (ys1, Return a lex1) /\ f a lex1 = (ys2, Return b lex2)
    /\ ys = ys1 ++ ys2.
Proof.
  unfold gbind. destruct (m lex) as [ys1 [a lex1| |]]; try discriminate.
  destruct (f a lex1) as [ys2 o] eqn:E. intros H. injection H as <- ->.
  exists ys1, a, lex1, ys2. auto.
Qed.

Lemma gbind_run {A B} (m : G A) (f : A -> G B) lex ys1 a lex1 ys2 o :
  m lex = (ys1, Return a lex1) -> f a lex1 = (ys2, o) ->
  gbind m f lex = (ys1 ++ ys2, o).
Proof. unfold gbind. now intros -> ->. Qed.

Lemma lift_inv {A} (m : M A) lex ys a lex' :
  lift m lex = (ys, Return a lex') -> ys = [] /\ m lex = Return a lex'.
Proof. unfold lift. intros H. injection H as <- ->. auto. Qed.

Lemma yield_inv (p : M Value) lex ys u lex' :
  yield p lex = (ys, Return u lex') ->
  exists x, p lex = Return x lex' /\ ys = [x].
Proof.
  unfold yield. destruct (p lex) as [x l| |]; try discriminate.
  intros H. injection H as <- _ <-. eauto.
Qed.

Lemma yield_run (p : M Value) lex x lex' :
  p lex = Return x lex' -> yield p lex = ([x], Return tt lex').
Proof. unfold yield. now intros ->. Qed.

Lemma collect_inv (g : G unit) lex result lex' :
  collect g lex = Return result lex' -> g lex = (result, Return tt lex').
Proof.
  unfold collect. destruct (g lex) as [ys [[] l| |]]; try discriminate.
  now intros H; injection H as -> ->.
Qed.

Lemma collect_run (g : G unit) lex result lex' :
  g lex = (result, Return tt lex') -> collect g lex = Return result lex'.
Proof. unfold collect. now intros ->. Qed.

(** ** What each token consumer needs first *)

Lemma booleanLiteral_head lex v lex' :
  booleanLiteral lex = Return v lex' ->
  exists c r, skip_ws (pending lex) = c :: r /\ bare c = true.
Proof.
  unfold booleanLiteral. intros H.
  destruct (skipAndPeek_spec lex) as (lex1 & E & _).
  rewrite (bind_Return _ _ _ _ _ E) in H.
  destruct (skip_ws (pending lex)) as [|c r]; [discriminate|].
  exists c, r. split; [reflexivity|]. simpl in H.
  destruct (N.eqb_spec c 116) as [->|]; [reflexivity|].
  destruct (N.eqb_spec c 102) as [->|]; [reflexivity|discriminate].
Qed.

Lemma numberLiteral_head lex v lex' :
  numberLiteral lex = Return v lex' ->
  exists c r, skip_ws (pending lex) = c :: r /\ bare c = true.
Proof.
  unfold numberLiteral. intros H.
  destruct (skip_spec lex) as (lex1 & E1 & P1).
  rewrite (bind_Return _ _ _ _ _ E1) in H.
  destruct (peek_spec lex1) as (lex2 & E2 & _).
  rewrite (bind_Return _ _ _ _ _ E2), P1 in H.
  destruct (skip_ws (pending lex)) as [|c r]; [discriminate|].
  exists c, r. split; [reflexivity|]. cbn [hd_error] in H.
  destruct (char_eqb (Some c) "-") eqn:T1.
  - simpl in T1. apply N.eqb_eq in T1. now subst.
  - destruct (isDigit (Some c)) eqn:T2; [now apply digit_bare|discriminate].
Qed.

Lemma stringLiteral_head lex v lex' :
  stringLiteral lex = Return v lex' ->
  exists r, skip_ws (pending lex) = 34 :: r.
Proof.
  unfold stringLiteral. intros H.
  apply bind_inv in H. destruct H as ([] & lex1 & E & _).
  apply skipAndExpect_inv in E. destruct E as (r & E & _). eauto.
Qed.

Lemma Lex_elements_head dispatch sample lex ys lex' :
  Lex_elements dispatch sample lex = (ys, Return tt lex') ->
  exists r, skip_ws (pending lex) = 91 :: r.
Proof.
  unfold Lex_elements. intros H.
  apply gbind_inv in H. destruct H as (ys1 & [] & lex1 & ys2 & E & _).
  apply lift_inv in E. destruct E as [_ E].
  apply skipAndExpect_inv in E. destruct E as (r & E & _). eauto.
Qed.

Lemma ObjectParser_parse_head dispatch o lex v lex' :
  ObjectParser_parse dispatch o lex = Return v lex' ->
  exists r, skip_ws (pending lex) = 123 :: r.
Proof.
  unfold ObjectParser_parse. intros H.
  apply bind_inv in H. destruct H as ([] & lex1 & E & _).
  apply skipAndExpect_inv in E. destruct E as (r & E & _). eauto.
Qed.

Lemma dispatch_head D fuel sample lex v lex' :
  type_parse (types D) (Lex_api fuel (types D)) sample lex = Return v lex' ->
  exists c r, skip_ws (pending lex) = c :: r /\ starts sample c.
Proof.
  destruct sample as [| | | | | | |l|o|]; cbn; intros H; try discriminate.
  - apply bind_inv in H. destruct H as (b & l1 & H & _).
    now apply booleanLiteral_head in H.
  - apply bind_inv in H. destruct H as (b & l1 & H & _).
    now apply numberLiteral_head in H.
  - apply bind_inv in H. destruct H as (b & l1 & H & _).
    apply stringLiteral_head in H. destruct H as (r & H). eauto.
  - apply bind_inv in H. destruct H as (b & l1 & H & _).
    apply stringLiteral_head in H. destruct H as (r & H). eauto.
  - destruct l as [|s l]; [discriminate|].
    apply bind_inv in H. destruct H as (b & l1 & H & _).
    apply collect_inv in H. destruct fuel; [discriminate|].
    apply Lex_elements_head in H. destruct H as (r & H). eauto.
  - destruct fuel; [discriminate|].
    apply ObjectParser_parse_head in H. destruct H as (r & H). eauto.
  - destruct fuel; [discriminate|].
    apply ObjectParser_parse_head in H. destruct H as (r & H). eauto.
Qed.

(** ** Arrays and objects, step by step *)

Lemma gbind_lift {A B} (m : M A) (f : A -> G B) lex a lex' :
  m lex = Return a lex' -> gbind (lift m) f lex = f a lex'.
Proof.
  unfold gbind, lift. intros ->. now destruct (f a lex').
Qed.

Lemma gbind_yield {B} (p : M Value) (f : unit -> G B) lex x lex' :
  p lex = Return x lex' ->
  gbind (yield p) f lex = (x :: fst (f tt lex'), snd (f tt lex')).
Proof.
  unfold gbind, yield. intros ->. now destruct (f tt lex').
Qed.

Lemma gbind_yield_inv {B} (p : M Value) (f : unit -> G B) lex ys b lex2 :
  gbind (yield p) f lex = (ys, Return b lex2) ->
  exists x lex1 ys', p lex = Return x lex1
                     /\ f tt lex1 = (ys', Return b lex2) /\ ys = x :: ys'.
Proof.
  intros H. apply gbind_inv in H.
  destruct H as (ys1 & [] & lex1 & ys2 & E1 & E2 & ->).
  apply yield_inv in E1. destruct E1 as (x & E1 & ->). eauto 6.
Qed.

(** Every document starts with a character that is neither white nor a
    closing bracket, the same with and without the added commas. *)
Lemma Doc_head a b :
  Doc a b ->
  exists c a' b', a = c :: a' /\ b = c :: b'
    /\ white c = false /\ c <> 93 /\ c <> 125 /\ c <> 44.
Proof.
  intros H. destruct H as [w Hne Hw|body _|w0 _|w0 a b _ _|w0 _|w0 a b _ _].
  - destruct Hw as [|c w Hc _]; [congruence|].
    exists c, w, w. repeat split; try (intros ->; discriminate).
    now apply bare_not_white.
  - exists 34, (body ++ [34]), (body ++ [34]). repeat split; discriminate.
  - exists 91, (w0 ++ [93]), (w0 ++ [93]). repeat split; discriminate.
  - exists 91, (w0 ++ a ++ [93]), (w0 ++ b ++ [93]). repeat split; discriminate.
  - exists 123, (w0 ++ [125]), (w0 ++ [125]). repeat split; discriminate.
  - exists 123, (w0 ++ a ++ [125]), (w0 ++ b ++ [125]).
    repeat split; discriminate.
Qed.

Lemma expect_one c lex r :
  skip_ws (pending lex) = c :: r ->
  exists lex', expect [c] lex = Return tt lex' /\ pending lex' = r.
Proof.
  intros E. unfold expect.
  destruct (skip_spec lex) as (lex1 & E1 & P1).
  rewrite (bind_Return _ _ _ _ _ E1). rewrite E in P1. cbn [expect_loop].
  destruct (nextChar_cons lex1 c r P1) as (lex2 & E2 & P2 & _).
  rewrite (bind_Return _ _ _ _ _ E2), N.eqb_refl.
  exists lex2. split; [reflexivity|exact P2].
Qed.

(** At the closing bracket the loop of [Lex.elements] ends. *)
Lemma elements_loop_close dispatch n sample lex r :
  skip_ws (pending lex) = 93 :: r ->
  exists lex',
    elements_loop dispatch (S n) sample lex = ([], Return tt lex')
    /\ pending lex' = 93 :: r.
Proof.
  intros E. cbn [elements_loop].
  destruct (skipAndPeek_spec lex) as (lex1 & E1 & P1).
  rewrite (gbind_lift _ _ _ _ _ E1), E. simpl.
  exists lex1. split; [reflexivity|congruence].
Qed.

(** The checker looks at the cursor for the position of its error only. *)
Lemma check_loop_indep keys parsed A A' :
  check_loop keys parsed A = Return tt A' ->
  A' = A /\ forall B, check_loop keys parsed B = Return tt B.
Proof.
  induction keys as [|k keys IH]; simpl; intros H.
  - injection H as <-. auto.
  - destruct (has_property parsed k) as [[|]|]; try discriminate. auto.
Qed.

Lemma check_indep o parsed A A' :
  check o parsed A = Return tt A' ->
  A' = A /\ forall B, check o parsed B = Return tt B.
Proof. apply check_loop_indep. Qed.

Lemma elements_loop_unfold dispatch n sample :
  elements_loop dispatch (S n) sample
  = gbind (lift skipAndPeek) (fun ch =>
      if char_eqb ch "]" then gret tt
      else gbind (yield (dispatch sample))
             (fun _ => elements_delim dispatch n sample)).
Proof. reflexivity. Qed.

Lemma ObjectParser_loop_unfold dispatch n template target ch :
  ObjectParser_loop dispatch (S n) template target ch
  = if char_eqb ch "034" then
      key <- stringLiteral ;;
      skipAndExpect ":" ;;;
      target <- addProperty dispatch template target key ;;
      object_delim dispatch n template target
    else ret target.
Proof. reflexivity. Qed.

Lemma elements_delim_inv dispatch n sample lex ys lex' :
  elements_delim dispatch n sample lex = (ys, Return tt lex') ->
  exists c r, skip_ws (pending lex) = c :: r /\ (c = 44 \/ c = 93).
Proof.
  unfold elements_delim. intros H.
  destruct (skipAndPeek_spec lex) as (lex1 & E1 & P1).
  rewrite (gbind_lift _ _ _ _ _ E1) in H.
  destruct (skip_ws (pending lex)) as [|c r]; [discriminate|].
  exists c, r. split; [reflexivity|]. simpl in H.
  destruct (N.eqb_spec c 44); [now left|].
  destruct (N.eqb_spec c 93); [now right|discriminate].
Qed.

Lemma elements_delim_close_inv dispatch n sample lex r ys lex' :
  skip_ws (pending lex) = 93 :: r ->
  elements_delim dispatch n sample lex = (ys, Return tt lex') ->
  ys = [] /\ pending lex' = 93 :: r.
Proof.
  unfold elements_delim. intros E H.
  destruct (skipAndPeek_spec lex) as (lex1 & E1 & P1).
  rewrite (gbind_lift _ _ _ _ _ E1), E in H. simpl in H.
  destruct n as [|n]; [discriminate|].
  destruct (elements_loop_close dispatch n sample lex1 r) as (l2 & E2 & P2).
  { now rewrite P1, E, skip_ws_stop. }
  rewrite E2 in H. injection H as <- <-. auto.
Qed.

Lemma elements_delim_close dispatch n sample lex r :
  skip_ws (pending lex) = 93 :: r ->
  exists lex',
    elements_delim dispatch (S n) sample lex = ([], Return tt lex')
    /\ pending lex' = 93 :: r.
Proof.
  unfold elements_delim. intros E.
  destruct (skipAndPeek_spec lex) as (lex1 & E1 & P1).
  rewrite (gbind_lift _ _ _ _ _ E1), E. simpl.
  apply elements_loop_close. now rewrite P1, E, skip_ws_stop.
Qed.

Lemma elements_delim_comma dispatch n sample lex r :
  skip_ws (pending lex) = 44 :: r ->
  exists lex1,
    pending lex1 = r
    /\ elements_delim dispatch n sample lex
       = elements_loop dispatch n sample lex1.
Proof.
  unfold elements_delim. intros E.
  destruct (skipAndPeek_spec lex) as (lex1 & E1 & P1).
  rewrite (gbind_lift _ _ _ _ _ E1), E. simpl. rewrite E in P1.
  destruct (nextChar_cons lex1 _ _ P1) as (lex2 & E2 & P2 & _).
  rewrite (gbind_lift _ _ _ _ _ E2). eauto.
Qed.

Lemma object_delim_inv dispatch n template target lex t lex' :
  object_delim dispatch n template target lex = Return t lex' ->
  exists c r, skip_ws (pending lex) = c :: r /\ (c = 44 \/ c = 125).
Proof.
  unfold object_delim. intros H.
  destruct (skipAndPeek_spec lex) as (lex1 & E1 & P1).
  rewrite (bind_Return _ _ _ _ _ E1) in H.
  destruct (skip_ws (pending lex)) as [|c r]; [discriminate|].
  exists c, r. split; [reflexivity|]. simpl in H.
  destruct (N.eqb_spec c 44); [now left|].
  destruct (N.eqb_spec c 125); [now right|discriminate].
Qed.

Lemma object_delim_close_inv dispatch n template target lex r t lex' :
  skip_ws (pending lex) = 125 :: r ->
  object_delim dispatch n template target lex = Return t lex' ->
  t = target /\ pending lex' = 125 :: r.
Proof.
  unfold object_delim. intros E H.
  destruct (skipAndPeek_spec lex) as (lex1 & E1 & P1).
  rewrite (bind_Return _ _ _ _ _ E1), E in H. simpl in H.
  destruct n as [|n]; [discriminate|].
  rewrite ObjectParser_loop_unfold in H. simpl in H.
  injection H as <- <-. split; [reflexivity|]. now rewrite P1, E.
Qed.

Lemma object_delim_close dispatch n template target lex r :
  skip_ws (pending lex) = 125 :: r ->
  exists lex',
    object_delim dispatch (S n) template target lex = Return target lex'
    /\ pending lex' = 125 :: r.
Proof.
  unfold object_delim. intros E.
  destruct (skipAndPeek_spec lex) as (lex1 & E1 & P1).
  rewrite (bind_Return _ _ _ _ _ E1), E. simpl.
  exists lex1. split; [reflexivity|]. now rewrite P1, E.
Qed.

Lemma object_delim_comma dispatch n template target lex r :
  skip_ws (pending lex) = 44 :: r ->
  exists lex1,
    pending lex1 = skip_ws r
    /\ object_delim dispatch n template target lex
       = ObjectParser_loop dispatch n template target
           (hd_error (skip_ws r)) lex1.
Proof.
  unfold object_delim. intros E.
  destruct (skipAndPeek_spec lex) as (lex1 & E1 & P1).
  rewrite (bind_Return _ _ _ _ _ E1), E. simpl. rewrite E in P1.
  destruct (nextChar_cons lex1 _ _ P1) as (lex2 & E2 & P2 & _).
  rewrite (bind_Return _ _ _ _ _ E2).
  destruct (skipAndPeek_spec lex2) as (lex3 & E3 & P3).
  rewrite (bind_Return _ _ _ _ _ E3), P2. exists lex3.
  split; [now rewrite P3, P2|reflexivity].
Qed.

(** ** Trailing commas *)

Section Commas.

Variable D : jsstring -> option Z.

Lemma dispatch_SBoolean fuel :
  dispatch D fuel SBoolean = (b <- booleanLiteral ;; ret (VBoolean b)).
Proof. reflexivity. Qed.

Lemma dispatch_SNumber fuel :
  dispatch D fuel SNumber = (n <- numberLiteral ;; ret (VNumber n)).
Proof. reflexivity. Qed.

Lemma dispatch_SString fuel :
  dispatch D fuel SString = (s <- stringLiteral ;; ret (VString s)).
Proof. reflexivity. Qed.

Lemma dispatch_SDate fuel :
  dispatch D fuel SDate
  = (string <- stringLiteral ;;
     match D string with
     | None => error (str "Expected date, got " ++ string ++ str ".")
     | Some t => ret (VDate t)
     end).
Proof. reflexivity. Qed.

Lemma dispatch_SArray fuel s l :
  dispatch D (S fuel) (SArray (s :: l))
  = (result <- collect (Lex_elements (dispatch D fuel) s) ;; ret (VArray result)).
Proof. reflexivity. Qed.

Lemma dispatch_SObject fuel o :
  dispatch D (S fuel) (SObject o) = ObjectParser_parse (dispatch D fuel) o.
Proof. reflexivity. Qed.

Lemma dispatch_SObjectPrototype fuel :
  dispatch D (S fuel) SObjectPrototype
  = ObjectParser_parse (dispatch D fuel) Object_prototype_sample.
Proof. reflexivity. Qed.

Lemma word_scalar_sim {X} (P : M X) (wrap : X -> Value) w :
  (forall rA rB, boundary rA -> boundary rB ->
     simws rA rB w (at_most (pred (length w))) P P) ->
  forall w0 lexA lexB rA rB v lexA',
    ws w0 -> all_bare w -> boundary rA -> boundary rB ->
    pending lexA = w0 ++ w ++ rA -> pending lexB = w0 ++ w ++ rB ->
    (x <- P ;; ret (wrap x)) lexA = Return v lexA' ->
    exists lexB',
      (x <- P ;; ret (wrap x)) lexB = Return v lexB'
      /\ (stuck (pending lexA')
          \/ (skip_ws (pending lexA') = skip_ws rA
              /\ skip_ws (pending lexB') = skip_ws rB)).
Proof.
  intros HP w0 lexA lexB rA rB v lexA' H0 Hw HrA HrB HA HB H.
  apply bind_inv in H. destruct H as (x & A1 & E & H). injection H as <- <-.
  destruct (HP rA rB HrA HrB w0 lexA lexB x A1 H0 Hw HA HB E)
    as (w' & B' & EB & (PA & PB & Hw') & _).
  exists B'. rewrite (bind_Return _ _ _ _ _ EB). split; [reflexivity|].
  destruct Hw' as [|c w' Hc _].
  - right. simpl in PA, PB. now rewrite PA, PB.
  - left. rewrite PA. exact Hc.
Qed.

Lemma doc_word_sim w : w <> [] -> all_bare w -> doc_sim D w w.
Proof.
  intros Hne Hw fuelA fuelB sample w0 lexA lexB rA rB v lexA'
    Hf H0 HrA HrB HA HB H.
  destruct (dispatch_head _ _ _ _ _ _ H) as (c & r & Hc & Hs).
  rewrite HA, skip_ws_app, skip_ws_word in Hc by (auto; congruence).
  assert (Hbare : bare c = true).
  { destruct Hw as [|c' w Hc' _]; [congruence|]. now injection Hc as <- _. }
  assert (L : (length w <= S (pred (length w)))%nat) by lia.
  assert (Hh : forall r1 r2 : list N, w = [] -> hard r1 /\ hard r2)
    by (intros; congruence).
  destruct sample; simpl in Hs; try contradiction;
    try (subst c; discriminate Hbare).
  - rewrite dispatch_SBoolean in *.
    apply (word_scalar_sim booleanLiteral VBoolean w) with (w0 := w0) (lexA := lexA);
      auto.
    intros. apply booleanLiteral_sim; auto.
  - rewrite dispatch_SNumber in *.
    apply (word_scalar_sim numberLiteral VNumber w) with (w0 := w0) (lexA := lexA);
      auto.
    intros. apply numberLiteral_sim; auto.
Qed.

Lemma doc_string_sim body :
  string_body body -> doc_sim D (string_token body) (string_token body).
Proof.
  intros Hb fuelA fuelB sample w0 lexA lexB rA rB v lexA'
    Hf H0 HrA HrB HA HB H.
  destruct (dispatch_head _ _ _ _ _ _ H) as (c & r & Hc & Hs).
  rewrite HA, skip_ws_app in Hc by assumption.
  simpl in Hc. injection Hc as <- _.
  destruct sample; simpl in Hs; try contradiction; try discriminate.
  - rewrite dispatch_SString in *.
    apply bind_inv in H. destruct H as (s & A1 & E & H).
    destruct (stringLiteral_frame _ _ _ _ _ _ H0 Hb HA E) as (PA & HBs).
    destruct (HBs lexB rB HB) as (B1 & EB & PB).
    exists B1. rewrite (bind_Return _ _ _ _ _ EB).
    injection H as <- <-.
    split; [reflexivity|]. right. now rewrite PA, PB.
  - rewrite dispatch_SDate in *.
    apply bind_inv in H. destruct H as (s & A1 & E & H).
    destruct (stringLiteral_frame _ _ _ _ _ _ H0 Hb HA E) as (PA & HBs).
    destruct (HBs lexB rB HB) as (B1 & EB & PB).
    exists B1. rewrite (bind_Return _ _ _ _ _ EB).
    destruct (D s); [|discriminate]. injection H as <- <-.
    split; [reflexivity|]. right. now rewrite PA, PB.
Qed.

Lemma dispatch_array_out s l lex : dispatch D 0 (SArray (s :: l)) lex = Diverge.
Proof. reflexivity. Qed.

Lemma doc_array_wrap xa xb :
  (forall fuelA fuelB nA nB sample lexA lexB rA rB ys lexA',
     (fuelA <= fuelB)%nat -> (length xb < nB)%nat ->
     pending lexA = xa ++ 93 :: rA -> pending lexB = xb ++ 93 :: rB ->
     elements_loop (dispatch D fuelA) nA sample lexA = (ys, Return tt lexA') ->
     exists lexB',
       elements_loop (dispatch D fuelB) nB sample lexB = (ys, Return tt lexB')
       /\ pending lexA' = 93 :: rA /\ pending lexB' = 93 :: rB) ->
  doc_sim D (91 :: xa ++ [93]) (91 :: xb ++ [93]).
Proof.
  intros Hloop fuelA fuelB sample w0 lexA lexB rA rB v lexA'
    Hf H0 HrA HrB HA HB H.
  destruct (dispatch_head _ _ _ _ _ _ H) as (c & r & Hc & Hs).
  rewrite HA, skip_ws_app in Hc by assumption.
  simpl in Hc. injection Hc as <- _.
  destruct sample as [| | | | | | |l| |]; simpl in Hs;
    try contradiction; try discriminate.
  destruct l as [|s l]; [discriminate|].
  destruct fuelA as [|fA]; [discriminate|].
  destruct fuelB as [|fB]; [lia|]. apply le_S_n in Hf.
  rewrite dispatch_SArray in *.
  apply bind_inv in H. destruct H as (result & A1 & E & H).
  injection H as <- <-. apply collect_inv in E.
  unfold Lex_elements in E.
  apply gbind_inv in E. destruct E as (ys1 & [] & A2 & ys2 & E1 & E & ->).
  apply lift_inv in E1. destruct E1 as [-> E1].
  apply skipAndExpect_inv in E1. destruct E1 as (r1 & E1 & PA2).
  rewrite HA, skip_ws_app in E1 by assumption.
  simpl in E1. rewrite <- app_assoc in E1. injection E1 as <-.
  apply gbind_inv in E. destruct E as (ys3 & [] & A3 & ys4 & E3 & E4 & ->).
  apply lift_inv in E4. destruct E4 as [-> E4].
  destruct (skipAndExpect_take "[" lexB (xb ++ 93 :: rB)) as (B2 & EB2 & PB2).
  { rewrite HB, skip_ws_app by assumption. simpl. now rewrite <- app_assoc. }
  destruct (Hloop fA fB (S (length (pending A2))) (S (length (pending B2)))
              s A2 B2 rA rB ys3 A3 Hf) as (B3 & EB3 & PA3 & PB3); auto.
  { rewrite PB2, length_app. simpl. lia. }
  destruct (expect_one 93 A3 rA) as (A4 & EA4 & PA4);
    [now rewrite PA3, skip_ws_stop|].
  change (str "]") with [93] in E4. rewrite E4 in EA4. injection EA4 as <-.
  destruct (expect_one 93 B3 rB) as (B4 & EB4 & PB4);
    [now rewrite PB3, skip_ws_stop|].
  exists B4. split.
  - assert (EC : collect (Lex_elements (dispatch D fB) s) lexB
                 = Return (ys3 ++ []) B4).
    { apply collect_run. unfold Lex_elements.
      rewrite (gbind_lift _ _ _ _ _ EB2).
      apply gbind_run with (a := tt) (lex1 := B3); [exact EB3|].
      unfold lift. change (str "]") with [93]. now rewrite EB4. }
    rewrite (bind_Return _ _ _ _ _ EC). reflexivity.
  - right. now rewrite PA4, PB4.
Qed.

Lemma ObjectParser_parse_wrap ch w1 ma mb fA fB :
  ws w1 -> white ch = false ->
  (forall r, exists t, ma ++ 125 :: r = ch :: t) ->
  (forall r, exists t, mb ++ 125 :: r = ch :: t) ->
  (forall nA nB template target lexA lexB rA rB t lexA',
     (length mb < nB)%nat ->
     pending lexA = ma ++ 125 :: rA -> pending lexB = mb ++ 125 :: rB ->
     ObjectParser_loop (dispatch D fA) nA template target (Some ch) lexA
     = Return t lexA' ->
     exists lexB',
       ObjectParser_loop (dispatch D fB) nB template target (Some ch) lexB
       = Return t lexB'
       /\ pending lexA' = 125 :: rA /\ pending lexB' = 125 :: rB) ->
  forall original w0 lexA lexB rA rB v lexA',
    ws w0 ->
    pending lexA = w0 ++ (123 :: w1 ++ ma ++ [125]) ++ rA ->
    pending lexB = w0 ++ (123 :: w1 ++ mb ++ [125]) ++ rB ->
    ObjectParser_parse (dispatch D fA) original lexA = Return v lexA' ->
    exists lexB',
      ObjectParser_parse (dispatch D fB) original lexB = Return v lexB'
      /\ pending lexA' = skip_ws rA /\ pending lexB' = skip_ws rB.
Proof.
  intros H1 Hch Hma Hmb Hloop original w0 lexA lexB rA rB v lexA' H0 HA HB H.
  unfold ObjectParser_parse in *.
  set (template := match beforeParse original with
                   | Some t => t | None => original end) in *.
  (* the opening brace *)
  apply bind_inv in H. destruct H as ([] & A1 & E1 & H).
  apply skipAndExpect_inv in E1. destruct E1 as (r1 & E1 & PA1).
  rewrite HA, skip_ws_app in E1 by assumption.
  simpl in E1. repeat rewrite <- app_assoc in E1. injection E1 as <-.
  destruct (skipAndExpect_take "{" lexB (w1 ++ mb ++ 125 :: rB))
    as (B1 & EB1 & PB1).
  { rewrite HB, skip_ws_app by assumption. simpl.
    now repeat rewrite <- app_assoc. }
  rewrite (bind_Return _ _ _ _ _ EB1).
  (* the character ahead *)
  destruct (Hma rA) as (tA & HtA). destruct (Hmb rB) as (tB & HtB).
  destruct (skipAndPeek_spec A1) as (A2 & E2 & PA2).
  rewrite PA1, skip_ws_app, HtA, skip_ws_stop in E2, PA2 by assumption.
  rewrite (bind_Return _ _ _ _ _ E2) in H. rewrite <- HtA in PA2.
  destruct (skipAndPeek_spec B1) as (B2 & EB2 & PB2).
  rewrite PB1, skip_ws_app, HtB, skip_ws_stop in EB2, PB2 by assumption.
  rewrite (bind_Return _ _ _ _ _ EB2). rewrite <- HtB in PB2.
  cbn [hd_error] in *.
  (* the members *)
  apply bind_inv in H. destruct H as (target & A3 & E3 & H).
  destruct (Hloop (S (length (pending A2))) (S (length (pending B2)))
              template (VObject []) A2 B2 rA rB target A3)
    as (B3 & EB3 & PA3 & PB3); auto.
  { rewrite PB2, length_app. simpl. lia. }
  rewrite (bind_Return
             (fun lex => ObjectParser_loop (dispatch D fB)
                           (S (length (pending lex))) template (VObject []) (Some ch) lex)
             _ B2 _ _ EB3).
  (* the closing brace *)
  apply bind_inv in H. destruct H as ([] & A4 & E4 & H).
  apply skipAndExpect_inv in E4. destruct E4 as (r4 & E4 & PA4).
  rewrite PA3 in E4. simpl in E4. injection E4 as <-.
  destruct (skipAndExpect_take "}" B3 rB) as (B4 & EB4 & PB4);
    [now rewrite PB3|].
  rewrite (bind_Return _ _ _ _ _ EB4).
  (* the hook, the checker, the skip that was not awaited *)
  apply bind_inv in H. destruct H as ([] & A5 & E5 & H).
  apply check_indep in E5. destruct E5 as (-> & E5).
  rewrite (bind_Return _ _ _ _ _ (E5 B4)).
  apply bind_inv in H. destruct H as ([] & A6 & E6 & H).
  injection H as <- <-.
  destruct (skip_spec A4) as (A7 & E7 & PA7).
  rewrite E6 in E7. injection E7 as <-.
  destruct (skip_spec B4) as (B5 & EB5 & PB5).
  rewrite (bind_Return _ _ _ _ _ EB5).
  exists B5. split; [reflexivity|]. now rewrite PA7, PB5, PA4, PB4.
Qed.

Lemma stuck_skip_ws l : stuck l -> skip_ws l = l.
Proof.
  destruct l as [|c l]; simpl; [tauto|]. intros H.
  now rewrite (bare_not_white c H).
Qed.

Lemma stuck_no_delimiter l c r :
  stuck l -> skip_ws l = c :: r -> c = 44 \/ c = 93 \/ c = 125 -> False.
Proof.
  intros Hs E Hc. rewrite (stuck_skip_ws l Hs) in E. subst l. simpl in Hs.
  destruct Hc as [->|[->| ->]]; discriminate.
Qed.

(** One item of an array: from the look ahead to the value. *)
Lemma item_step a b fA fB :
  Doc a b -> doc_sim D a b -> (fA <= fB)%nat ->
  forall nA sample w0 lexA lexB restA restB ys lexA',
    ws w0 -> boundary restA -> boundary restB ->
    pending lexA = w0 ++ a ++ restA -> pending lexB = w0 ++ b ++ restB ->
    elements_loop (dispatch D fA) (S nA) sample lexA = (ys, Return tt lexA') ->
    exists x ys' A2 B2,
      ys = x :: ys'
      /\ elements_delim (dispatch D fA) nA sample A2 = (ys', Return tt lexA')
      /\ skip_ws (pending A2) = skip_ws restA
      /\ skip_ws (pending B2) = skip_ws restB
      /\ forall nB,
           elements_loop (dispatch D fB) (S nB) sample lexB
           = (x :: fst (elements_delim (dispatch D fB) nB sample B2),
              snd (elements_delim (dispatch D fB) nB sample B2)).
Proof.
  intros Hd IH Hf nA sample w0 lexA lexB restA restB ys lexA'
    H0 HrA HrB HA HB H.
  destruct (Doc_head a b Hd) as (c & a' & b' & -> & -> & Hw & H93 & H125 & H44).
  rewrite elements_loop_unfold in H.
  destruct (skipAndPeek_spec lexA) as (A1 & E1 & PA1).
  rewrite HA, skip_ws_app in E1, PA1 by assumption.
  simpl in E1, PA1. rewrite Hw in E1, PA1. cbn [hd_error] in E1.
  rewrite (gbind_lift _ _ _ _ _ E1) in H.
  assert (T : char_eqb (Some c) "]" = false) by (simpl; now apply N.eqb_neq).
  rewrite T in H.
  apply gbind_yield_inv in H. destruct H as (x & A2 & ys' & EV & ED & ->).
  destruct (skipAndPeek_spec lexB) as (B1 & EB1 & PB1).
  rewrite HB, skip_ws_app in EB1, PB1 by assumption.
  simpl in EB1, PB1. rewrite Hw in EB1, PB1. cbn [hd_error] in EB1.
  destruct (IH fA fB sample [] A1 B1 restA restB x A2 Hf)
    as (B2 & EVB & Hpost); auto; try constructor.
  destruct Hpost as [Hstuck|[QA QB]].
  { exfalso. destruct (elements_delim_inv _ _ _ _ _ _ ED) as (d & r & Ed & Hd').
    apply (stuck_no_delimiter _ d r Hstuck Ed). tauto. }
  exists x, ys', A2, B2. repeat split; auto.
  intros nB. rewrite elements_loop_unfold, (gbind_lift _ _ _ _ _ EB1), T.
  now rewrite (gbind_yield _ _ _ _ _ EVB).
Qed.

Lemma white_not_bare c : white c = true -> bare c = false.
Proof. unfold bare. now intros ->. Qed.

Lemma boundary_ws w c r :
  ws w -> bare c = false -> boundary (w ++ c :: r).
Proof.
  intros Hw Hc. destruct Hw as [|d w' Hd _]; simpl;
    [exact Hc|now apply white_not_bare].
Qed.

Lemma skip_ws_to w c r :
  ws w -> white c = false -> skip_ws (w ++ c :: r) = c :: r.
Proof. intros Hw Hc. rewrite skip_ws_app by assumption. now apply skip_ws_stop. Qed.

Lemma Doc_nonempty a b : Doc a b -> (0 < length b)%nat.
Proof.
  intros H. destruct (Doc_head a b H) as (c & a' & b' & _ & -> & _).
  simpl. lia.
Qed.

Lemma items_last_sim a b w1 :
  Doc a b -> doc_sim D a b -> ws w1 -> items_sim D (a ++ w1) (b ++ w1).
Proof.
  intros Hd IH H1 fuelA fuelB nA nB sample w0 lexA lexB rA rB ys lexA'
    Hf Hn H0 HA HB H.
  destruct nA as [|nA]; [discriminate|].
  rewrite <- app_assoc in HA, HB.
  destruct (item_step a b fuelA fuelB Hd IH Hf nA sample w0 lexA lexB
              _ _ ys lexA' H0 (boundary_ws w1 93 rA H1 eq_refl)
              (boundary_ws w1 93 rB H1 eq_refl) HA HB H)
    as (x & ys' & A2 & B2 & -> & ED & QA & QB & HBrun).
  rewrite skip_ws_to in QA, QB by auto.
  destruct (elements_delim_close_inv _ _ _ _ _ _ _ QA ED) as (-> & PA).
  pose proof (Doc_nonempty a b Hd) as Lb. rewrite length_app in Hn.
  destruct nB as [|[|nB]]; try lia.
  destruct (elements_delim_close (dispatch D fuelB) nB sample B2 rB QB)
    as (B3 & EB3 & PB3).
  exists B3. rewrite HBrun, EB3. auto.
Qed.

Lemma items_trailing_sim a b w1 w2 :
  Doc a b -> doc_sim D a b -> ws w1 -> ws w2 ->
  items_sim D (a ++ w1 ++ w2) (b ++ w1 ++ 44 :: w2).
Proof.
  intros Hd IH H1 H2 fuelA fuelB nA nB sample w0 lexA lexB rA rB ys lexA'
    Hf Hn H0 HA HB H.
  destruct nA as [|nA]; [discriminate|].
  repeat rewrite <- app_assoc in HA, HB. simpl in HB.
  assert (H12 : ws (w1 ++ w2)) by (apply Forall_app; auto).
  rewrite (app_assoc w1 w2) in HA.
  destruct (item_step a b fuelA fuelB Hd IH Hf nA sample w0 lexA lexB
              _ _ ys lexA' H0 (boundary_ws (w1 ++ w2) 93 rA H12 eq_refl)
              (boundary_ws w1 44 (w2 ++ 93 :: rB) H1 eq_refl) HA HB H)
    as (x & ys' & A2 & B2 & -> & ED & QA & QB & HBrun).
  rewrite skip_ws_to in QA, QB by auto.
  destruct (elements_delim_close_inv _ _ _ _ _ _ _ QA ED) as (-> & PA).
  pose proof (Doc_nonempty a b Hd) as Lb. rewrite length_app in Hn.
  destruct nB as [|[|nB]]; try lia.
  destruct (elements_delim_comma (dispatch D fuelB) (S nB) sample B2 _ QB)
    as (B3 & PB3 & EB3).
  destruct (elements_loop_close (dispatch D fuelB) nB sample B3 rB)
    as (B4 & EB4 & PB4); [rewrite PB3; now apply skip_ws_to|].
  exists B4. rewrite HBrun, EB3, EB4. auto.
Qed.

Lemma items_more_sim a b w1 w2 ra rb :
  Doc a b -> doc_sim D a b -> ws w1 -> ws w2 -> items_sim D ra rb ->
  items_sim D (a ++ w1 ++ 44 :: w2 ++ ra) (b ++ w1 ++ 44 :: w2 ++ rb).
Proof.
  intros Hd IH H1 H2 IHr fuelA fuelB nA nB sample w0 lexA lexB rA rB ys lexA'
    Hf Hn H0 HA HB H.
  destruct nA as [|nA]; [discriminate|].
  repeat rewrite <- app_assoc in HA, HB. simpl in HA, HB.
  repeat rewrite <- app_assoc in HA, HB.
  destruct (item_step a b fuelA fuelB Hd IH Hf nA sample w0 lexA lexB
              _ _ ys lexA' H0
              (boundary_ws w1 44 (w2 ++ ra ++ 93 :: rA) H1 eq_refl)
              (boundary_ws w1 44 (w2 ++ rb ++ 93 :: rB) H1 eq_refl) HA HB H)
    as (x & ys' & A2 & B2 & -> & ED & QA & QB & HBrun).
  rewrite skip_ws_to in QA, QB by auto.
  destruct (elements_delim_comma (dispatch D fuelA) nA sample A2 _ QA)
    as (A3 & PA3 & EA3).
  rewrite EA3 in ED.
  destruct nB as [|nB]; [lia|].
  destruct (elements_delim_comma (dispatch D fuelB) nB sample B2 _ QB)
    as (B3 & PB3 & EB3).
  destruct (IHr fuelA fuelB nA nB sample w2 A3 B3 rA rB ys' lexA' Hf)
    as (B4 & EB4 & PA4 & PB4); auto.
  { rewrite !length_app in Hn. simpl in Hn. rewrite length_app in Hn. lia. }
  exists B4. rewrite HBrun, EB3, EB4. auto.
Qed.

(** One member of an object: the key, the colon and the value. *)
Lemma member_step k w1 w2 a b fA fB :
  string_body k -> ws w1 -> ws w2 -> Doc a b -> doc_sim D a b ->
  (fA <= fB)%nat ->
  forall nA template target lexA lexB restA restB t lexA',
    boundary restA -> boundary restB ->
    pending lexA = string_token k ++ w1 ++ 58 :: w2 ++ a ++ restA ->
    pending lexB = string_token k ++ w1 ++ 58 :: w2 ++ b ++ restB ->
    ObjectParser_loop (dispatch D fA) (S nA) template target (Some 34) lexA
    = Return t lexA' ->
    exists target' A4 B4,
      object_delim (dispatch D fA) nA template target' A4 = Return t lexA'
      /\ skip_ws (pending A4) = skip_ws restA
      /\ skip_ws (pending B4) = skip_ws restB
      /\ forall nB,
           ObjectParser_loop (dispatch D fB) (S nB) template target (Some 34) lexB
           = object_delim (dispatch D fB) nB template target' B4.
Proof.
  intros Hk H1 H2 Hd IH Hf nA template target lexA lexB restA restB t lexA'
    HrA HrB HA HB H.
  destruct (Doc_head a b Hd) as (c & a' & b' & Ea & Eb & Hw & _).
  rewrite ObjectParser_loop_unfold in H.
  change (char_eqb (Some 34) "034") with true in H. cbv iota in H.
  (* the key *)
  apply bind_inv in H. destruct H as (key & A1 & E1 & H).
  destruct (stringLiteral_frame lexA [] k _ key A1 (Forall_nil _) Hk HA E1)
    as (PA1 & HBs).
  destruct (HBs lexB _ HB) as (B1 & EB1 & PB1).
  (* the colon *)
  apply bind_inv in H. destruct H as ([] & A2 & E2 & H).
  apply skipAndExpect_inv in E2. destruct E2 as (r2 & E2 & PA2).
  rewrite PA1, skip_ws_to in E2 by auto. injection E2 as <-.
  destruct (skipAndExpect_take ":" B1 (w2 ++ b ++ restB)) as (B2 & EB2 & PB2);
    [rewrite PB1; now apply skip_ws_to|].
  (* the value *)
  apply bind_inv in H. destruct H as (target' & A4 & E4 & H).
  unfold addProperty in E4.
  destruct (lookup template key) as [sample|] eqn:L; [|discriminate].
  apply bind_inv in E4. destruct E4 as ([] & A3 & E3 & E4).
  apply bind_inv in E4. destruct E4 as (v & A5 & E5 & E4).
  injection E4 as <- <-.
  destruct (skip_spec A2) as (A3' & E3' & PA3).
  rewrite E3 in E3'. injection E3' as <-.
  rewrite PA2, skip_ws_app, Ea in PA3 by assumption.
  cbn [app] in PA3. rewrite skip_ws_stop in PA3 by assumption.
  destruct (skip_spec B2) as (B3 & EB3 & PB3).
  rewrite PB2, skip_ws_app, Eb in PB3 by assumption.
  cbn [app] in PB3. rewrite skip_ws_stop in PB3 by assumption.
  change (pending A3 = (c :: a') ++ restA) in PA3.
  change (pending B3 = (c :: b') ++ restB) in PB3.
  rewrite <- Ea in PA3. rewrite <- Eb in PB3.
  destruct (IH fA fB sample [] A3 B3 restA restB v A5 Hf)
    as (B4 & EVB & Hpost); auto; try constructor.
  destruct Hpost as [Hstuck|[QA QB]].
  { exfalso. destruct (object_delim_inv _ _ _ _ _ _ _ H) as (d & r & Ed & Hd').
    apply (stuck_no_delimiter _ d r Hstuck Ed). tauto. }
  exists (set_property target key v), A5, B4. repeat split; auto.
  intros nB. rewrite ObjectParser_loop_unfold.
  change (char_eqb (Some 34) "034") with true. cbv iota.
  rewrite (bind_Return _ _ _ _ _ EB1), (bind_Return _ _ _ _ _ EB2).
  unfold addProperty. rewrite L.
  unfold bind at 1. unfold bind at 1. rewrite EB3.
  unfold bind at 1. rewrite EVB. reflexivity.
Qed.

Lemma Members_head a b :
  Members a b -> exists a' b', a = 34 :: a' /\ b = 34 :: b'.
Proof. intros H. destruct H; unfold string_token; simpl; eauto. Qed.

Lemma Members_length a b : Members a b -> (1 < length b)%nat.
Proof.
  intros H. destruct H; unfold string_token; simpl;
    rewrite !length_app; simpl; lia.
Qed.

Ltac members_normalise HA HB :=
  repeat (progress (repeat rewrite <- app_assoc in HA; cbn [app] in HA));
  repeat (progress (repeat rewrite <- app_assoc in HB; cbn [app] in HB)).

Lemma members_last_sim k w1 w2 a b w3 :
  string_body k -> ws w1 -> ws w2 -> Doc a b -> doc_sim D a b -> ws w3 ->
  members_sim D (string_token k ++ w1 ++ 58 :: w2 ++ a ++ w3)
              (string_token k ++ w1 ++ 58 :: w2 ++ b ++ w3).
Proof.
  intros Hk H1 H2 Hd IH H3 fuelA fuelB nA nB template target lexA lexB rA rB
    t lexA' Hf Hn HA HB H.
  destruct nA as [|nA]; [discriminate|].
  members_normalise HA HB.
  destruct (member_step k w1 w2 a b fuelA fuelB Hk H1 H2 Hd IH Hf nA template
              target lexA lexB _ _ t lexA'
              (boundary_ws w3 125 rA H3 eq_refl)
              (boundary_ws w3 125 rB H3 eq_refl) HA HB H)
    as (target' & A4 & B4 & ED & QA & QB & HBrun).
  rewrite skip_ws_to in QA, QB by auto.
  destruct (object_delim_close_inv _ _ _ _ _ _ _ _ QA ED) as (-> & PA).
  assert (Lb : (1 < nB)%nat).
  { unfold string_token in Hn. simpl in Hn. rewrite !length_app in Hn.
    simpl in Hn. lia. }
  destruct nB as [|[|nB]]; try lia.
  destruct (object_delim_close (dispatch D fuelB) nB template target' B4 rB QB)
    as (B5 & EB5 & PB5).
  exists B5. rewrite HBrun, EB5. auto.
Qed.

Lemma members_trailing_sim k w1 w2 a b w3 w4 :
  string_body k -> ws w1 -> ws w2 -> Doc a b -> doc_sim D a b ->
  ws w3 -> ws w4 ->
  members_sim D (string_token k ++ w1 ++ 58 :: w2 ++ a ++ w3 ++ w4)
              (string_token k ++ w1 ++ 58 :: w2 ++ b ++ w3 ++ 44 :: w4).
Proof.
  intros Hk H1 H2 Hd IH H3 H4 fuelA fuelB nA nB template target lexA lexB
    rA rB t lexA' Hf Hn HA HB H.
  destruct nA as [|nA]; [discriminate|].
  members_normalise HA HB.
  assert (H34 : ws (w3 ++ w4)) by (apply Forall_app; auto).
  rewrite (app_assoc w3 w4) in HA.
  destruct (member_step k w1 w2 a b fuelA fuelB Hk H1 H2 Hd IH Hf nA template
              target lexA lexB _ _ t lexA'
              (boundary_ws (w3 ++ w4) 125 rA H34 eq_refl)
              (boundary_ws w3 44 (w4 ++ 125 :: rB) H3 eq_refl) HA HB H)
    as (target' & A4 & B4 & ED & QA & QB & HBrun).
  rewrite skip_ws_to in QA, QB by auto.
  destruct (object_delim_close_inv _ _ _ _ _ _ _ _ QA ED) as (-> & PA).
  assert (Lb : (1 < nB)%nat).
  { unfold string_token in Hn. simpl in Hn. rewrite !length_app in Hn.
    simpl in Hn. lia. }
  destruct nB as [|[|nB]]; try lia.
  destruct (object_delim_comma (dispatch D fuelB) (S nB) template target' B4 _ QB)
    as (B5 & PB5 & EB5).
  rewrite skip_ws_to in PB5, EB5 by auto.
  exists B5. rewrite HBrun, EB5, ObjectParser_loop_unfold. auto.
Qed.

Lemma members_more_sim k w1 w2 a b w3 w4 ra rb :
  string_body k -> ws w1 -> ws w2 -> Doc a b -> doc_sim D a b ->
  ws w3 -> ws w4 -> Members ra rb -> members_sim D ra rb ->
  members_sim D
    (string_token k ++ w1 ++ 58 :: w2 ++ a ++ w3 ++ 44 :: w4 ++ ra)
    (string_token k ++ w1 ++ 58 :: w2 ++ b ++ w3 ++ 44 :: w4 ++ rb).
Proof.
  intros Hk H1 H2 Hd IH H3 H4 Hm IHm fuelA fuelB nA nB template target
    lexA lexB rA rB t lexA' Hf Hn HA HB H.
  destruct nA as [|nA]; [discriminate|].
  members_normalise HA HB.
  destruct (member_step k w1 w2 a b fuelA fuelB Hk H1 H2 Hd IH Hf nA template
              target lexA lexB _ _ t lexA'
              (boundary_ws w3 44 (w4 ++ ra ++ 125 :: rA) H3 eq_refl)
              (boundary_ws w3 44 (w4 ++ rb ++ 125 :: rB) H3 eq_refl) HA HB H)
    as (target' & A4 & B4 & ED & QA & QB & HBrun).
  rewrite skip_ws_to in QA, QB by auto.
  destruct (Members_head ra rb Hm) as (ra' & rb' & Era & Erb).
  destruct (object_delim_comma (dispatch D fuelA) nA template target' A4 _ QA)
    as (A5 & PA5 & EA5).
  destruct nB as [|nB]; [lia|].
  destruct (object_delim_comma (dispatch D fuelB) nB template target' B4 _ QB)
    as (B5 & PB5 & EB5).
  rewrite skip_ws_app in PA5, EA5, PB5, EB5 by assumption.
  rewrite Era in PA5, EA5. rewrite Erb in PB5, EB5.
  cbn [app hd_error] in PA5, EA5, PB5, EB5.
  rewrite skip_ws_stop in PA5, EA5, PB5, EB5 by reflexivity.
  cbn [hd_error] in EA5, EB5.
  change (pending A5 = (34 :: ra') ++ 125 :: rA) in PA5.
  change (pending B5 = (34 :: rb') ++ 125 :: rB) in PB5.
  rewrite <- Era in PA5. rewrite <- Erb in PB5.
  rewrite EA5 in ED.
  destruct (IHm fuelA fuelB nA nB template target' A5 B5 rA rB t lexA' Hf)
    as (B6 & EB6 & PA6 & PB6); auto.
  { unfold string_token in Hn.
    repeat (progress (rewrite ?length_app in Hn; cbn [length app] in Hn)).
    lia. }
  exists B6. rewrite HBrun, EB5, EB6. auto.
Qed.

Lemma dispatch_object_out o lex : dispatch D 0 (SObject o) lex = Diverge.
Proof. reflexivity. Qed.

Lemma doc_object_wrap ch w1 ma mb :
  ws w1 -> white ch = false ->
  (forall r, exists t, ma ++ 125 :: r = ch :: t) ->
  (forall r, exists t, mb ++ 125 :: r = ch :: t) ->
  (forall fA fB nA nB template target lexA lexB rA rB t lexA',
     (fA <= fB)%nat -> (length mb < nB)%nat ->
     pending lexA = ma ++ 125 :: rA -> pending lexB = mb ++ 125 :: rB ->
     ObjectParser_loop (dispatch D fA) nA template target (Some ch) lexA
     = Return t lexA' ->
     exists lexB',
       ObjectParser_loop (dispatch D fB) nB template target (Some ch) lexB
       = Return t lexB'
       /\ pending lexA' = 125 :: rA /\ pending lexB' = 125 :: rB) ->
  doc_sim D (123 :: w1 ++ ma ++ [125]) (123 :: w1 ++ mb ++ [125]).
Proof.
  intros H1 Hch Hma Hmb Hloop fuelA fuelB sample w0 lexA lexB rA rB v lexA'
    Hf H0 HrA HrB HA HB H.
  destruct (dispatch_head _ _ _ _ _ _ H) as (c & r & Hc & Hs).
  rewrite HA, skip_ws_app in Hc by assumption.
  simpl in Hc. injection Hc as <- _.
  destruct fuelA as [|fA];
    [destruct sample; simpl in Hs; try contradiction; discriminate|].
  destruct fuelB as [|fB]; [lia|]. apply le_S_n in Hf.
  assert (Hgo : forall original,
    ObjectParser_parse (dispatch D fA) original lexA = Return v lexA' ->
    exists lexB',
      ObjectParser_parse (dispatch D fB) original lexB = Return v lexB'
      /\ (stuck (pending lexA')
          \/ (skip_ws (pending lexA') = skip_ws rA
              /\ skip_ws (pending lexB') = skip_ws rB))).
  { intros original Hp.
    destruct (ObjectParser_parse_wrap ch w1 ma mb fA fB H1 Hch Hma Hmb
                (fun nA nB template target lexA lexB rA rB t lexA' =>
                   Hloop fA fB nA nB template target lexA lexB rA rB t lexA' Hf)
                original w0 lexA lexB rA rB v lexA' H0 HA HB Hp)
      as (B' & EB & PA & PB).
    exists B'. split; [exact EB|]. right.
    now rewrite PA, PB, !skip_ws_idem. }
  destruct sample; simpl in Hs; try contradiction; try discriminate.
  - rewrite dispatch_SObject in *. now apply Hgo.
  - rewrite dispatch_SObjectPrototype in *. now apply Hgo.
Qed.

(** Whatever a handler returns on a document it returns on the document
    with trailing commas. *)
Lemma trailing_commas_sim :
  (forall a b, Doc a b -> doc_sim D a b)
  /\ (forall a b, Items a b -> items_sim D a b)
  /\ (forall a b, Members a b -> members_sim D a b).
Proof.
  apply Doc_Items_Members_ind.
  - exact doc_word_sim.
  - exact doc_string_sim.
  - intros w0 H0. apply doc_array_wrap.
    intros fuelA fuelB nA nB sample lexA lexB rA rB ys lexA' _ Hn HA HB H.
    destruct nA as [|nA]; [discriminate|].
    destruct (elements_loop_close (dispatch D fuelA) nA sample lexA rA)
      as (A1 & EA & PA); [rewrite HA; now apply skip_ws_to|].
    rewrite EA in H. injection H as <- <-.
    destruct nB as [|nB]; [lia|].
    destruct (elements_loop_close (dispatch D fuelB) nB sample lexB rB)
      as (B1 & EB & PB); [rewrite HB; now apply skip_ws_to|].
    exists B1. auto.
  - intros w0 a b H0 Hi IH.
    rewrite !(app_assoc w0). apply doc_array_wrap.
    intros fuelA fuelB nA nB sample lexA lexB rA rB ys lexA' Hf Hn HA HB H.
    rewrite <- app_assoc in HA, HB.
    apply (IH fuelA fuelB nA nB sample w0 lexA lexB rA rB ys lexA'); auto.
    rewrite length_app in Hn. lia.
  - intros w0 H0.
    apply (doc_object_wrap 125 w0 [] []); auto.
    + intros r. exists r. reflexivity.
    + intros r. exists r. reflexivity.
    + intros fA fB nA nB template target lexA lexB rA rB t lexA' _ Hn HA HB H.
      destruct nA as [|nA]; [discriminate|].
      destruct nB as [|nB]; [simpl in Hn; lia|].
      rewrite ObjectParser_loop_unfold in *. simpl in H. injection H as <- <-.
      exists lexB. auto.
  - intros w0 a b H0 Hm IH.
    destruct (Members_head a b Hm) as (a' & b' & Ea & Eb).
    apply (doc_object_wrap 34 w0 a b); auto.
    + intros r. exists (a' ++ 125 :: r). now rewrite Ea.
    + intros r. exists (b' ++ 125 :: r). now rewrite Eb.
  - intros a b w1 Hd IH H1. now apply items_last_sim.
  - intros a b w1 w2 Hd IH H1 H2. now apply items_trailing_sim.
  - intros a b w1 w2 ra rb Hd IH H1 H2 Hi IHi. now apply items_more_sim.
  - intros k w1 w2 a b w3 Hk H1 H2 Hd IH H3. now apply members_last_sim.
  - intros k w1 w2 a b w3 w4 Hk H1 H2 Hd IH H3 H4.
    now apply members_trailing_sim.
  - intros k w1 w2 a b w3 w4 ra rb Hk H1 H2 Hd IH H3 H4 Hm IHm.
    now apply members_more_sim.
Qed.

Lemma Doc_length :
  (forall a b, Doc a b -> (length a <= length b)%nat)
  /\ (forall a b, Items a b -> (length a <= length b)%nat)
  /\ (forall a b, Members a b -> (length a <= length b)%nat).
Proof.
  apply Doc_Items_Members_ind; intros; unfold string_token;
    repeat (progress (rewrite ?length_app; cbn [length app])); lia.
Qed.

Lemma ws_boundary w : ws w -> boundary w.
Proof.
  intros [|c w' Hc _]; simpl; [exact I|now apply white_not_bare].
Qed.

Lemma skip_ws_all w : ws w -> skip_ws w = [].
Proof.
  intros H. rewrite <- (app_nil_r w). now rewrite skip_ws_app.
Qed.

Lemma parse_on_trailing_commas sample a b w0 w1 lexA lexB v lexA' :
  Doc a b -> ws w0 -> ws w1 ->
  pending lexA = w0 ++ a ++ w1 -> pending lexB = w0 ++ b ++ w1 ->
  parse_on (types D) sample lexA = Return v lexA' ->
  exists lexB', parse_on (types D) sample lexB = Return v lexB'.
Proof.
  intros Hd H0 H1 HA HB H. unfold parse_on in *.
  apply bind_inv in H. destruct H as (result & A1 & E & H).
  assert (Hf : (depth lexA <= depth lexB)%nat).
  { unfold depth. rewrite HA, HB, !length_app.
    pose proof (proj1 Doc_length a b Hd). lia. }
  destruct (proj1 trailing_commas_sim a b Hd (depth lexA) (depth lexB) sample
              w0 lexA lexB w1 w1 result A1 Hf H0 (ws_boundary w1 H1)
              (ws_boundary w1 H1) HA HB E) as (B1 & EB & Hpost).
  fold (dispatch D (depth lexB)). rewrite (bind_Return _ _ _ _ _ EB).
  apply bind_inv in H. destruct H as ([] & A2 & E2 & H).
  destruct (skip_spec A1) as (A2' & E2' & PA2). rewrite E2 in E2'.
  injection E2' as <-.
  destruct (peek_spec A2) as (A3 & E3 & _).
  rewrite (bind_Return _ _ _ _ _ E3), PA2 in H.
  destruct Hpost as [Hstuck|[QA QB]].
  { exfalso. rewrite (stuck_skip_ws _ Hstuck) in H.
    destruct (pending A1); [contradiction|discriminate]. }
  rewrite QA, (skip_ws_all w1 H1) in H. injection H as <- <-.
  destruct (skip_spec B1) as (B2 & EB2 & PB2).
  rewrite (bind_Return _ _ _ _ _ EB2).
  destruct (peek_spec B2) as (B3 & EB3 & _).
  rewrite (bind_Return _ _ _ _ _ EB3), PB2, QB, (skip_ws_all w1 H1).
  exists B3. reflexivity.
Qed.

End Commas.

Lemma pending_new stream : pending (Lex.new stream) = concat (map chunk_chars stream).
Proof. reflexivity. Qed.



(** ** Runs on the inputs of the specification *)

Example parse_array_of_numbers :
  parse (types no_dates) (SArray [SNumber]) (OfString (str "[11,22,33,44]"))
  = Fulfilled (VArray [num 11; num 22; num 33; num 44]).
Proof. vm_compute. reflexivity. Qed.

(** C1: the exported [elements], called with an element sample for numbers
    over the input [[11,22,33,44]], yields no value at all: its body
    returns the generator of [Lex.elements] instead of delegating to it.
    That inner generator, which the caller gets as the return value, is the
    one that yields 11, 22, 33, 44 and then ends. *)
Theorem elements_returns_without_yielding (D : jsstring -> option Z) :
  let g := elements (types D) SNumber (OfString (str "[11,22,33,44]")) in
  yielded g = []
  /\ returned g
     = Fulfilled (mkGenerator [num 11; num 22; num 33; num 44] (Fulfilled tt)).
Proof. vm_compute. split; reflexivity. Qed.

(** C2: the round trip fails on the string value made of one solidus when
    the serializer writes it with the escape the document grammar allows
    (backslash, solidus): [parse] rejects the text. *)
Theorem round_trip_fails_on_escaped_solidus (D : jsstring -> option Z) :
  parse (types D) SString (OfString (quoted "\/"))
  = Rejected (SyntaxError
      (str "(Line:1, character:4): Invalid escaped character."))
  /\ parse (types D) SString (OfString (quoted "/"))
     = Fulfilled (VString (str "/")).
Proof. vm_compute. split; reflexivity. Qed.

(** C4: [stringLiteral] rejects the escape of the solidus with the error
    for an unknown escape, while the seven other one-character escapes and
    the four-digit unicode escape decode to their characters. *)
Theorem stringLiteral_escapes :
  settle (stringLiteral (Lex.new (toStream (OfString (quoted "\/")))))
  = Rejected (SyntaxError
      (str "(Line:1, character:4): Invalid escaped character."))
  /\ settle (stringLiteral (Lex.new (toStream
       (OfString ([34; 92; 34] ++ str "\\\b\f\n\r\t\u1111/" ++ [34])))))
     = Fulfilled [34; 92; 8; 12; 10; 13; 9; 4369; 47].
Proof. vm_compute. split; reflexivity. Qed.

(** C5, as amended: [numberLiteral] on [003] fails with the leading-zeroes
    message at line 1, character 4, the position behind the run of digits
    it has read; on [0] alone it returns the number 0. *)
Theorem numberLiteral_leading_zeroes :
  settle (numberLiteral (Lex.new (toStream (OfString (str "003")))))
  = Rejected (SyntaxError
      (str "(Line:1, character:4): Invalid number (leading zeroes.)"))
  /\ settle (numberLiteral (Lex.new (toStream (OfString (str "0")))))
     = Fulfilled (mkNumber false 0 0).
Proof. vm_compute. split; reflexivity. Qed.

(** C5 as stated, with the error at character 3, does not hold. *)
Lemma numberLiteral_leading_zeroes_not_at_third :
  ~ (settle (numberLiteral (Lex.new (toStream (OfString (str "003")))))
     = Rejected (SyntaxError
         (str "(Line:1, character:3): Invalid number (leading zeroes.)"))
     /\ settle (numberLiteral (Lex.new (toStream (OfString (str "0")))))
        = Fulfilled (mkNumber false 0 0)).
Proof. vm_compute. intros [H _]. discriminate H. Qed.

(** C6, as amended: parsing the object with the one member [p : v] against
    the sample [{s:""}] fails with "No such property: p" at line 1,
    character 6, the position behind the colon that follows the key. *)
Theorem unknown_property (D : jsstring -> option Z) :
  parse (types D) sample_s
    (OfString ([123] ++ quoted "p" ++ str ":" ++ quoted "v" ++ [125]))
  = Rejected (SyntaxError (str "(Line:1, character:6): No such property: p")).
Proof. vm_compute. reflexivity. Qed.

(** C6 as stated, with the error right behind the key (character 5), does
    not hold. *)
Lemma unknown_property_not_behind_key :
  parse (types no_dates) sample_s
    (OfString ([123] ++ quoted "p" ++ str ":" ++ quoted "v" ++ [125]))
  <> Rejected (SyntaxError (str "(Line:1, character:5): No such property: p")).
Proof. vm_compute. discriminate. Qed.

(** C7: with an empty array for sample the array handler fails with "No
    sample element in sample array." at the position the cursor is at,
    whatever the input: as the root sample at line 1, character 1 for
    every source, and as the sample of a property behind the white space
    that [addProperty] skips. *)
Theorem empty_sample_array (D : jsstring -> option Z) :
  (forall lex cursor,
     type_parse (types D) lex (SArray []) cursor
     = Throw (error_at cursor (str "No sample element in sample array.")))
  /\ (forall source,
     parse (types D) (SArray []) source
     = Rejected (SyntaxError
         (str "(Line:1, character:1): No sample element in sample array.")))
  /\ (forall lex key properties before after target cursor,
     exists cursor',
       skip cursor = Return tt cursor'
       /\ addProperty (type_parse (types D) lex)
            (mkObject ((key, SArray []) :: properties) before after)
            target key cursor
          = Throw (error_at cursor'
                     (str "No sample element in sample array."))).
Proof.
  split; [|split]; try (intros; reflexivity).
  intros lex key props before after target cursor.
  destruct (skip_spec cursor) as (cursor' & E & _).
  exists cursor'. split; [exact E|].
  unfold addProperty, lookup. simpl. rewrite jsstring_eqb_refl.
  now rewrite (bind_Return _ _ _ _ _ E).
Qed.

(** C8: parsing [{}] against the sample [{s:""}] fails with "Missing
    required property: s" at line 1, character 3, the position behind the
    closing brace. *)
Theorem missing_required_property (D : jsstring -> option Z) :
  parse (types D) sample_s (OfString (str "{}"))
  = Rejected (SyntaxError
      (str "(Line:1, character:3): Missing required property: s")).
Proof. vm_compute. reflexivity. Qed.

(** C10: for the sample [null] the lookup selects the object handler, and
    [parse] rejects with the host's TypeError, which carries no position,
    whatever the source. *)
Theorem null_sample (D : jsstring -> option Z) (source : Stream) :
  find (fun x => isValid x SNull) (types D) = Some object_type
  /\ parse (types D) SNull source = Rejected EngineTypeError.
Proof. split; reflexivity. Qed.

(** * Further properties of the cursor, the registry and the parsers *)

(** ** The cursor: look ahead, end of stream, positions *)

Lemma peek_position (lex : Lex.t) :
  exists lex',
    peek lex = Return (hd_error (pending lex)) lex'
    /\ pending lex' = pending lex
    /\ position lex' = position lex
    /\ peek lex' = Return (hd_error (pending lex)) lex'
    /\ (pending lex = [] -> Lex.eof lex' = true).
Proof.
  destruct lex as [rd cs ix e ln cn]. unfold peek, pending, position; simpl.
  destruct e; simpl.
  - eexists. split; [reflexivity|]. simpl. auto.
  - destruct (length cs <=? ix)%nat eqn:E.
    + apply Nat.leb_le in E. rewrite (skipn_all2 cs E). simpl.
      destruct rd as [|[c r] rest]; simpl.
      * eexists. split; [reflexivity|]. simpl. auto.
      * eexists. split; [reflexivity|]. simpl.
        repeat split; auto. discriminate.
    + exists (Lex.mk rd cs ix false ln cn). simpl. rewrite E.
      rewrite nth_error_skipn.
      apply Nat.leb_gt in E.
      destruct (skipn ix cs) eqn:Hs.
      { apply (f_equal (@length _)) in Hs. rewrite length_skipn in Hs.
        simpl in Hs. lia. }
      simpl. repeat split; auto. discriminate.
Qed.

(** X1: [peek] never consumes.  It returns the first pending character, or
    the empty string when none is left, and leaves the pending text and
    the position as they are; asked again it answers the same and changes
    nothing more; and once the text is exhausted the end-of-stream flag is
    set and stays. *)
Theorem peek_looks_ahead (lex : Lex.t) :
  exists lex',
    peek lex = Return (hd_error (pending lex)) lex'
    /\ pending lex' = pending lex
    /\ position lex' = position lex
    /\ peek lex' = Return (hd_error (pending lex)) lex'
    /\ (pending lex = [] -> Lex.eof lex' = true).
Proof. exact (peek_position lex). Qed.

Lemma nextChar_position lex c r :
  pending lex = c :: r ->
  exists lex',
    nextChar lex = Return (Some c) lex'
    /\ pending lex' = r /\ Lex.eof lex' = false
    /\ position lex' = advance_char (position lex) c.
Proof.
  intros H. unfold nextChar, bind.
  destruct lex as [rd cs ix e ln cn].
  unfold peek, pending, position, advance_char in *; simpl in *.
  destruct e; [discriminate|].
  destruct (length cs <=? ix)%nat eqn:E.
  - apply Nat.leb_le in E. rewrite (skipn_all2 cs E) in H. simpl in H.
    destruct rd as [|[c' r'] rest]; simpl in H; [discriminate|].
    injection H as -> <-. simpl. eexists; split; [reflexivity|].
    simpl. repeat split. now destruct (c =? 10).
  - rewrite nth_error_skipn.
    destruct (skipn ix cs) as [|c' t] eqn:Hs; simpl in H.
    + apply Nat.leb_gt in E.
      apply (f_equal (@length _)) in Hs. rewrite length_skipn in Hs.
      simpl in Hs. lia.
    + injection H as -> <-. simpl. eexists; split; [reflexivity|].
      simpl. split; [|split; [reflexivity|now destruct (c =? 10)]].
      change (skipn (S ix) cs ++ concat (map chunk_chars rd)
              = t ++ concat (map chunk_chars rd)).
      rewrite skipn_S_tl, Hs. reflexivity.
Qed.

Lemma nextChar_end lex :
  pending lex = [] ->
  exists lex',
    nextChar lex = Return None lex'
    /\ pending lex' = [] /\ Lex.eof lex' = true
    /\ position lex' = position lex.
Proof.
  intros H. unfold nextChar, bind.
  destruct (peek_position lex) as (lex' & Hp & Hq & Hpos & _ & He).
  rewrite Hp, H. simpl. exists lex'. unfold ret. repeat split; auto.
  congruence.
Qed.

Lemma white_prefix_split l : l = white_prefix l ++ skip_ws l.
Proof.
  induction l as [|c r IH]; simpl; [reflexivity|].
  destruct (white c); simpl; [now rewrite <- IH|reflexivity].
Qed.

Lemma white_prefix_ws l : ws (white_prefix l).
Proof.
  induction l as [|c r IH]; simpl; [constructor|].
  destruct (white c) eqn:W; constructor; assumption.
Qed.

Lemma skip_ws_head l :
  match skip_ws l with
  | c :: _ => isWhite (Some c) = false
  | [] => True
  end.
Proof.
  induction l as [|c r IH]; simpl; [exact I|].
  destruct (white c) eqn:W; [exact IH|exact W].
Qed.

Lemma advance_pos_cons p c t :
  advance_pos p (c :: t) = advance_pos (advance_char p c) t.
Proof. reflexivity. Qed.

Lemma advance_pos_app p s t :
  advance_pos p (s ++ t) = advance_pos (advance_pos p s) t.
Proof. apply fold_left_app. Qed.

Lemma skip_loop_position : forall n lex,
  (length (pending lex) < n)%nat ->
  exists lex',
    skip_loop n lex = Return tt lex'
    /\ pending lex' = skip_ws (pending lex)
    /\ position lex' = advance_pos (position lex) (white_prefix (pending lex)).
Proof.
  induction n as [|n IH]; intros lex Hn; [lia|]. simpl.
  destruct (peek_position lex) as (lex1 & Hp & Hq & Hpos & _).
  rewrite (bind_Return _ _ _ _ _ Hp).
  destruct (pending lex) as [|c r] eqn:E; simpl.
  - exists lex1. split; [reflexivity|]. split; [congruence|exact Hpos].
  - fold (white c). destruct (white c) eqn:W.
    + destruct (nextChar_position lex1 c r Hq) as (lex2 & Hn2 & Hr & _ & Hp2).
      rewrite (bind_Return _ _ _ _ _ Hn2).
      destruct (IH lex2) as (lex3 & H3 & H4 & H5).
      { rewrite Hr. simpl in Hn. lia. }
      exists lex3. split; [exact H3|]. rewrite H4, H5, Hr, Hp2, Hpos.
      split; reflexivity.
    + exists lex1. split; [reflexivity|]. split; [congruence|exact Hpos].
Qed.

(** X2: [skip] never fails.  It takes exactly the white space the pending
    text starts with (spaces, tabs, line feeds, carriage returns), stops
    at the first other character or at the end, and leaves the position
    advanced over what it took: one line down and back to character 1 for
    each line feed, one character on for anything else. *)
Theorem skip_takes_white_space (lex : Lex.t) :
  exists lex',
    skip lex = Return tt lex'
    /\ pending lex = white_prefix (pending lex) ++ pending lex'
    /\ ws (white_prefix (pending lex))
    /\ match pending lex' with
       | c :: _ => isWhite (Some c) = false
       | [] => True
       end
    /\ position lex'
       = advance_pos (position lex) (white_prefix (pending lex)).
Proof.
  destruct (skip_loop_position (S (length (pending lex))) lex) as
    (lex' & E & P & Q); [lia|].
  exists lex'. split; [exact E|]. rewrite P. split; [apply white_prefix_split|].
  split; [apply white_prefix_ws|]. split; [apply skip_ws_head|exact Q].
Qed.

(** ** Delimiters and the boolean literal *)

Lemma error_at_position lex msg :
  error_at lex msg = error_pos (position lex) msg.
Proof. reflexivity. Qed.

Lemma skip_position lex :
  exists lex',
    skip lex = Return tt lex'
    /\ pending lex' = skip_ws (pending lex)
    /\ position lex'
       = advance_pos (position lex) (white_prefix (pending lex)).
Proof. apply skip_loop_position. lia. Qed.

(** X3: [skipAndExpect(delim)] skips white space and takes one character.
    It succeeds exactly when that character is the delimiter; otherwise it
    fails with "Expected <delim> but got: <character or EOF>." and the
    position reported is the one behind the character it took (at the end
    of the text, where it stopped). *)
Theorem skipAndExpect_outcome (delim : ascii) (lex : Lex.t) :
  let before := white_prefix (pending lex) in
  match skip_ws (pending lex) with
  | c :: r =>
      if c =? N_of_ascii delim then
        exists lex',
          skipAndExpect delim lex = Return tt lex'
          /\ pending lex' = r
          /\ position lex' = advance_pos (position lex) (before ++ [c])
      else
        skipAndExpect delim lex
        = Throw (error_pos (advance_pos (position lex) (before ++ [c]))
                   (str "Expected " ++ [N_of_ascii delim]
                    ++ str " but got: " ++ utf16 c ++ str "."))
  | [] =>
      skipAndExpect delim lex
      = Throw (error_pos (advance_pos (position lex) before)
                 (str "Expected " ++ [N_of_ascii delim]
                  ++ str " but got: EOF."))
  end.
Proof.
  intros before. unfold skipAndExpect.
  destruct (skip_position lex) as (lex1 & E1 & P1 & Q1).
  rewrite (bind_Return _ _ _ _ _ E1).
  destruct (skip_ws (pending lex)) as [|c r] eqn:E.
  - destruct (nextChar_end lex1 P1) as (lex2 & E2 & _ & _ & Q2).
    rewrite (bind_Return _ _ _ _ _ E2). simpl. unfold error.
    now rewrite error_at_position, Q2, Q1.
  - destruct (nextChar_position lex1 c r P1) as (lex2 & E2 & P2 & _ & Q2).
    rewrite (bind_Return _ _ _ _ _ E2). simpl.
    assert (Q : position lex2 = advance_pos (position lex) (before ++ [c])).
    { rewrite Q2, Q1. unfold before. now rewrite advance_pos_app. }
    destruct (c =? N_of_ascii delim).
    + exists lex2. auto.
    + unfold error. now rewrite error_at_position, Q.
Qed.

Lemma expect_loop_run s : forall expected lex r,
  pending lex = expected ++ r ->
  exists lex',
    expect_loop s expected lex = Return tt lex' /\ pending lex' = r.
Proof.
  induction expected as [|e more IH]; intros lex r H; simpl in *.
  - exists lex. auto.
  - destruct (nextChar_cons lex e _ H) as (lex1 & E1 & P1 & _).
    rewrite (bind_Return _ _ _ _ _ E1), N.eqb_refl. now apply IH.
Qed.

Lemma expect_loop_inv s : forall expected lex lex',
  expect_loop s expected lex = Return tt lex' ->
  pending lex = expected ++ pending lex'.
Proof.
  induction expected as [|e more IH]; intros lex lex' H; simpl in *.
  - now injection H as ->.
  - destruct (pending lex) as [|c r] eqn:E.
    + destruct (nextChar_nil lex E) as (lex1 & E1 & _).
      rewrite (bind_Return _ _ _ _ _ E1) in H. discriminate.
    + destruct (nextChar_cons lex c r E) as (lex1 & E1 & P1 & _).
      rewrite (bind_Return _ _ _ _ _ E1) in H.
      destruct (N.eqb_spec c e) as [->|]; [|discriminate].
      apply IH in H. now rewrite <- P1, H.
Qed.

Lemma expect_run s lex r :
  skip_ws (pending lex) = s ++ r ->
  exists lex', expect s lex = Return tt lex' /\ pending lex' = r.
Proof.
  intros H. unfold expect.
  destruct (skip_spec lex) as (lex1 & E1 & P1).
  rewrite (bind_Return _ _ _ _ _ E1).
  apply expect_loop_run. now rewrite P1.
Qed.

Lemma expect_inv s lex lex' :
  expect s lex = Return tt lex' ->
  skip_ws (pending lex) = s ++ pending lex'.
Proof.
  unfold expect. intros H.
  destruct (skip_spec lex) as (lex1 & E1 & P1).
  rewrite (bind_Return _ _ _ _ _ E1) in H.
  apply expect_loop_inv in H. now rewrite <- P1.
Qed.

Lemma expect_then {A} s (a : A) lex r :
  (exists lex', (expect s ;;; ret a) lex = Return a lex' /\ pending lex' = r)
  <-> skip_ws (pending lex) = s ++ r.
Proof.
  split.
  - intros (lex' & H & Hr).
    apply bind_inv in H as ([] & lex1 & H1 & H2).
    injection H2 as <-. apply expect_inv in H1. now rewrite H1, Hr.
  - intros H. destruct (expect_run s lex r H) as (lex' & E & P).
    exists lex'. now rewrite (bind_Return _ _ _ _ _ E).
Qed.

(** X4: [booleanLiteral] returns [true] exactly when the text behind the
    white space starts with the four characters of true, and [false]
    exactly when it starts with the five of false; it takes those
    characters and nothing more, whatever follows them. *)
Theorem booleanLiteral_accepts (lex : Lex.t) (b : bool) (r : list N) :
  (exists lex', booleanLiteral lex = Return b lex' /\ pending lex' = r)
  <-> skip_ws (pending lex) = str (if b then "true" else "false") ++ r.
Proof.
  unfold booleanLiteral.
  destruct (skipAndPeek_spec lex) as (lex1 & E1 & P1).
  rewrite (bind_Return _ _ _ _ _ E1).
  assert (Q : skip_ws (pending lex) = skip_ws (pending lex1)).
  { now rewrite P1, skip_ws_idem. }
  rewrite Q. clear E1 P1 Q.
  destruct (char_eqb (hd_error (skip_ws (pending lex1))) "t") eqn:Tt.
  - destruct b.
    + apply expect_then.
    + split.
      * intros (l & H & _). apply bind_inv in H as (? & ? & _ & H).
        discriminate.
      * intros H. rewrite H in Tt. discriminate.
  - destruct (char_eqb (hd_error (skip_ws (pending lex1))) "f") eqn:Tf.
    + destruct b.
      * split.
        -- intros (l & H & _). apply bind_inv in H as (? & ? & _ & H).
           discriminate.
        -- intros H. rewrite H in Tt. discriminate.
      * apply expect_then.
    + split; [intros (l & H & _); discriminate|].
      intros H. rewrite H in Tt, Tf. destruct b; discriminate.
Qed.

(** ** Escapes *)

Lemma mustChar_position lex c r :
  pending lex = c :: r ->
  exists lex',
    mustChar lex = Return c lex' /\ pending lex' = r
    /\ position lex' = advance_char (position lex) c.
Proof.
  intros H. unfold mustChar.
  destruct (nextChar_position lex c r H) as (lex1 & E1 & P1 & _ & Q1).
  rewrite (bind_Return _ _ _ _ _ E1). exists lex1. auto.
Qed.

Lemma mustChar_end lex :
  pending lex = [] ->
  mustChar lex
  = Throw (error_pos (position lex) (str "Expected a character but got EOF.")).
Proof.
  intros H. unfold mustChar.
  destruct (nextChar_end lex H) as (lex1 & E1 & _ & _ & Q1).
  rewrite (bind_Return _ _ _ _ _ E1). simpl. unfold error.
  now rewrite error_at_position, Q1.
Qed.

(** X5: behind a backslash, every character other than the quotation mark,
    the backslash and b, f, n, r, t, u is refused, the solidus of JSON
    included: [unescape] fails with "Invalid escaped character." at the
    position behind that character. *)
Theorem unescape_refuses_other_characters (lex : Lex.t) (c : N) (r : list N) :
  pending lex = c :: r ->
  ~ In c [34; 92; 98; 102; 110; 114; 116; 117] ->
  unescape lex
  = Throw (error_pos (advance_char (position lex) c)
             (str "Invalid escaped character.")).
Proof.
  intros H Hc. unfold unescape.
  destruct (mustChar_position lex c r H) as (lex1 & E1 & _ & Q1).
  rewrite (bind_Return _ _ _ _ _ E1).
  simpl In in Hc.
  repeat match goal with
  | |- context [?a =? ?b] =>
      destruct (N.eqb_spec a b); [exfalso; apply Hc; subst; tauto|]
  end.
  unfold error. now rewrite error_at_position, Q1.
Qed.

Lemma unescape_refuses_other_characters_witness :
  unescape (Lex.new [(47, [])])
  = Throw (error_pos (advance_char (1, 1) 47)
             (str "Invalid escaped character.")).
Proof.
  apply (unescape_refuses_other_characters (Lex.new [(47, [])]) 47 []).
  - reflexivity.
  - simpl. intros H. repeat (destruct H as [H|H]; [discriminate|]). exact H.
Defined.

(** X6: a backslash-u escape whose four characters are not all hexadecimal
    digits fails with the host's own SyntaxError, the one raised by
    JSON.parse: unlike the other lexical errors it carries no line and
    character position. *)
Theorem unescape_bad_hex_is_unpositioned
  (lex : Lex.t) (a b c d : N) (r : list N) :
  pending lex = 117 :: a :: b :: c :: d :: r ->
  hex_value a = None \/ hex_value b = None
  \/ hex_value c = None \/ hex_value d = None ->
  unescape lex = Throw EngineSyntaxError.
Proof.
  intros H Hx. unfold unescape.
  destruct (mustChar_cons lex _ _ H) as (l1 & E1 & P1).
  rewrite (bind_Return _ _ _ _ _ E1). cbn [N.eqb Pos.eqb].
  destruct (mustChar_cons l1 _ _ P1) as (l2 & E2 & P2).
  rewrite (bind_Return _ _ _ _ _ E2).
  destruct (mustChar_cons l2 _ _ P2) as (l3 & E3 & P3).
  rewrite (bind_Return _ _ _ _ _ E3).
  destruct (mustChar_cons l3 _ _ P3) as (l4 & E4 & P4).
  rewrite (bind_Return _ _ _ _ _ E4).
  destruct (mustChar_cons l4 _ _ P4) as (l5 & E5 & P5).
  rewrite (bind_Return _ _ _ _ _ E5).
  unfold JSON_parse_unicode.
  destruct Hx as [-> | [Hx | [Hx | Hx]]]; [reflexivity| | |];
    rewrite Hx; repeat (destruct (hex_value _)); reflexivity.
Qed.

Lemma unescape_bad_hex_is_unpositioned_witness :
  unescape (Lex.new [(117, str "00g1")]) = Throw EngineSyntaxError.
Proof.
  apply (unescape_bad_hex_is_unpositioned _ 48 48 103 49 []).
  - reflexivity.
  - right. right. left. reflexivity.
Defined.

Lemma hex_value_bound a x : hex_value a = Some x -> x < 16.
Proof.
  unfold hex_value.
  destruct (N.leb_spec 48 a), (N.leb_spec a 57); simpl;
    try (intros [= <-]; lia);
    destruct (N.leb_spec 65 a), (N.leb_spec a 70); simpl;
    try (intros [= <-]; lia);
    destruct (N.leb_spec 97 a), (N.leb_spec a 102); simpl;
    try (intros [= <-]; lia); discriminate.
Qed.

(** X7: whenever [unescape] succeeds it returns exactly one UTF-16 code
    unit, and it has taken either one character or, for a backslash-u
    escape, five; no escape ever yields a surrogate pair or an empty
    string. *)
Theorem unescape_yields_one_unit (lex lex' : Lex.t) (s : jsstring) :
  unescape lex = Return s lex' ->
  exists u,
    s = [u] /\ u < 65536
    /\ ((exists c, pending lex = c :: pending lex' /\ c <> 117)
        \/ exists a b c d, pending lex = 117 :: a :: b :: c :: d :: pending lex').
Proof.
  unfold unescape. intros H.
  apply bind_inv in H as (ch & l1 & E1 & H).
  apply mustChar_inv in E1.
  repeat match type of H with
  | (if ?a =? ?b then _ else _) _ = _ =>
      destruct (N.eqb_spec a b) as [Hch|];
      [try (injection H as <- <-; eexists; split; [reflexivity|];
            split; [lia|]; left; exists ch; split; [assumption|lia])|]
  end.
  - subst ch. apply bind_inv in H as (a & l2 & E2 & H).
    apply bind_inv in H as (b & l3 & E3 & H).
    apply bind_inv in H as (c & l4 & E4 & H).
    apply bind_inv in H as (d & l5 & E5 & H).
    apply mustChar_inv in E2, E3, E4, E5.
    unfold JSON_parse_unicode in H.
    destruct (hex_value a) as [x|] eqn:Ha; [|discriminate].
    destruct (hex_value b) as [y|] eqn:Hb; [|discriminate].
    destruct (hex_value c) as [z|] eqn:Hc; [|discriminate].
    destruct (hex_value d) as [w|] eqn:Hd; [|discriminate].
    injection H as <- <-.
    apply hex_value_bound in Ha, Hb, Hc, Hd.
    eexists. split; [reflexivity|]. split; [lia|].
    right. exists a, b, c, d. congruence.
  - discriminate.
Qed.

Lemma unescape_yields_one_unit_witness :
  exists u, [9] = [u] /\ u < 65536
    /\ ((exists c, pending (Lex.new [(116, [120])])
                   = c :: pending (Lex.mk [] [116; 120] 1 false 1 2)
                   /\ c <> 117)
        \/ exists a b c d,
             pending (Lex.new [(116, [120])])
             = 117 :: a :: b :: c :: d
               :: pending (Lex.mk [] [116; 120] 1 false 1 2)).
Proof.
  apply (unescape_yields_one_unit (Lex.new [(116, [120])])
           (Lex.mk [] [116; 120] 1 false 1 2) [9]).
  reflexivity.
Defined.

(** ** The registry under [addType] *)

Lemma insert_type_last x l :
  Forall (fun y => by_priority y x) l -> insert_type x l = l ++ [x].
Proof.
  induction 1 as [|y l Hy _ IH]; simpl; [reflexivity|].
  unfold by_priority in Hy.
  destruct (Z.ltb_spec (priority x) (priority y)); [lia|]. now rewrite IH.
Qed.

Lemma StronglySorted_snoc l x :
  StronglySorted by_priority (l ++ [x]) ->
  StronglySorted by_priority l /\ Forall (fun y => by_priority y x) l.
Proof.
  induction l as [|y l IH]; simpl; intros H.
  - split; constructor.
  - inversion H as [|? ? Hs Hall]; subst.
    destruct (IH Hs) as [Hl Hx]. split.
    + constructor; [exact Hl|].
      rewrite Forall_forall in *. intros z Hz. apply Hall.
      apply in_or_app. now left.
    + constructor; [|exact Hx].
      rewrite Forall_forall in Hall. apply Hall, in_or_app. right. now left.
Qed.

Lemma fold_insert_sorted_id l : forall acc,
  StronglySorted by_priority (acc ++ l) ->
  fold_left (fun s x => insert_type x s) l acc = acc ++ l.
Proof.
  induction l as [|x l IH]; simpl; intros acc H.
  - now rewrite app_nil_r.
  - replace (acc ++ x :: l) with ((acc ++ [x]) ++ l) in *
      by now rewrite <- app_assoc.
    assert (Hx : StronglySorted by_priority (acc ++ [x])).
    { clear IH. induction l as [|z l IHl] using rev_ind.
      - now rewrite app_nil_r in H.
      - apply IHl. rewrite app_assoc in H. now apply StronglySorted_snoc in H. }
    rewrite insert_type_last by now apply StronglySorted_snoc.
    now apply IH.
Qed.

(** Sorting a sorted registry leaves it as it is. *)
Lemma sort_types_sorted_id l :
  StronglySorted by_priority l -> sort_types l = l.
Proof. intros H. exact (fold_insert_sorted_id l [] H). Qed.

Lemma insert_type_perm x l : Permutation (insert_type x l) (x :: l).
Proof.
  induction l as [|y l IH]; simpl; [reflexivity|].
  destruct (priority x <? priority y)%Z; [reflexivity|].
  rewrite IH. apply perm_swap.
Qed.

Lemma fold_insert_perm l : forall acc,
  Permutation (fold_left (fun s x => insert_type x s) l acc) (acc ++ l).
Proof.
  induction l as [|x l IH]; simpl; intros acc.
  - now rewrite app_nil_r.
  - rewrite IH, insert_type_perm. apply Permutation_middle.
Qed.

Lemma addType_perm type registry :
  Permutation (addType type registry) (registry ++ [type]).
Proof. unfold addType, sort_types. apply (fold_insert_perm _ []). Qed.

Lemma addType_insert type registry :
  StronglySorted by_priority registry ->
  addType type registry = insert_type type registry.
Proof.
  intros H. unfold addType, sort_types.
  rewrite fold_left_app. simpl. f_equal. now apply sort_types_sorted_id.
Qed.

Lemma find_insert_type_keeps (p : Type_ -> bool) x : forall l h,
  StronglySorted by_priority l ->
  find p l = Some h ->
  (priority h <= priority x)%Z ->
  find p (insert_type x l) = Some h.
Proof.
  induction l as [|y l IH]; simpl; intros h Hs Hf Hp; [discriminate|].
  inversion Hs as [|? ? Hs' Hall]; subst.
  destruct (Z.ltb_spec (priority x) (priority y)) as [Hlt|Hge].
  - exfalso. destruct (p y) eqn:Py.
    + injection Hf as <-. lia.
    + apply find_some in Hf as [Hin _].
      rewrite Forall_forall in Hall. specialize (Hall _ Hin).
      unfold by_priority in Hall. lia.
  - simpl. destruct (p y); [exact Hf|]. now apply IH.
Qed.

(** X8: whatever handlers [addType] has been given, in whatever order, the
    registry is sorted by priority, holds the seven built-in handlers and
    every added one, each once per registration, and the lookup finds a
    handler for every sample: [types.find(...)!] is never undefined. *)
Theorem registry_invariant (D : jsstring -> option Z) (added : list Type_)
  (sample : Sample) :
  StronglySorted by_priority (registered D added)
  /\ Permutation (registered D added) (types D ++ added)
  /\ exists h,
       find (fun x => isValid x sample) (registered D added) = Some h
       /\ forall lex, type_parse (registered D added) lex sample
                      = parse_ h lex sample.
Proof.
  assert (H : StronglySorted by_priority (registered D added)
              /\ Permutation (registered D added) (types D ++ added)).
  { unfold registered. induction added as [|t l IH] using rev_ind.
    - cbn [fold_left]. split; [apply types_sorted|now rewrite app_nil_r].
    - rewrite fold_left_app. cbn [fold_left]. destruct IH as [IH1 IH2]. split.
      + apply sort_types_sorted.
      + rewrite addType_perm, IH2. now rewrite app_assoc. }
  destruct H as [H1 H2]. split; [exact H1|]. split; [exact H2|].
  destruct (find (fun x => isValid x sample) (registered D added)) as [h|] eqn:E.
  - exists h. split; [reflexivity|]. intros lex. unfold type_parse. now rewrite E.
  - exfalso.
    assert (Hin : In (last (types D) boolean_type) (registered D added)).
    { apply (Permutation_in _ (Permutation_sym H2)), in_or_app. left.
      simpl. tauto. }
    apply (find_none _ _ E) in Hin. simpl in Hin. discriminate.
Qed.

(** X9: ties and later registrations never pre-empt. In a sorted registry,
    adding a handler whose priority is not below that of the handler the
    lookup finds for a sample leaves the lookup for that sample unchanged,
    even when the new handler accepts the sample and has the same
    priority: the sort is stable and the new handler was pushed last. *)
Theorem addType_keeps_earlier_handler
  (registry : list Type_) (custom h : Type_) (sample : Sample) :
  StronglySorted by_priority registry ->
  find (fun x => isValid x sample) registry = Some h ->
  (priority h <= priority custom)%Z ->
  find (fun x => isValid x sample) (addType custom registry) = Some h.
Proof.
  intros Hs Hf Hp. rewrite addType_insert by exact Hs.
  now apply find_insert_type_keeps.
Qed.

Lemma addType_keeps_earlier_handler_witness :
  find (fun x => isValid x SBoolean)
    (addType (mkType 1000000 (fun _ => true) (parse_ usdType)) (types no_dates))
  = Some boolean_type.
Proof.
  apply (addType_keeps_earlier_handler (types no_dates)
           (mkType 1000000 (fun _ => true) (parse_ usdType))
           boolean_type SBoolean).
  - apply types_sorted.
  - reflexivity.
  - simpl. lia.
Defined.

(** ** Number tokens and JSON.parse *)

Lemma bind_Throw {A B} (m : M A) (f : A -> M B) lex e :
  m lex = Throw e -> bind m f lex = Throw e.
Proof. unfold bind. now intros ->. Qed.

Lemma error_positioned {A} msg lex : positioned (@error A msg lex).
Proof. exists (position lex), msg. reflexivity. Qed.

Lemma digit_cases c :
  digit c = true ->
  c = 48 \/ c = 49 \/ c = 50 \/ c = 51 \/ c = 52
  \/ c = 53 \/ c = 54 \/ c = 55 \/ c = 56 \/ c = 57.
Proof.
  intros H. pose proof (digit_utf16 c H) as U.
  unfold digit, isDigit in H. rewrite U in H. cbn [hd] in H.
  apply andb_prop in H as [H1%N.leb_le H2%N.leb_le]. lia.
Qed.

Lemma digit_is_unit c : digit c = true -> digit_unit c = true.
Proof.
  intros H. destruct (digit_cases c H) as [->|[->|[->|[->|[->|[->|[->|[->|[->| ->]]]]]]]]];
    reflexivity.
Qed.

Lemma leading_digits_split l : l = leading_digits l ++ after_digits l.
Proof.
  induction l as [|c r IH]; simpl; [reflexivity|].
  destruct (digit c); simpl; [now f_equal|reflexivity].
Qed.

Lemma leading_digits_all l : Forall (fun c => digit c = true) (leading_digits l).
Proof.
  induction l as [|c r IH]; simpl; [constructor|].
  destruct (digit c) eqn:E; now constructor.
Qed.

Lemma span_digits_app d r :
  Forall (fun c => digit c = true) d ->
  match r with u :: _ => digit_unit u = false | [] => True end ->
  span_digits (d ++ r) = (d, r).
Proof.
  intros Hd Hr. induction Hd as [|c d Hc _ IH]; simpl.
  - destruct r as [|u r]; [reflexivity|]. simpl. now rewrite Hr.
  - now rewrite (digit_is_unit c Hc), IH.
Qed.

Lemma exponent_text_head ex :
  exponent_text ex ->
  match ex with u :: _ => digit_unit u = false | [] => True end.
Proof.
  intros [->|(e & s & d & -> & [->| ->] & _)]; [exact I| |]; reflexivity.
Qed.

(** JSON.parse accepts every text of the shape
    [-]digits[.digits][(e|E)[+|-]digits] whose integer part has no
    leading zero. *)
Lemma JSON_parse_number_accepts sg d fr ex :
  sg = [] \/ sg = [45] ->
  digits1 d -> leading_zero d = false ->
  fraction_text fr -> exponent_text ex ->
  exists n, JSON_parse_number (sg ++ d ++ fr ++ ex) = Some n.
Proof.
  intros Hsg [Hd0 Hd] Hz Hfr Hex.
  assert (Htail : match fr ++ ex with
                  | u :: _ => digit_unit u = false | [] => True end).
  { destruct Hfr as [->|(d2 & -> & _)]; [|reflexivity].
    now apply exponent_text_head. }
  assert (Hbody : forall neg, exists n,
    (let (int, s2) := span_digits (d ++ fr ++ ex) in
     if match int with [] => true | _ => leading_zero int end then None else
     let fs := match s2 with
               | 46 :: r => let (f, r') := span_digits r in
                            match f with [] => None | _ => Some (f, r') end
               | _ => Some ([], s2)
               end in
     match fs with
     | None => None
     | Some (frac, s3) =>
         let es := match s3 with
                   | (101 | 69) :: r =>
                       let (sgn, r1) := match r with
                                        | 43 :: r' => (false, r')
                                        | 45 :: r' => (true, r')
                                        | _ => (false, r)
                                        end in
                       let (d, r2) := span_digits r1 in
                       match d with
                       | [] => None
                       | _ => let v := Z.of_N (digits_value d) in
                              Some ((if sgn then - v else v)%Z, r2)
                       end
                   | _ => Some (0%Z, s3)
                   end in
         match es with
         | Some (e, []) =>
             let (c, e') := strip_tens (length (int ++ frac))
                              (digits_value (int ++ frac))
                              (e - Z.of_nat (length frac))%Z in
             Some (mkNumber neg c e')
         | _ => None
         end
     end) = Some n).
  { intros neg. rewrite (span_digits_app d (fr ++ ex) Hd Htail).
    destruct d as [|c0 d]; [congruence|]. rewrite Hz.
    assert (Hfin : forall (k : N * Z -> number) (x : N * Z), exists n,
              (let (c, e') := x in Some (k (c, e'))) = Some n).
    { intros k []. eauto. }
    assert (Hex' : ex = []
              \/ exists e s c3 d3, ex = e :: s ++ c3 :: d3
                   /\ (e = 101 \/ e = 69) /\ (s = [] \/ s = [43] \/ s = [45])
                   /\ digit c3 = true
                   /\ span_digits (c3 :: d3) = (c3 :: d3, [])).
    { destruct Hex as [->|(e & s & d3 & -> & He & Hs & Hd3 & Hall)]; [now left|].
      right. destruct d3 as [|c3 d3]; [congruence|].
      exists e, s, c3, d3. repeat (split; [assumption || reflexivity|]).
      split; [now inversion Hall|].
      rewrite <- (app_nil_r (c3 :: d3)) at 1. now apply span_digits_app. }
    destruct Hfr as [->|(d2 & -> & Hd2 & Hall2)]; cbn [app];
      [|rewrite (span_digits_app d2 ex Hall2 (exponent_text_head ex Hex));
        destruct d2 as [|c2 d2]; [congruence|]];
      (destruct Hex' as [->|(e & s & c3 & d3 & -> & He & Hs & H3 & Hsp)];
       [cbv beta iota zeta;
        apply (Hfin (fun p => mkNumber neg (fst p) (snd p)))|]);
      destruct He as [->| ->]; destruct Hs as [->|[->| ->]]; cbn [app];
      try (cbv beta iota zeta; rewrite Hsp; cbv beta iota zeta;
           apply (Hfin (fun p => mkNumber neg (fst p) (snd p))));
      destruct (digit_cases c3 H3)
        as [->|[->|[->|[->|[->|[->|[->|[->|[->| ->]]]]]]]]];
      cbv beta iota zeta; rewrite Hsp; cbv beta iota zeta;
      apply (Hfin (fun p => mkNumber neg (fst p) (snd p))). }
  unfold JSON_parse_number.
  destruct Hsg as [->| ->]; cbn [app].
  - destruct d as [|c0 d]; [congruence|].
    assert (H0 : digit c0 = true) by now inversion Hd.
    specialize (Hbody false).
    destruct (digit_cases c0 H0)
      as [->|[->|[->|[->|[->|[->|[->|[->|[->| ->]]]]]]]]]; exact Hbody.
  - exact (Hbody true).
Qed.

Lemma char_eqb_eq c a : char_eqb (Some c) a = true -> c = N_of_ascii a.
Proof. simpl. apply N.eqb_eq. Qed.

(** The optional fraction of [numberLiteral], run behind its [peek]. *)
Lemma fraction_block buf lex :
  let blk :=
    (if char_eqb (hd_error (pending lex)) "."
     then c <- nextChar ;;
          digits <- readDigits ;;
          match digits with
          | [] => error (str "Invalid number (empty fraction.)")
          | _ => ret (buf ++ char_text c ++ digits)
          end
     else ret buf) in
  (exists fr lex',
      blk lex = Return (buf ++ fr) lex'
      /\ pending lex = fr ++ pending lex' /\ fraction_text fr)
  \/ positioned (blk lex).
Proof.
  intros blk. subst blk.
  destruct (char_eqb (hd_error (pending lex)) ".") eqn:Ec.
  - destruct (pending lex) as [|c r] eqn:E; [discriminate|].
    cbn [hd_error] in Ec. apply char_eqb_eq in Ec. subst c.
    destruct (nextChar_cons lex _ _ E) as (l1 & E1 & P1 & _).
    rewrite (bind_Return _ _ _ _ _ E1).
    destruct (readDigits_spec l1) as (l2 & E2 & P2).
    rewrite (bind_Return _ _ _ _ _ E2).
    destruct (leading_digits (pending l1)) as [|d0 ds] eqn:Ed.
    + right. apply error_positioned.
    + left. exists (46 :: d0 :: ds), l2. split; [reflexivity|]. split.
      * rewrite P2, <- P1, <- Ed. cbn [app]. f_equal.
        apply leading_digits_split.
      * right. exists (d0 :: ds). split; [reflexivity|]. split; [congruence|].
        rewrite <- Ed. apply leading_digits_all.
  - left. exists [], lex. rewrite app_nil_r. split; [reflexivity|].
    split; [reflexivity|now left].
Qed.

(** The optional exponent of [numberLiteral], run behind its [peek]. *)
Lemma exponent_block buf lex :
  let blk :=
    (if char_eqb (hd_error (pending lex)) "e"
        || char_eqb (hd_error (pending lex)) "E"
     then c <- nextChar ;;
          let buf := buf ++ char_text c in
          sign <- peek ;;
          buf <- (if char_eqb sign "+" || char_eqb sign "-"
                  then s <- nextChar ;; ret (buf ++ char_text s)
                  else ret buf) ;;
          digits <- readDigits ;;
          match digits with
          | [] => error (str "Invalid number (empty exponent.)")
          | _ => ret (buf ++ digits)
          end
     else ret buf) in
  (exists ex lex',
      blk lex = Return (buf ++ ex) lex'
      /\ pending lex = ex ++ pending lex' /\ exponent_text ex)
  \/ positioned (blk lex).
Proof.
  intros blk. subst blk.
  destruct (char_eqb (hd_error (pending lex)) "e"
            || char_eqb (hd_error (pending lex)) "E") eqn:Ec.
  - destruct (pending lex) as [|c r] eqn:E; [discriminate|].
    cbn [hd_error] in Ec.
    assert (Hc : c = 101 \/ c = 69).
    { apply orb_prop in Ec as [H|H]; apply char_eqb_eq in H; auto. }
    assert (Hu : char_text (Some c) = [c]) by (destruct Hc; subst; reflexivity).
    destruct (nextChar_cons lex _ _ E) as (l1 & E1 & P1 & _).
    rewrite (bind_Return _ _ _ _ _ E1). cbv zeta. rewrite Hu.
    destruct (peek_spec l1) as (l2 & E2 & P2 & _).
    rewrite (bind_Return _ _ _ _ _ E2).
    assert (Hsign : exists s l3,
      (if char_eqb (hd_error (pending l1)) "+"
          || char_eqb (hd_error (pending l1)) "-"
       then s <- nextChar ;; ret ((buf ++ [c]) ++ char_text s)
       else ret (buf ++ [c])) l2 = Return ((buf ++ [c]) ++ s) l3
      /\ pending l1 = s ++ pending l3
      /\ (s = [] \/ s = [43] \/ s = [45])).
    { destruct (char_eqb (hd_error (pending l1)) "+"
                || char_eqb (hd_error (pending l1)) "-") eqn:Es.
      - destruct (pending l1) as [|s r1] eqn:El; [discriminate|].
        cbn [hd_error] in Es.
        assert (Hs : s = 43 \/ s = 45).
        { apply orb_prop in Es as [H|H]; apply char_eqb_eq in H; auto. }
        destruct (nextChar_cons l2 s r1) as (l3 & E3 & P3 & _);
          [congruence|].
        rewrite (bind_Return _ _ _ _ _ E3).
        exists [s], l3. rewrite P3.
        split; [destruct Hs; subst; reflexivity|].
        split; [reflexivity|destruct Hs; subst; auto].
      - exists [], l2. rewrite app_nil_r, P2. auto. }
    destruct Hsign as (s & l3 & E3 & P3 & Hs).
    rewrite (bind_Return _ _ _ _ _ E3).
    destruct (readDigits_spec l3) as (l4 & E4 & P4).
    rewrite (bind_Return _ _ _ _ _ E4).
    destruct (leading_digits (pending l3)) as [|d0 ds] eqn:Ed.
    + right. apply error_positioned.
    + left. exists (c :: s ++ d0 :: ds), l4. split.
      * unfold ret. f_equal. rewrite <- !app_assoc. reflexivity.
      * split.
        -- rewrite <- P1, P3, P4, <- Ed. cbn [app]. f_equal.
           rewrite <- app_assoc. f_equal.
           apply leading_digits_split.
        -- right. exists c, s, (d0 :: ds). split; [reflexivity|].
           split; [exact Hc|]. split; [exact Hs|].
           split; [congruence|]. rewrite <- Ed. apply leading_digits_all.
  - left. exists [], lex. rewrite app_nil_r. split; [reflexivity|].
    split; [reflexivity|now left].
Qed.

Lemma positioned_bind {A B} (m : M A) (k : A -> M B) lex :
  positioned (m lex) -> positioned (bind m k lex).
Proof.
  intros (p & msg & H). exists p, msg. now apply bind_Throw.
Qed.

(** X10: [numberLiteral] either returns, and then it has taken behind the
    white space exactly a text that JSON.parse reads as the number
    returned, or it fails with a SyntaxError that carries the cursor's
    line and character.  The host's own error is never raised: every
    text the checks let through is a number for JSON.parse. *)
Theorem numberLiteral_outcome (lex : Lex.t) :
  (exists n lex' tok,
      numberLiteral lex = Return n lex'
      /\ skip_ws (pending lex) = tok ++ pending lex'
      /\ JSON_parse_number tok = Some n)
  \/ positioned (numberLiteral lex).
Proof.
  unfold numberLiteral.
  destruct (skip_spec lex) as (l1 & E1 & P1).
  rewrite (bind_Return _ _ _ _ _ E1).
  destruct (peek_spec l1) as (l2 & E2 & P2 & _).
  rewrite (bind_Return _ _ _ _ _ E2).
  rewrite <- P1, <- P2. clear E1 E2 P1 P2 l1 lex.
  destruct (negb (char_eqb (hd_error (pending l2)) "-")
            && negb (isDigit (hd_error (pending l2)))) eqn:E0.
  { right. apply error_positioned. }
  assert (Hsg : exists sg l3,
    (if char_eqb (hd_error (pending l2)) "-"
     then c <- nextChar ;; ret (char_text c) else ret []) l2 = Return sg l3
    /\ pending l2 = sg ++ pending l3 /\ (sg = [] \/ sg = [45])).
  { destruct (char_eqb (hd_error (pending l2)) "-") eqn:Em.
    - destruct (pending l2) as [|c r] eqn:E; [discriminate|].
      cbn [hd_error] in Em. apply char_eqb_eq in Em. subst c.
      destruct (nextChar_cons l2 _ _ E) as (l3 & E3 & P3 & _).
      rewrite (bind_Return _ _ _ _ _ E3).
      exists [45], l3. rewrite P3. auto.
    - exists [], l2. auto. }
  destruct Hsg as (sg & l3 & E3 & P3 & Hsg).
  rewrite (bind_Return _ _ _ _ _ E3).
  destruct (readDigits_spec l3) as (l4 & E4 & P4).
  rewrite (bind_Return _ _ _ _ _ E4).
  pose proof (leading_digits_split (pending l3)) as S3.
  pose proof (leading_digits_all (pending l3)) as A3.
  destruct (leading_digits (pending l3)) as [|d0 ds] eqn:Ed.
  { right. apply error_positioned. }
  destruct (leading_zero (d0 :: ds)) eqn:Ez.
  { right. apply error_positioned. }
  cbv zeta.
  destruct (peek_spec l4) as (l5 & E5 & P5 & _).
  rewrite (bind_Return _ _ _ _ _ E5). rewrite <- P5.
  destruct (fraction_block (sg ++ d0 :: ds) l5)
    as [(fr & l6 & E6 & P6 & Hfr)|Hpos];
    [|right; now apply positioned_bind].
  rewrite (bind_Return _ _ _ _ _ E6).
  destruct (peek_spec l6) as (l7 & E7 & P7 & _).
  rewrite (bind_Return _ _ _ _ _ E7). rewrite <- P7.
  destruct (exponent_block ((sg ++ d0 :: ds) ++ fr) l7)
    as [(ex & l8 & E8 & P8 & Hex)|Hpos];
    [|right; now apply positioned_bind].
  rewrite (bind_Return _ _ _ _ _ E8).
  destruct (JSON_parse_number_accepts sg (d0 :: ds) fr ex) as (n & Hn);
    try assumption.
  { split; [congruence|exact A3]. }
  rewrite <- !app_assoc. rewrite Hn.
  left. exists n, l8, (sg ++ (d0 :: ds) ++ fr ++ ex).
  split; [reflexivity|]. split; [|exact Hn].
  rewrite P3, S3, <- P4, <- P5, P6, <- P7, P8.
  now rewrite <- !app_assoc.
Qed.

(** ** String tokens read back *)

Lemma unescape_quote_backslash lex c r :
  pending lex = c :: r -> c = 34 \/ c = 92 ->
  exists lex',
    unescape lex = Return [c] lex' /\ pending lex' = r
    /\ position lex' = advance_char (position lex) c.
Proof.
  intros H Hc. unfold unescape.
  destruct (mustChar_position lex _ _ H) as (l1 & E1 & P1 & Q1).
  rewrite (bind_Return _ _ _ _ _ E1).
  exists l1. destruct Hc as [->| ->]; auto.
Qed.

Lemma stringLiteral_loop_reads : forall s n result lex r,
  pending lex = flat_map escape_char s ++ 34 :: r ->
  (length (flat_map escape_char s) < n)%nat ->
  exists lex',
    stringLiteral_loop n result lex = Return (result ++ units s) lex'
    /\ pending lex' = r
    /\ position lex'
       = advance_pos (position lex) (flat_map escape_char s ++ [34]).
Proof.
  induction s as [|c s IH]; intros n result lex r H Hn;
    (destruct n as [|n]; [simpl in Hn; lia|]); cbn [stringLiteral_loop].
  - simpl in H. destruct (nextChar_position lex _ _ H) as (l1 & E1 & P1 & _ & Q1).
    rewrite (bind_Return _ _ _ _ _ E1). simpl.
    exists l1. now rewrite app_nil_r.
  - cbn [flat_map] in H, Hn. rewrite length_app in Hn.
    cbn [flat_map]. rewrite <- app_assoc, advance_pos_app.
    unfold units. cbn [flat_map]. fold (units s).
    unfold escape_char at 1 in H. unfold escape_char at 1 in Hn.
    unfold escape_char at 1.
    destruct (N.eqb_spec c 34) as [->|N34];
      [|destruct (N.eqb_spec c 92) as [->|N92]]; cbn [app length] in H, Hn.
    + destruct (nextChar_position lex _ _ H) as (l1 & E1 & P1 & F1 & Q1).
      rewrite (bind_Return _ _ _ _ _ E1).
      change (char_eqb (Some 92) "034") with false. cbv iota.
      unfold get_eof at 1. unfold bind at 1. rewrite F1.
      change (char_eqb (Some 92) "092") with true. cbv iota.
      destruct (unescape_quote_backslash l1 _ _ P1) as (l2 & E2 & P2 & Q2);
        [auto|].
      rewrite (bind_Return _ _ _ _ _ E2).
      change (utf16 34) with [34]. change (utf16 92) with [92].
      rewrite (app_assoc result). cbn [advance_pos fold_left].
      rewrite <- Q1, <- Q2. apply IH; [exact P2|lia].
    + destruct (nextChar_position lex _ _ H) as (l1 & E1 & P1 & F1 & Q1).
      rewrite (bind_Return _ _ _ _ _ E1).
      change (char_eqb (Some 92) "034") with false. cbv iota.
      unfold get_eof at 1. unfold bind at 1. rewrite F1.
      change (char_eqb (Some 92) "092") with true. cbv iota.
      destruct (unescape_quote_backslash l1 _ _ P1) as (l2 & E2 & P2 & Q2);
        [auto|].
      rewrite (bind_Return _ _ _ _ _ E2).
      change (utf16 34) with [34]. change (utf16 92) with [92].
      rewrite (app_assoc result). cbn [advance_pos fold_left].
      rewrite <- Q1, <- Q2. apply IH; [exact P2|lia].
    + destruct (nextChar_position lex _ _ H) as (l1 & E1 & P1 & F1 & Q1).
      rewrite (bind_Return _ _ _ _ _ E1). unfold char_eqb.
      change (N_of_ascii "034") with 34. change (N_of_ascii "092") with 92.
      destruct (N.eqb_spec c 34); [contradiction|].
      destruct (N.eqb_spec c 92); [contradiction|].
      unfold get_eof at 1. unfold bind at 1. rewrite F1.
      unfold bind at 1, ret at 1. cbn [char_text].
      rewrite (app_assoc result). cbn [advance_pos fold_left].
      rewrite <- Q1. apply IH; [exact P1|lia].
Qed.

Lemma skipAndExpect_take_position delim lex r :
  skip_ws (pending lex) = N_of_ascii delim :: r ->
  exists lex',
    skipAndExpect delim lex = Return tt lex' /\ pending lex' = r
    /\ position lex'
       = advance_pos (position lex)
           (white_prefix (pending lex) ++ [N_of_ascii delim]).
Proof.
  unfold skipAndExpect. intros E.
  destruct (skip_position lex) as (lex1 & H1 & P1 & Q1).
  rewrite (bind_Return _ _ _ _ _ H1). rewrite E in P1.
  destruct (nextChar_position lex1 _ r P1) as (lex2 & H2 & P2 & _ & Q2).
  rewrite (bind_Return _ _ _ _ _ H2). simpl. rewrite N.eqb_refl.
  exists lex2. split; [reflexivity|]. split; [exact P2|].
  now rewrite advance_pos_app, <- Q1.
Qed.

Lemma stringLiteral_reads (lex : Lex.t) (s r : list N) :
  skip_ws (pending lex) = write_string s ++ r ->
  exists lex',
    stringLiteral lex = Return (units s) lex' /\ pending lex' = r
    /\ position lex'
       = advance_pos (position lex)
           (white_prefix (pending lex) ++ write_string s).
Proof.
  intros H. unfold stringLiteral.
  unfold write_string in H. cbn [app] in H. rewrite <- app_assoc in H.
  destruct (skipAndExpect_take_position "034" lex _ H) as (l1 & E1 & P1 & Q1).
  rewrite (bind_Return _ _ _ _ _ E1).
  destruct (stringLiteral_loop_reads s (S (length (pending l1))) [] l1 r P1)
    as (l2 & E2 & P2 & Q2).
  { rewrite P1, length_app. simpl. lia. }
  exists l2. split; [exact E2|]. split; [exact P2|].
  rewrite Q2, Q1, <- !advance_pos_app. f_equal.
  unfold write_string. now rewrite <- app_assoc.
Qed.

(** X11: a string written between quotation marks with the quotation mark
    and the backslash escaped, and every other character left as it is,
    is read back unchanged by [stringLiteral], which stops right behind
    the closing mark with its line and character advanced over the white
    space and the token.  Raw line breaks, tabs and other control
    characters inside the token are taken as they come. *)
Theorem stringLiteral_reads_back (lex : Lex.t) (s r : list N) :
  skip_ws (pending lex) = write_string s ++ r ->
  exists lex',
    stringLiteral lex = Return (units s) lex' /\ pending lex' = r
    /\ position lex'
       = advance_pos (position lex)
           (white_prefix (pending lex) ++ write_string s).
Proof. exact (stringLiteral_reads lex s r). Qed.

Lemma stringLiteral_reads_back_witness :
  exists lex',
    stringLiteral (Lex.new [(32, [34; 97; 10; 92; 34; 34; 44])])
    = Return (units [97; 10; 34]) lex'
    /\ pending lex' = [44]
    /\ position lex'
       = advance_pos (position (Lex.new [(32, [34; 97; 10; 92; 34; 34; 44])]))
           (white_prefix (pending (Lex.new [(32, [34; 97; 10; 92; 34; 34; 44])]))
            ++ write_string [97; 10; 34]).
Proof.
  apply (stringLiteral_reads_back
           (Lex.new [(32, [34; 97; 10; 92; 34; 34; 44])]) [97; 10; 34] [44]).
  reflexivity.
Defined.

(** ** Independence of the chunking *)

Lemma respects_ret {A} (a : A) : respects (ret a).
Proof. intros l1 l2 H. simpl. auto. Qed.

Lemma respects_throw {A} e : respects (@throw A e).
Proof. intros l1 l2 H. reflexivity. Qed.

Lemma respects_error {A} msg : respects (@error A msg).
Proof.
  intros l1 l2 (_ & _ & H). unfold error. simpl.
  rewrite !error_at_position. now rewrite H.
Qed.

Lemma respects_bind {A B} (m : M A) (k : A -> M B) :
  respects m -> (forall a, respects (k a)) -> respects (bind m k).
Proof.
  intros Hm Hk l1 l2 H. specialize (Hm l1 l2 H). unfold bind.
  destruct (m l1) as [a l1'| |], (m l2) as [b l2'| |]; simpl in Hm;
    try contradiction; auto.
  destruct Hm as [<- Hs]. now apply Hk.
Qed.

Lemma respects_peek : respects peek.
Proof.
  intros l1 l2 (He & Hp & Hq).
  destruct (peek_position l1) as (l1' & E1 & P1 & Q1 & _).
  destruct (peek_position l2) as (l2' & E2 & P2 & Q2 & _).
  destruct (peek_spec l1) as (k1 & F1 & _ & G1).
  destruct (peek_spec l2) as (k2 & F2 & _ & G2).
  rewrite E1 in F1. injection F1 as <-.
  rewrite E2 in F2. injection F2 as <-.
  rewrite E1, E2. simpl. rewrite Hp. split; [reflexivity|].
  split; [|split; congruence].
  rewrite Hp in G1.
  destruct (Lex.eof l1'), (Lex.eof l2'); try reflexivity.
  - symmetry. apply G2, G1. reflexivity.
  - apply G1, G2. reflexivity.
Qed.

Lemma respects_nextChar : respects nextChar.
Proof.
  intros l1 l2 (He & Hp & Hq).
  destruct (pending l1) as [|c r] eqn:E.
  - destruct (nextChar_end l1 E) as (l1' & E1 & P1 & F1 & Q1).
    destruct (nextChar_end l2) as (l2' & E2 & P2 & F2 & Q2); [congruence|].
    rewrite E1, E2. simpl. repeat split; congruence.
  - destruct (nextChar_position l1 c r E) as (l1' & E1 & P1 & F1 & Q1).
    destruct (nextChar_position l2 c r) as (l2' & E2 & P2 & F2 & Q2);
      [congruence|].
    rewrite E1, E2. simpl. repeat split; congruence.
Qed.

Lemma respects_get_eof : respects get_eof.
Proof. intros l1 l2 H. unfold get_eof. simpl. split; [apply H|exact H]. Qed.

Lemma respects_fuel {A} (loop : nat -> M A) :
  (forall n, respects (loop n)) ->
  respects (fun lex => loop (S (length (pending lex))) lex).
Proof.
  intros H l1 l2 Hs. destruct Hs as (He & Hp & Hq) eqn:X. rewrite Hp.
  apply H. exact Hs.
Qed.

Create HintDb respects.

#[local] Hint Resolve respects_ret respects_throw respects_error respects_peek
  respects_nextChar respects_get_eof : respects.

Ltac respect :=
  repeat first
    [ solve [auto with respects nocore]
    | apply respects_bind; [|intros ?]
    | match goal with
      | |- respects (if ?b then _ else _) => destruct b
      | |- respects (match ?x with _ => _ end) => destruct x
      | |- respects (let _ := _ in _) => cbv zeta
      end ].

Lemma respects_skip : respects skip.
Proof.
  apply respects_fuel. induction n as [|n IH]; cbn [skip_loop].
  - intros l1 l2 _. exact I.
  - respect.
Qed.

#[local] Hint Resolve respects_skip : respects.

Lemma respects_expect s : respects (expect s).
Proof.
  unfold expect. apply respects_bind; [apply respects_skip|intros _].
  generalize s at 2. intros e. induction e as [|c e IH]; cbn [expect_loop]; respect.
Qed.

#[local] Hint Resolve respects_expect : respects.

Lemma respects_skipAndPeek : respects skipAndPeek.
Proof. unfold skipAndPeek. respect. Qed.

#[local] Hint Resolve respects_skipAndPeek : respects.

Lemma respects_skipAndExpect delim : respects (skipAndExpect delim).
Proof. unfold skipAndExpect. respect. Qed.

#[local] Hint Resolve respects_skipAndExpect : respects.

Lemma respects_mustChar : respects mustChar.
Proof. unfold mustChar. respect. Qed.

#[local] Hint Resolve respects_mustChar : respects.

Lemma respects_unescape : respects unescape.
Proof. unfold unescape. respect. Qed.

#[local] Hint Resolve respects_unescape : respects.

Lemma respects_booleanLiteral : respects booleanLiteral.
Proof.
  unfold booleanLiteral.
  respect.
Qed.

#[local] Hint Resolve respects_booleanLiteral : respects.

Lemma respects_readDigits : respects readDigits.
Proof.
  unfold readDigits. apply (respects_fuel (fun n => readDigits_loop n [])).
  intros n. generalize (@nil N). induction n as [|n IH]; intros buf;
    cbn [readDigits_loop].
  - intros l1 l2 _. exact I.
  - respect.
Qed.

#[local] Hint Resolve respects_readDigits : respects.

Lemma respects_numberLiteral : respects numberLiteral.
Proof.
  unfold numberLiteral.
  respect.
Qed.

#[local] Hint Resolve respects_numberLiteral : respects.

Lemma respects_stringLiteral : respects stringLiteral.
Proof.
  unfold stringLiteral.
  apply respects_bind; [apply respects_skipAndExpect|intros _].
  apply (respects_fuel (fun n => stringLiteral_loop n [])).
  intros n. generalize (@nil N). induction n as [|n IH]; intros buf;
    cbn [stringLiteral_loop].
  - intros l1 l2 _. exact I.
  - respect.
Qed.

#[local] Hint Resolve respects_stringLiteral : respects.

Lemma respectsG_gret {A} (a : A) : respectsG (gret a).
Proof. intros l1 l2 H. simpl. auto. Qed.

Lemma respectsG_lift {A} (m : M A) : respects m -> respectsG (lift m).
Proof. intros Hm l1 l2 H. unfold lift. simpl. split; [reflexivity|now apply Hm]. Qed.

Lemma respectsG_gbind {A B} (m : G A) (k : A -> G B) :
  respectsG m -> (forall a, respectsG (k a)) -> respectsG (gbind m k).
Proof.
  intros Hm Hk l1 l2 H. destruct (Hm l1 l2 H) as [Hy Ho]. unfold gbind.
  destruct (m l1) as [ys [a l1'| |]], (m l2) as [zs [b l2'| |]];
    simpl in Hy, Ho; try contradiction; subst; simpl; auto.
  destruct Ho as [<- Hs]. destruct (Hk a l1' l2' Hs) as [Hy' Ho'].
  destruct (k a l1') as [ys' o1], (k a l2') as [zs' o2]. simpl in *.
  subst. auto.
Qed.

Lemma respectsG_yield (p : M Value) : respects p -> respectsG (yield p).
Proof.
  intros Hp l1 l2 H. specialize (Hp l1 l2 H). unfold yield.
  destruct (p l1) as [a l1'| |], (p l2) as [b l2'| |]; simpl in *;
    try contradiction; auto.
  destruct Hp as [<- Hs]. auto.
Qed.

Lemma respects_collect (g : G unit) : respectsG g -> respects (collect g).
Proof.
  intros Hg l1 l2 H. destruct (Hg l1 l2 H) as [Hy Ho]. unfold collect.
  destruct (g l1) as [ys [a l1'| |]], (g l2) as [zs [b l2'| |]];
    simpl in *; try contradiction; auto.
  destruct Ho as [_ Hs]. subst. auto.
Qed.

Lemma respectsG_fuel {A} (loop : nat -> G A) :
  (forall n, respectsG (loop n)) ->
  respectsG (fun lex => loop (S (length (pending lex))) lex).
Proof.
  intros H l1 l2 Hs. destruct Hs as (He & Hp & Hq) eqn:X. rewrite Hp.
  apply H. exact Hs.
Qed.

Lemma respectsG_elements (dispatch : Sample -> M Value) sample :
  respects (dispatch sample) -> respectsG (Lex_elements dispatch sample).
Proof.
  intros Hd. unfold Lex_elements.
  apply respectsG_gbind; [apply respectsG_lift, respects_skipAndExpect|].
  intros _. apply respectsG_gbind;
    [|intros _; apply respectsG_lift, respects_expect].
  apply (respectsG_fuel (fun n => elements_loop dispatch n sample)).
  induction n as [|n IH]; cbn [elements_loop].
  - intros l1 l2 _. simpl. auto.
  - apply respectsG_gbind; [apply respectsG_lift, respects_skipAndPeek|].
    intros ch. destruct (char_eqb ch "]"); [apply respectsG_gret|].
    apply respectsG_gbind; [now apply respectsG_yield|]. intros _.
    apply respectsG_gbind; [apply respectsG_lift, respects_skipAndPeek|].
    intros delim. destruct (char_eqb delim ",").
    + apply respectsG_gbind; [apply respectsG_lift, respects_nextChar|].
      intros _. exact IH.
    + destruct (negb (char_eqb delim "]")); [|exact IH].
      apply respectsG_lift, respects_error.
Qed.

Lemma respects_type_parse D (api : Api) :
  (forall s, object_free s = true -> respectsG (api_elements api s)) ->
  forall sample, object_free sample = true ->
    respects (type_parse (types D) api sample).
Proof.
  intros Hapi sample Hs. unfold type_parse.
  destruct sample as [| | | | | | |l|o|]; try discriminate;
    cbn [find types isValid parse_ boolean_type number_type date_type
         string_type array_type object_type other_type typeof_object];
    try solve [respect].
  destruct l as [|e l]; [respect|].
  apply respects_bind; [|intros ?; respect].
  apply respects_collect, Hapi. exact Hs.
Qed.

Lemma respects_Lex_api D : forall n s,
  object_free s = true -> respectsG (api_elements (Lex_api n (types D)) s).
Proof.
  induction n as [|n IH]; intros s Hs; cbn [Lex_api api_elements].
  - intros l1 l2 _. simpl. auto.
  - apply respectsG_elements. now apply respects_type_parse.
Qed.

Lemma same_new c1 c2 :
  concat (map chunk_chars c1) = concat (map chunk_chars c2) ->
  same (Lex.new c1) (Lex.new c2).
Proof. intros H. unfold same, pending, position. simpl. auto. Qed.

(** X12: for a sample that holds no object, the outcome of [parse] with
    the built-in handlers, value or error with its line and character,
    depends on the characters of the input only, not on the chunks the
    stream delivers them in; a string and a stream of the same text give
    the same result. *)
Theorem parse_is_chunk_independent (D : jsstring -> option Z)
  (sample : Sample) (s1 s2 : Stream) :
  object_free sample = true ->
  text_of s1 = text_of s2 ->
  parse (types D) sample s1 = parse (types D) sample s2.
Proof.
  intros Hs Ht. unfold parse.
  pose proof (same_new _ _ Ht) as Hn.
  assert (R : same_outcome
            (parse_on (types D) sample (Lex.new (toStream s1)))
            (parse_on (types D) sample (Lex.new (toStream s2)))).
  { unfold parse_on, depth.
    replace (pending (Lex.new (toStream s2)))
      with (pending (Lex.new (toStream s1))) by apply Hn.
    revert Hn. generalize (Lex.new (toStream s1)) at 1 3.
    generalize (Lex.new (toStream s2)). intros l2 l1 Hn.
    apply respects_bind; [|intros ?; respect|exact Hn].
    apply respects_type_parse; [|exact Hs].
    intros s. apply respects_Lex_api. }
  destruct (parse_on (types D) sample (Lex.new (toStream s1))) as [a l1| |],
           (parse_on (types D) sample (Lex.new (toStream s2))) as [b l2| |];
    simpl in R; try contradiction; simpl; [|congruence|reflexivity].
  destruct R as [-> _]. reflexivity.
Qed.

Lemma parse_is_chunk_independent_witness :
  parse (types no_dates) (SArray [SNumber]) (OfString (str "[1, 20]"))
  = parse (types no_dates) (SArray [SNumber])
      (OfReadable [(91, [49; 44]); (32, []); (50, [48; 93])]).
Proof.
  apply (parse_is_chunk_independent no_dates (SArray [SNumber])
           (OfString (str "[1, 20]"))
           (OfReadable [(91, [49; 44]); (32, []); (50, [48; 93])]));
    reflexivity.
Defined.

(** ** The checker and the properties of a parsed object *)

Lemma existsb_jsstring k l : existsb (jsstring_eqb k) l = true <-> In k l.
Proof.
  rewrite existsb_exists. split.
  - intros (x & Hx & E). apply jsstring_eqb_eq in E. now subst.
  - intros H. exists k. split; [exact H|apply jsstring_eqb_refl].
Qed.

Lemma has_property_object target k :
  has_property (VObject target) k = Some true
  <-> assoc k target <> None \/ In k inherited_names.
Proof.
  cbn [has_property]. rewrite <- existsb_jsstring. unfold inherited_names.
  destruct (assoc k target); split; try tauto; try congruence.
  - intros _. left. discriminate.
  - intros [= H]. now right.
  - intros [H| ->]; [congruence|reflexivity].
Qed.

Lemma check_loop_object keys target lex :
  (check_loop keys (VObject target) lex = Return tt lex
   <-> forall k, In k keys ->
         assoc k target <> None \/ In k inherited_names)
  /\ (check_loop keys (VObject target) lex = Return tt lex
      \/ positioned (check_loop keys (VObject target) lex)).
Proof.
  induction keys as [|k keys [IH1 IH2]]; cbn [check_loop].
  - split; [|now left]. split; [intros _ k []|reflexivity].
  - pose proof (has_property_object target k) as Hk.
    destruct (has_property (VObject target) k) as [[|]|] eqn:E.
    + split; [|exact IH2]. rewrite IH1. split.
      * intros H k' [<-|Hin]; [now apply Hk|now apply H].
      * intros H k' Hin. apply H. now right.
    + split; [|right; apply error_positioned]. split; [discriminate|].
      intros H. exfalso. assert (Some false = Some true); [|discriminate].
      apply Hk, H. now left.
    + discriminate.
Qed.

(** X13: the default checker accepts a parsed object exactly when every
    own property name of the sample is an own property of the object or
    one of the names every object inherits (toString, constructor,
    __proto__ and the like), whatever the kind of the sample's value,
    functions included; otherwise it fails with an error that carries the
    cursor's position.  A required property named like an inherited
    member is therefore never reported missing. *)
Theorem check_accepts (sample : ObjectSample)
  (target : list (jsstring * Value)) (lex : Lex.t) :
  (check sample (VObject target) lex = Return tt lex
   <-> forall k, In k (map fst (properties sample)) ->
         assoc k target <> None \/ In k inherited_names)
  /\ (check sample (VObject target) lex = Return tt lex
      \/ positioned (check sample (VObject target) lex)).
Proof. apply check_loop_object. Qed.

Lemma assoc_In {A} k (l : list (jsstring * A)) v :
  assoc k l = Some v -> In k (map fst l).
Proof.
  induction l as [|[k' w] l IH]; simpl; [discriminate|].
  destruct (jsstring_eqb k' k) eqn:E; [|auto].
  apply jsstring_eqb_eq in E. auto.
Qed.

Lemma assoc_None_not_In {A} k (l : list (jsstring * A)) :
  assoc k l = None -> ~ In k (map fst l).
Proof.
  induction l as [|[k' w] l IH]; simpl; [tauto|].
  destruct (jsstring_eqb k' k) eqn:E; [discriminate|].
  intros H [->|Hin]; [now rewrite jsstring_eqb_refl in E|now apply IH].
Qed.

Lemma jsstring_eqb_neq a b : a <> b -> jsstring_eqb a b = false.
Proof.
  intros H. destruct (jsstring_eqb a b) eqn:E; [|reflexivity].
  now apply jsstring_eqb_eq in E.
Qed.

(** Setting one own property leaves the others as they are. *)
Lemma assoc_assign_other props key v k :
  k <> key -> assoc k (assign props key v) = assoc k props.
Proof.
  intros Hk. unfold assign. destruct (own_property key props).
  - induction props as [|[k' w] props IH]; simpl; [reflexivity|].
    destruct (jsstring_eqb k' key) eqn:E; simpl.
    + apply jsstring_eqb_eq in E. subst k'.
      now rewrite jsstring_eqb_neq by congruence.
    + now rewrite IH.
  - assert (Hnew : forall l, assoc k ((key, v) :: l) = assoc k l).
    { intros l. simpl. now rewrite jsstring_eqb_neq by congruence. }
    destruct (array_index key) as [n|].
    + induction props as [|[k' w] props IH]; simpl.
      * now rewrite jsstring_eqb_neq by congruence.
      * destruct (array_index k') as [m|]; [|now rewrite Hnew].
        destruct (m <? n); [|now rewrite Hnew].
        simpl. now rewrite IH.
    + induction props as [|[k' w] props IH]; simpl.
      * now rewrite jsstring_eqb_neq by congruence.
      * now rewrite IH.
Qed.

Lemma check_loop_has keys parsed lex u lex' :
  check_loop keys parsed lex = Return u lex' ->
  forall k, In k keys -> has_property parsed k = Some true.
Proof.
  induction keys as [|k keys IH]; cbn [check_loop]; intros H k' Hin;
    [destruct Hin|].
  destruct (has_property parsed k) as [[|]|] eqn:E; try discriminate.
  destruct Hin as [<-|Hin]; [exact E|now apply IH].
Qed.

Section Keys.

Variable dispatch : Sample -> M Value.
Variable template : ObjectSample.
Variable k : jsstring.

(** No member named [k] is ever set, and a member named [__proto__] brings
    nothing but the empty object. *)
Hypothesis never_k : forall s l v l',
  lookup template k = Some s -> dispatch s l <> Return v l'.
Hypothesis empty_proto : forall s l v l',
  lookup template (str "__proto__") = Some s ->
  dispatch s l = Return v l' -> v = VObject [].
Hypothesis not_inherited : ~ In k inherited_names.

(** The objects the loop then builds: plain, or over an empty object, and
    without own properties [k] and [__proto__]. *)
Definition without_k (target : Value) : Prop :=
  exists props,
    (target = VObject props \/ target = VObjectProto props (VObject []))
    /\ assoc k props = None
    /\ assoc (str "__proto__") props = None.

Lemma without_k_has target :
  without_k target -> has_property target k <> Some true.
Proof.
  intros (props & [-> | ->] & Hk & _) H.
  - apply has_property_object in H as [H|H]; [congruence|contradiction].
  - cbn [has_property assoc] in H. rewrite Hk in H.
    injection H as H. apply not_inherited.
    apply existsb_jsstring. exact H.
Qed.

Lemma set_property_without_k target key v :
  without_k target -> key <> k ->
  (key = str "__proto__" -> v = VObject []) ->
  without_k (set_property target key v).
Proof.
  intros (props & Hshape & Hk & Hp) Hkey Hv. unfold set_property.
  assert (Hown : own_properties target = props)
    by (destruct Hshape as [-> | ->]; reflexivity).
  assert (Hset : proto_setter target = true).
  { destruct Hshape as [-> | ->]; cbn [proto_setter]; unfold own_property;
      rewrite Hp; reflexivity. }
  rewrite Hown, Hset.
  destruct (jsstring_eqb key (str "__proto__")) eqn:E; cbn [andb].
  - apply jsstring_eqb_eq in E. rewrite (Hv E). cbn [prototype_value].
    exists props. auto.
  - assert (Hne : key <> str "__proto__").
    { intros ->. now rewrite jsstring_eqb_refl in E. }
    exists (assign props key v). split.
    + destruct Hshape as [-> | ->]; cbn [with_properties]; auto.
    + rewrite !assoc_assign_other by congruence. auto.
Qed.

Lemma addProperty_without_k target key lex target' lex' :
  without_k target ->
  addProperty dispatch template target key lex = Return target' lex' ->
  without_k target'.
Proof.
  unfold addProperty. intros Hw H.
  destruct (lookup template key) as [sample|] eqn:El; [|discriminate].
  apply bind_inv in H as ([] & l1 & _ & H).
  apply bind_inv in H as (v & l2 & Hd & H). injection H as <- <-.
  apply set_property_without_k; [exact Hw| |].
  - intros ->. exact (never_k _ _ _ _ El Hd).
  - intros ->. exact (empty_proto _ _ _ _ El Hd).
Qed.

Lemma ObjectParser_loop_without_k : forall fuel target ch lex target' lex',
  without_k target ->
  ObjectParser_loop dispatch fuel template target ch lex = Return target' lex' ->
  without_k target'.
Proof.
  induction fuel as [|fuel IH]; intros target ch lex target' lex' Hw H;
    cbn [ObjectParser_loop] in H; [discriminate|].
  destruct (char_eqb ch "034").
  - apply bind_inv in H as (key & l1 & _ & H).
    apply bind_inv in H as ([] & l2 & _ & H).
    apply bind_inv in H as (target1 & l3 & Ha & H).
    apply bind_inv in H as (ch1 & l4 & _ & H).
    apply addProperty_without_k in Ha; [|exact Hw].
    destruct (char_eqb ch1 ",").
    + apply bind_inv in H as (? & l5 & _ & H).
      apply bind_inv in H as (ch2 & l6 & _ & H).
      exact (IH _ _ _ _ _ Ha H).
    + destruct (negb (char_eqb ch1 "}")); [discriminate|].
      exact (IH _ _ _ _ _ Ha H).
  - injection H as <- <-. exact Hw.
Qed.

(** With [k] required by the checker, the parse cannot succeed. *)
Lemma ObjectParser_parse_without_k props before lex v lex' :
  template = match before with Some t => t | None => mkObject props before None end ->
  In k (map fst props) ->
  ObjectParser_parse dispatch (mkObject props before None) lex <> Return v lex'.
Proof.
  intros Ht Hin H. unfold ObjectParser_parse in H.
  cbn [beforeParse afterParse] in H. rewrite <- Ht in H.
  apply bind_inv in H as ([] & l1 & _ & H).
  apply bind_inv in H as (ch & l2 & _ & H).
  apply bind_inv in H as (target & l3 & Hloop & H).
  apply bind_inv in H as ([] & l4 & _ & H).
  apply bind_inv in H as (u & l5 & Hc & _).
  apply ObjectParser_loop_without_k in Hloop.
  - apply (without_k_has _ Hloop).
    unfold check in Hc. cbn [properties] in Hc.
    exact (check_loop_has _ _ _ _ _ Hc k Hin).
  - exists []. auto.
Qed.

End Keys.

Lemma loop_without_members dispatch template :
  (forall key s l v l',
      lookup template key = Some s -> dispatch s l <> Return v l') ->
  forall fuel target ch lex target' lex',
    ObjectParser_loop dispatch fuel template target ch lex = Return target' lex' ->
    target' = target.
Proof.
  intros Hno. induction fuel as [|fuel IH]; intros target ch lex target' lex' H;
    cbn [ObjectParser_loop] in H; [discriminate|].
  destruct (char_eqb ch "034"); [|now injection H as <- <-].
  exfalso.
  apply bind_inv in H as (key & l1 & _ & H).
  apply bind_inv in H as ([] & l2 & _ & H).
  apply bind_inv in H as (target1 & l3 & Ha & _).
  unfold addProperty in Ha.
  destruct (lookup template key) as [sample|] eqn:El; [|discriminate].
  apply bind_inv in Ha as ([] & l4 & _ & Ha).
  apply bind_inv in Ha as (v & l5 & Hd & _).
  exact (Hno _ _ _ _ _ El Hd).
Qed.

(** What [Object.prototype] has as a template: functions, and null. *)
Lemma Object_prototype_lookup key s :
  lookup Object_prototype_sample key = Some s -> s = SFunction \/ s = SNull.
Proof.
  unfold lookup.
  destruct (assoc key (properties Object_prototype_sample)) as [s'|] eqn:E.
  - intros [= <-]. revert E. unfold Object_prototype_sample.
    cbn [properties Object_prototype_methods map app assoc].
    repeat (destruct (jsstring_eqb _ key); [intros [= <-]; auto|]).
    discriminate.
  - apply assoc_None_not_In in E. unfold inherited.
    destruct (existsb (jsstring_eqb key) Object_prototype_methods) eqn:Em.
    + exfalso. apply E. apply existsb_jsstring in Em.
      unfold Object_prototype_sample. cbn [properties].
      rewrite map_app, map_map. cbn [fst]. rewrite map_id.
      apply in_or_app. now left.
    + destruct (jsstring_eqb key (str "__proto__")) eqn:Ep; [|discriminate].
      exfalso. apply E. apply jsstring_eqb_eq in Ep. subst key.
      unfold Object_prototype_sample. cbn [properties].
      rewrite map_app. apply in_or_app. right. simpl. auto.
Qed.

(** A member named [__proto__], looked up in Object.prototype for want of
    an own property of that name, is parsed by the built-in handlers as
    the empty object or not at all. *)
Lemma Object_prototype_parses_empty D : forall n l v l',
  type_parse (types D) (Lex_api n (types D)) SObjectPrototype l = Return v l' ->
  v = VObject [].
Proof.
  intros [|n] l v l' H; [discriminate|].
  unfold type_parse in H.
  cbn [find types isValid parse_ boolean_type number_type date_type
       string_type array_type object_type typeof_object
       Lex_api api_object] in H.
  unfold ObjectParser_parse in H.
  cbn [beforeParse afterParse Object_prototype_sample] in H.
  fold Object_prototype_sample in H.
  apply bind_inv in H as ([] & l1 & _ & H).
  apply bind_inv in H as (ch & l2 & _ & H).
  apply bind_inv in H as (target & l3 & Hloop & H).
  apply bind_inv in H as ([] & l4 & _ & H).
  apply bind_inv in H as (u & l5 & _ & H).
  apply bind_inv in H as (u' & l6 & _ & H). injection H as <- _.
  apply loop_without_members in Hloop; [exact Hloop|].
  intros key s la w lb Hl Hd.
  apply Object_prototype_lookup in Hl as [-> | ->]; discriminate Hd.
Qed.

Lemma inherited_proto_lookup props before after :
  assoc (str "__proto__") props = None ->
  lookup (mkObject props before after) (str "__proto__")
  = Some SObjectPrototype.
Proof. intros H. unfold lookup. cbn [properties]. now rewrite H. Qed.



(** ** Arrays of strings read back *)

Section Strings.

Variable dispatch : Sample -> M Value.

Hypothesis dispatch_string : forall lex s r,
  skip_ws (pending lex) = write_string s ++ r ->
  exists lex',
    dispatch SString lex = Return (VString (units s)) lex' /\ pending lex' = r.

Lemma elements_loop_strings : forall ss n lex r,
  pending lex = join_items (map write_string ss) ++ 93 :: r ->
  (length (join_items (map write_string ss)) < n)%nat ->
  exists lex',
    elements_loop dispatch n SString lex
    = (map (fun s => VString (units s)) ss, Return tt lex')
    /\ pending lex' = 93 :: r.
Proof.
  induction ss as [|s ss IH]; intros n lex r H Hn;
    (destruct n as [|n]; [lia|]); cbn [elements_loop].
  - cbn [map join_items app] in H.
    destruct (skipAndPeek_spec lex) as (l1 & E1 & P1).
    rewrite H in E1, P1. rewrite (gbind_lift _ _ _ _ _ E1).
    exists l1. split; [reflexivity|exact P1].
  - cbn [map join_items] in H, Hn.
    set (tail := match map write_string ss with
                 | [] => []
                 | _ :: _ => 44 :: join_items (map write_string ss)
                 end).
    assert (Ht : pending lex = write_string s ++ tail ++ 93 :: r).
    { rewrite H. unfold tail. destruct (map write_string ss);
        [reflexivity|now rewrite <- app_assoc]. }
    assert (Hl : (length (write_string s ++ tail) < S n)%nat).
    { unfold tail. destruct (map write_string ss);
        [now rewrite app_nil_r|exact Hn]. }
    clear H Hn.
    destruct (skipAndPeek_spec lex) as (l1 & E1 & P1).
    rewrite Ht in E1, P1. rewrite (gbind_lift _ _ _ _ _ E1).
    change (char_eqb (hd_error (skip_ws (write_string s ++ tail ++ 93 :: r))) "]")
      with false. cbv iota.
    destruct (dispatch_string l1 s (tail ++ 93 :: r)) as (l2 & E2 & P2).
    { now rewrite P1, skip_ws_idem. }
    rewrite (gbind_yield _ _ _ _ _ E2).
    destruct (skipAndPeek_spec l2) as (l3 & E3 & P3).
    rewrite (gbind_lift _ _ _ _ _ E3).
    rewrite length_app in Hl. unfold write_string in Hl. cbn [length] in Hl.
    unfold tail in *. cbn [map].
    destruct ss as [|s' ss]; cbn [map app] in *.
    + rewrite P2 in *.
      change (char_eqb (hd_error (skip_ws (93 :: r))) ",") with false.
      change (negb (char_eqb (hd_error (skip_ws (93 :: r))) "]")) with false.
      cbv iota.
      destruct (IH n l3 r) as (l4 & E4 & P4); [exact P3|simpl; lia|].
      rewrite E4. exists l4. auto.
    + rewrite P2 in *.
      change (char_eqb (hd_error (skip_ws (44 :: _))) ",") with true.
      cbv iota.
      destruct (nextChar_cons l3 44 _ P3) as (l4 & E4 & P4 & _).
      rewrite (gbind_lift _ _ _ _ _ E4).
      destruct (IH n l4 r) as (l5 & E5 & P5); [exact P4|cbn [length] in Hl; lia|].
      rewrite E5. exists l5. auto.
Qed.

Lemma Lex_elements_strings ss lex r :
  skip_ws (pending lex) = write_array (map write_string ss) ++ r ->
  exists lex',
    Lex_elements dispatch SString lex
    = (map (fun s => VString (units s)) ss, Return tt lex')
    /\ pending lex' = r.
Proof.
  intros H. unfold Lex_elements. unfold write_array in H.
  cbn [app] in H. rewrite <- app_assoc in H. cbn [app] in H.
  destruct (skipAndExpect_take "[" lex _ H) as (l1 & E1 & P1).
  rewrite (gbind_lift _ _ _ _ _ E1).
  destruct (elements_loop_strings ss (S (length (pending l1))) l1 r P1)
    as (l2 & E2 & P2).
  { rewrite P1, length_app. simpl. lia. }
  destruct (expect_one 93 l2 r) as (l3 & E3 & P3); [now rewrite P2|].
  exists l3. split; [|exact P3].
  rewrite (gbind_run
             (fun lex => elements_loop dispatch (S (length (pending lex)))
                           SString lex)
             _ l1 _ tt l2 [] (Return tt l3) E2).
  - now rewrite app_nil_r.
  - unfold lift. change (str "]") with [93]. now rewrite E3.
Qed.

End Strings.

Lemma string_type_reads D api lex s r :
  skip_ws (pending lex) = write_string s ++ r ->
  exists lex',
    type_parse (types D) api SString lex = Return (VString (units s)) lex'
    /\ pending lex' = r.
Proof.
  intros H. destruct (stringLiteral_reads lex s r H) as (l1 & E1 & P1 & _).
  exists l1. split; [|exact P1].
  unfold type_parse. cbn [find types isValid parse_ boolean_type number_type
    date_type string_type]. now rewrite (bind_Return _ _ _ _ _ E1).
Qed.

(** X15: an array of strings written item by item, with commas between
    the items and brackets around them, is read back by [parse] as the
    array of those strings, in order, for a sample array whose first
    element is a string; the rest of the sample array plays no part. *)
Theorem parse_reads_back_string_array (D : jsstring -> option Z)
  (ss : list (list N)) (more : list Sample) (source : Stream) :
  text_of source = write_array (map write_string ss) ->
  parse (types D) (SArray (SString :: more)) source
  = Fulfilled (VArray (map (fun s => VString (units s)) ss)).
Proof.
  intros H. unfold parse, parse_on.
  set (lex := Lex.new (toStream source)).
  assert (Hp : skip_ws (pending lex) = write_array (map write_string ss) ++ []).
  { rewrite app_nil_r, <- H. unfold lex, pending, text_of.
    cbn [Lex.new Lex.eof Lex.index Lex.chars Lex.reader skipn app].
    fold (text_of source). now rewrite H. }
  unfold depth. unfold type_parse at 1.
  cbn [find types isValid parse_ boolean_type number_type date_type
       string_type array_type Lex_api api_elements].
  destruct (Lex_elements_strings
              (type_parse (types D) (Lex_api (length (pending lex)) (types D)))
              (fun l s r => string_type_reads D _ l s r) ss lex [] Hp)
    as (l1 & E1 & P1).
  apply collect_run in E1.
  assert (E : (result <-
                 collect
                   (Lex_elements
                      (type_parse (types D)
                         (Lex_api (length (pending lex)) (types D)))
                      SString) ;;
               ret (VArray result)) lex
              = Return (VArray (map (fun s => VString (units s)) ss)) l1).
  { now rewrite (bind_Return _ _ _ _ _ E1). }
  rewrite (bind_Return _ _ _ _ _ E).
  destruct (skip_spec l1) as (l2 & E2 & P2).
  rewrite (bind_Return _ _ _ _ _ E2).
  destruct (peek_spec l2) as (l3 & E3 & _).
  rewrite (bind_Return _ _ _ _ _ E3). rewrite P2, P1. reflexivity.
Qed.

Lemma parse_reads_back_string_array_witness :
  parse (types no_dates) (SArray [SString; SNumber])
    (OfString ([91] ++ quoted "a" ++ [44] ++ [34; 34; 93]))
  = Fulfilled (VArray [VString (str "a"); VString []]).
Proof.
  apply (parse_reads_back_string_array no_dates [[97]; []] [SNumber]
           (OfString ([91] ++ quoted "a" ++ [44] ++ [34; 34; 93]))).
  reflexivity.
Defined.



(** ** Termination *)

Lemma bounded_le {A} (o : Outcome A) b b' :
  bounded o b -> (b <= b')%nat -> bounded o b'.
Proof. destruct o; simpl; auto. lia. Qed.

Lemma bounded_bind {A B} (m : M A) (k : A -> M B) lex b :
  bounded (m lex) b ->
  (forall a lex', m lex = Return a lex' ->
     (length (pending lex') <= b)%nat -> bounded (k a lex') b) ->
  bounded (bind m k lex) b.
Proof.
  unfold bind. destruct (m lex) as [a l| |]; simpl; auto.
Qed.

Lemma settles_bind {A B} (m : M A) (k : A -> M B) :
  settles m -> (forall a, settles (k a)) -> settles (bind m k).
Proof.
  intros Hm Hk lex. apply bounded_bind; [apply Hm|].
  intros a l _ Hl. eapply bounded_le; [apply Hk|exact Hl].
Qed.

Lemma settles_ret {A} (a : A) : settles (ret a).
Proof. intros lex. unfold within. simpl. lia. Qed.

Lemma settles_throw {A} e : settles (@throw A e).
Proof. intros lex. exact I. Qed.

Lemma settles_error {A} msg : settles (@error A msg).
Proof. intros lex. exact I. Qed.

Lemma settles_peek : settles peek.
Proof.
  intros lex. destruct (peek_spec lex) as (l & E & P & _).
  unfold within. rewrite E. simpl. rewrite P. lia.
Qed.

Lemma settles_nextChar : settles nextChar.
Proof.
  intros lex. unfold within. destruct (pending lex) as [|c r] eqn:E.
  - destruct (nextChar_nil lex E) as (l & E1 & P & _). rewrite E1. simpl.
    rewrite P. simpl. lia.
  - destruct (nextChar_cons lex c r E) as (l & E1 & P & _).
    rewrite E1. simpl. rewrite P. simpl. lia.
Qed.

Lemma settles_get_eof : settles get_eof.
Proof. intros lex. unfold within, get_eof. simpl. lia. Qed.

Lemma skip_ws_length l : (length (skip_ws l) <= length l)%nat.
Proof.
  induction l as [|c r IH]; simpl; [lia|]. destruct (white c); simpl; lia.
Qed.

Lemma settles_skip : settles skip.
Proof.
  intros lex. destruct (skip_spec lex) as (l & E & P).
  unfold within. rewrite E. simpl. rewrite P. apply skip_ws_length.
Qed.

Lemma settles_readDigits : settles readDigits.
Proof.
  intros lex. destruct (readDigits_spec lex) as (l & E & P).
  unfold within. rewrite E. simpl. rewrite P. apply after_digits_length.
Qed.

Create HintDb settles.

#[local] Hint Resolve settles_ret settles_throw settles_error settles_peek
  settles_nextChar settles_get_eof settles_skip settles_readDigits : settles.

Ltac settle :=
  repeat first
    [ solve [auto with settles nocore]
    | apply settles_bind; [|intros ?]
    | match goal with
      | |- settles (if ?b then _ else _) => destruct b
      | |- settles (match ?x with _ => _ end) => destruct x
      | |- settles (let _ := _ in _) => cbv zeta
      end ].

Lemma settles_expect s : settles (expect s).
Proof.
  unfold expect. apply settles_bind; [apply settles_skip|intros _].
  generalize s at 2. intros e. induction e as [|c e IH]; cbn [expect_loop]; settle.
Qed.

Lemma settles_skipAndPeek : settles skipAndPeek.
Proof. unfold skipAndPeek. settle. Qed.

Lemma settles_skipAndExpect delim : settles (skipAndExpect delim).
Proof. unfold skipAndExpect. settle. Qed.

Lemma settles_mustChar : settles mustChar.
Proof. unfold mustChar. settle. Qed.

#[local] Hint Resolve settles_expect settles_skipAndPeek settles_skipAndExpect
  settles_mustChar : settles.

Lemma settles_unescape : settles unescape.
Proof. unfold unescape. settle. Qed.

Lemma settles_booleanLiteral : settles booleanLiteral.
Proof. unfold booleanLiteral. settle. Qed.

Lemma settles_numberLiteral : settles numberLiteral.
Proof. unfold numberLiteral. settle. Qed.

#[local] Hint Resolve settles_unescape settles_booleanLiteral
  settles_numberLiteral : settles.

Lemma stringLiteral_loop_bounded : forall n result lex,
  (length (pending lex) < n)%nat ->
  bounded (stringLiteral_loop n result lex) (length (pending lex)).
Proof.
  induction n as [|n IH]; intros result lex Hn; [lia|].
  cbn [stringLiteral_loop].
  destruct (pending lex) as [|c r] eqn:E.
  - destruct (nextChar_nil lex E) as (l & E1 & _ & F).
    rewrite (bind_Return _ _ _ _ _ E1). cbn [char_eqb].
    unfold get_eof at 1. unfold bind at 1. rewrite F. exact I.
  - destruct (nextChar_cons lex c r E) as (l & E1 & P & F).
    rewrite (bind_Return _ _ _ _ _ E1).
    destruct (char_eqb (Some c) "034"); [simpl; rewrite P; simpl; lia|].
    unfold get_eof at 1. unfold bind at 1. rewrite F.
    simpl in Hn.
    apply bounded_le with (length (pending l)); [|rewrite P; simpl; lia].
    apply bounded_bind.
    + destruct (char_eqb (Some c) "092");
        [apply settles_unescape|apply settles_ret].
    + intros ch l' _ Hl.
      apply bounded_le with (length (pending l')); [|lia].
      apply IH. rewrite P in Hl. lia.
Qed.

(** A string token takes at least its opening quotation mark. *)
Lemma stringLiteral_bounded lex :
  bounded (stringLiteral lex) (pred (length (pending lex))).
Proof.
  unfold stringLiteral.
  destruct (skipAndExpect "034" lex) as [[] l| |] eqn:E.
  - rewrite (bind_Return _ _ _ _ _ E).
    apply skipAndExpect_inv in E as (r & Hr & P).
    pose proof (skip_ws_length (pending lex)) as Hl. rewrite Hr in Hl.
    simpl in Hl.
    apply bounded_le with (length (pending l)); [|rewrite P; lia].
    apply stringLiteral_loop_bounded. lia.
  - unfold bind. rewrite E. exact I.
  - pose proof (settles_skipAndExpect "034" lex) as H.
    unfold within in H. now rewrite E in H.
Qed.

Lemma settles_stringLiteral : settles stringLiteral.
Proof.
  intros lex. eapply bounded_le; [apply stringLiteral_bounded|lia].
Qed.

#[local] Hint Resolve settles_stringLiteral : settles.

Lemma settles_within {A} (m : M A) lex : settles m -> within m lex.
Proof. intros H. apply H. Qed.

Lemma stringLiteral_consumes lex key l :
  stringLiteral lex = Return key l ->
  (length (pending l) < length (pending lex))%nat.
Proof.
  intros H. unfold stringLiteral in H.
  apply bind_inv in H as ([] & l1 & E & H).
  apply skipAndExpect_inv in E as (r & Hr & P).
  pose proof (skip_ws_length (pending lex)) as Hl. rewrite Hr in Hl.
  simpl in Hl.
  pose proof (stringLiteral_loop_bounded (S (length (pending l1))) [] l1) as B.
  rewrite H in B. simpl in B. rewrite P in B. specialize (B ltac:(lia)). lia.
Qed.

Lemma skipAndExpect_consumes delim lex l :
  skipAndExpect delim lex = Return tt l ->
  (length (pending l) < length (pending lex))%nat.
Proof.
  intros E. apply skipAndExpect_inv in E as (r & Hr & P).
  pose proof (skip_ws_length (pending lex)) as Hl. rewrite Hr in Hl.
  simpl in Hl. rewrite P. lia.
Qed.

Lemma settles_check original parsed : settles (check original parsed).
Proof.
  unfold check. induction (map fst (properties original)) as [|k keys IH];
    cbn [check_loop]; settle.
Qed.

#[local] Hint Resolve settles_check : settles.

Lemma gbind_bounded {A B} (m : G A) (k : A -> G B) lex b :
  bounded (snd (m lex)) b ->
  (forall ys a lex', m lex = (ys, Return a lex') ->
     (length (pending lex') <= b)%nat -> bounded (snd (k a lex')) b) ->
  bounded (snd (gbind m k lex)) b.
Proof.
  unfold gbind. destruct (m lex) as [ys [a l| |]]; simpl; auto.
  intros Hl H. specialize (H ys a l eq_refl Hl).
  now destruct (k a l).
Qed.

Lemma lift_bounded {A} (m : M A) lex b :
  bounded (m lex) b -> bounded (snd (lift m lex)) b.
Proof. auto. Qed.

Section Settling.

Variable dispatch : Sample -> M Value.
Variable f : nat.

Hypothesis dispatch_settles : forall sample lex,
  (length (pending lex) < f)%nat -> within (dispatch sample) lex.

Lemma addProperty_bounded template target key lex :
  (length (pending lex) < f)%nat ->
  within (addProperty dispatch template target key) lex.
Proof.
  intros Hf. unfold addProperty, within.
  destruct (lookup template key) as [sample|]; [|exact I].
  apply bounded_bind; [apply settles_skip|]. intros _ l1 _ H1.
  apply bounded_bind.
  - eapply bounded_le; [apply dispatch_settles; lia|exact H1].
  - intros v l2 _ H2. simpl. exact H2.
Qed.

Lemma ObjectParser_loop_bounded template :
  forall fuel target ch lex,
    (length (pending lex) < fuel)%nat ->
    (length (pending lex) < f)%nat ->
    bounded (ObjectParser_loop dispatch fuel template target ch lex)
            (length (pending lex)).
Proof.
  induction fuel as [|fuel IH]; intros target ch lex Hn Hf; [lia|].
  cbn [ObjectParser_loop].
  destruct (char_eqb ch "034"); [|apply settles_ret].
  pose proof (settles_stringLiteral lex) as Hs. unfold within in Hs.
  destruct (stringLiteral lex) as [key l1| |] eqn:E;
    [|unfold bind; rewrite E; exact I|contradiction].
  rewrite (bind_Return _ _ _ _ _ E).
  apply stringLiteral_consumes in E.
  apply bounded_le with (length (pending l1)); [|lia].
  apply bounded_bind; [apply settles_skipAndExpect|]. intros _ l2 _ H2.
  apply bounded_bind.
  { eapply bounded_le; [apply addProperty_bounded; lia|exact H2]. }
  intros target1 l3 _ H3.
  apply bounded_bind.
  { eapply bounded_le; [apply settles_skipAndPeek|exact H3]. }
  intros ch1 l4 _ H4.
  destruct (char_eqb ch1 ",").
  - apply bounded_bind.
    { eapply bounded_le; [apply settles_nextChar|exact H4]. }
    intros _ l5 _ H5. apply bounded_bind.
    { eapply bounded_le; [apply settles_skipAndPeek|exact H5]. }
    intros ch2 l6 _ H6.
    eapply bounded_le; [apply IH; lia|exact H6].
  - destruct (negb (char_eqb ch1 "}")); [exact I|].
    eapply bounded_le; [apply IH; lia|exact H4].
Qed.

Lemma ObjectParser_parse_bounded original lex :
  (length (pending lex) <= f)%nat ->
  within (ObjectParser_parse dispatch original) lex.
Proof.
  intros Hf. unfold ObjectParser_parse, within. cbv zeta.
  pose proof (settles_skipAndExpect "{" lex) as Hs. unfold within in Hs.
  destruct (skipAndExpect "{" lex) as [[] l1| |] eqn:E;
    [|unfold bind; rewrite E; exact I|contradiction].
  rewrite (bind_Return _ _ _ _ _ E).
  apply skipAndExpect_consumes in E.
  apply bounded_le with (length (pending l1)); [|lia].
  apply bounded_bind; [apply settles_skipAndPeek|]. intros ch l2 _ H2.
  apply bounded_bind.
  { eapply bounded_le; [apply ObjectParser_loop_bounded; lia|exact H2]. }
  intros target l3 _ H3.
  apply bounded_bind.
  { eapply bounded_le; [apply settles_skipAndExpect|exact H3]. }
  intros _ l4 _ H4.
  apply bounded_bind.
  { eapply bounded_le; [apply settles_check|exact H4]. }
  intros _ l5 _ H5.
  apply bounded_bind.
  { eapply bounded_le; [apply settles_skip|exact H5]. }
  intros _ l6 _ H6. exact H6.
Qed.

Lemma elements_loop_stop sample n lex :
  hd_error (skip_ws (pending lex)) = Some 93 ->
  bounded (snd (elements_loop dispatch (S n) sample lex)) (length (pending lex)).
Proof.
  intros H. cbn [elements_loop].
  destruct (skipAndPeek_spec lex) as (l1 & E1 & P1).
  rewrite (gbind_lift _ _ _ _ _ E1), H. simpl. rewrite P1.
  apply skip_ws_length.
Qed.

Lemma elements_loop_bounded sample :
  forall n lex,
    (length (pending lex) < n)%nat ->
    (length (pending lex) < f)%nat ->
    bounded (snd (elements_loop dispatch n sample lex)) (length (pending lex)).
Proof.
  induction n as [|n IH]; intros lex Hn Hf; [lia|].
  cbn [elements_loop].
  destruct (skipAndPeek_spec lex) as (l1 & E1 & P1).
  rewrite (gbind_lift _ _ _ _ _ E1).
  pose proof (skip_ws_length (pending lex)) as L1. rewrite <- P1 in L1.
  destruct (char_eqb (hd_error (skip_ws (pending lex))) "]");
    [simpl; exact L1|].
  apply bounded_le with (length (pending l1)); [|exact L1].
  apply gbind_bounded.
  { pose proof (dispatch_settles sample l1 ltac:(lia)) as Hd.
    unfold within in Hd. unfold yield.
    destruct (dispatch sample l1); simpl; auto. }
  intros ys [] l2 _ H2.
  destruct (skipAndPeek_spec l2) as (l3 & E3 & P3).
  rewrite (gbind_lift _ _ _ _ _ E3).
  pose proof (skip_ws_length (pending l2)) as L3. rewrite <- P3 in L3.
  destruct (char_eqb (hd_error (skip_ws (pending l2))) ",") eqn:Ec.
  - destruct (skip_ws (pending l2)) as [|c r] eqn:E2; [discriminate|].
    destruct (nextChar_cons l3 c r P3) as (l4 & E4 & P4 & _).
    rewrite (gbind_lift _ _ _ _ _ E4).
    rewrite P3 in L3. simpl in L3.
    apply bounded_le with (length (pending l4)); [|rewrite P4; lia].
    apply IH; rewrite P4; lia.
  - destruct (negb (char_eqb (hd_error (skip_ws (pending l2))) "]")) eqn:Eb;
      [exact I|].
    apply negb_false_iff in Eb.
    destruct (skip_ws (pending l2)) as [|c r] eqn:E2; [discriminate|].
    cbn [hd_error] in Eb. apply char_eqb_eq in Eb. subst c.
    rewrite P3 in L3. simpl in L3.
    destruct n as [|n]; [lia|].
    eapply bounded_le;
      [apply elements_loop_stop; rewrite P3; reflexivity
      |rewrite P3; simpl; lia].
Qed.

Lemma Lex_elements_bounded sample lex :
  (length (pending lex) <= f)%nat ->
  bounded (snd (Lex_elements dispatch sample lex)) (length (pending lex)).
Proof.
  intros Hf. unfold Lex_elements.
  pose proof (settles_skipAndExpect "[" lex) as Hs. unfold within in Hs.
  destruct (skipAndExpect "[" lex) as [[] l1| |] eqn:E;
    [|unfold gbind, lift; rewrite E; exact I|contradiction].
  rewrite (gbind_lift _ _ _ _ _ E).
  apply skipAndExpect_consumes in E.
  apply bounded_le with (length (pending l1)); [|lia].
  apply gbind_bounded; [apply elements_loop_bounded; lia|].
  intros ys [] l2 _ H2. apply lift_bounded.
  eapply bounded_le; [apply settles_expect|exact H2].
Qed.

End Settling.

Lemma collect_bounded (g : G unit) lex b :
  bounded (snd (g lex)) b -> bounded (collect g lex) b.
Proof. unfold collect. destruct (g lex) as [ys [a l| |]]; auto. Qed.

Lemma type_parse_within D : forall f sample lex,
  (length (pending lex) < f)%nat ->
  within (type_parse (types D) (Lex_api f (types D)) sample) lex.
Proof.
  induction f as [|f IH]; intros sample lex Hf; [lia|].
  assert (Hobj : forall o,
    within (ObjectParser_parse (type_parse (types D) (Lex_api f (types D))) o)
      lex).
  { intros o. apply (ObjectParser_parse_bounded _ f IH). lia. }
  unfold type_parse.
  destruct sample as [| | | | | | |l|o|];
    cbn [find types isValid parse_ boolean_type number_type date_type
         string_type array_type object_type other_type typeof_object
         Lex_api api_object api_elements];
    try (apply settles_within; solve [settle]); try apply Hobj.
  destruct l as [|e l]; [exact I|].
  apply bounded_bind; [|intros r l1 _ H1; exact H1].
  apply collect_bounded, (Lex_elements_bounded _ f IH). lia.
Qed.

(** X17: with the built-in handlers [parse] always settles: whatever the
    sample and the input, every loop comes to its end and every nested
    call returns, so the promise is fulfilled or rejected. *)
Theorem parse_always_settles (D : jsstring -> option Z)
  (sample : Sample) (source : Stream) :
  parse (types D) sample source <> Unsettled.
Proof.
  unfold parse, parse_on.
  set (lex := Lex.new (toStream source)).
  assert (H : within
    (result <- type_parse (types D) (Lex_api (depth lex) (types D)) sample ;;
     skip ;;;
     ch <- peek ;;
     match ch with
     | Some _ => error (str "Expected one JSON element, got extra data.")
     | None => ret result
     end) lex).
  { apply bounded_bind.
    - apply type_parse_within. unfold depth. lia.
    - intros r l1 _ H1. eapply bounded_le; [|exact H1].
      apply settles_within. settle. }
  unfold within in H.
  destruct (bind _ _ lex); [discriminate|discriminate|contradiction].
Qed.

(** ** The date handler *)

(** X18: for a date sample the handler reads a string token and hands its
    text to the host's Date: the time the host reads in it is the value,
    and when the host reads none the handler fails with "Expected date,
    got <text>." at the position behind the closing quotation mark. *)
Theorem date_handler_outcome (D : jsstring -> option Z) (api : Api)
  (lex : Lex.t) (s r : list N) :
  skip_ws (pending lex) = write_string s ++ r ->
  exists lex',
    pending lex' = r
    /\ position lex'
       = advance_pos (position lex)
           (white_prefix (pending lex) ++ write_string s)
    /\ type_parse (types D) api SDate lex
       = match D (units s) with
         | Some t => Return (VDate t) lex'
         | None =>
             Throw (error_pos (position lex')
                      (str "Expected date, got " ++ units s ++ str "."))
         end.
Proof.
  intros H. destruct (stringLiteral_reads lex s r H) as (l1 & E1 & P1 & Q1).
  exists l1. split; [exact P1|]. split; [exact Q1|].
  unfold type_parse.
  cbn [find types isValid parse_ boolean_type number_type date_type].
  rewrite (bind_Return _ _ _ _ _ E1).
  destruct (D (units s)); reflexivity.
Qed.

Lemma date_handler_outcome_witness :
  exists lex',
    pending lex' = []
    /\ position lex' = (1, 5)
    /\ type_parse (types no_dates) (Lex_api 0 (types no_dates)) SDate
         (Lex.new [(32, [34; 120; 34])])
       = Throw (error_pos (position lex') (str "Expected date, got x.")).
Proof.
  apply (date_handler_outcome no_dates (Lex_api 0 (types no_dates))
           (Lex.new [(32, [34; 120; 34])]) [120] []).
  reflexivity.
Defined.
